(** * VibeCraft: the voxel world, the player physics and the block interactions

    A shallow embedding of [src/App.tsx].

    Numbers.  The positions of the blocks are JavaScript numbers, that is
    IEEE 754 doubles ([Number], the kernel's binary64 floats with their
    rounding): the program compares them with [===], and the world normal of
    a face of a turned mesh is not an integer vector in doubles.  The terrain
    generator only builds positions from loop counters and floors; it is
    embedded over the integers ([Z], in [World Z]) and its blocks enter the
    array of the game with their coordinates as doubles.  The coordinate
    hashes, the random draws and the screen coordinates are rationals ([Q]),
    and the camera pose and the player's velocity are reals ([R], because
    [Vector3.normalize] takes a square root); for these IEEE rounding is not
    modelled.

    Libraries.  three.js, react-native-gesture-handler and
    react-native-reanimated are not part of the repository.  What the program
    asks of them enters as parameters ([Math_sin] for the terrain, the record
    [Env] for the raycaster, the bounding box of a mesh, the window and the
    engine's [Math.cos] and [Math.sin] on doubles) or as
    events (the callbacks of the gestures, the frames of the render loop, the
    time elapsed on the clock of the animation). *)

From Stdlib Require Import Floats.
From Stdlib Require Import ZArith QArith Qround List Bool Lia Psatz Reals.
Import ListNotations.

Local Open Scope Z_scope.

(** ** Constants for our world *)

Definition WORLD_SIZE : Z := 10.
Definition BLOCK_SIZE : Z := 1.
Definition GRAVITY : R := 0.01%R.
Definition JUMP_FORCE : R := 0.15%R.
Definition PLAYER_HEIGHT : R := 1.6%R.
Definition PLAYER_WIDTH : R := 0.6%R.
Definition moveSpeed : R := 0.1%R.

(** ** Data model *)

Inductive BlockType := grass | dirt | stone | bedrock | wood | leaves.

Definition BlockType_eqb (a b : BlockType) : bool :=
  match a, b with
  | grass, grass | dirt, dirt | stone, stone
  | bedrock, bedrock | wood, wood | leaves, leaves => true
  | _, _ => false
  end.

(** three.js [Vector3]: over the doubles for the positions of the blocks,
    over the integers for the cells of the terrain generator and over the
    reals for the camera. *)
Record Vector3 (A : Type) := V3 { vx : A; vy : A; vz : A }.
Arguments V3 {A} _ _ _.
Arguments vx {A} _.
Arguments vy {A} _.
Arguments vz {A} _.

Definition Cell := Vector3 Z.

(** A [Mesh] is a reference: [meshId] is its identity (the program compares
    meshes and blocks with [===]), [meshPosition] the copy of the block's
    position, [rotY] the number of quarter turns of
    [mesh.rotation.y = (Math.floor(Math.random() * 4) * Math.PI) / 2]. *)
Record Mesh (A : Type) :=
  mkMesh { meshId : nat; meshPosition : Vector3 A; rotY : Z }.
Arguments mkMesh {A} _ _ _.
Arguments meshId {A} _.
Arguments meshPosition {A} _.
Arguments rotY {A} _.

Record Block (A : Type) :=
  mkBlock { position : Vector3 A; type : BlockType; mesh : Mesh A }.
Arguments mkBlock {A} _ _ _.
Arguments position {A} _.
Arguments type {A} _.
Arguments mesh {A} _.

(** ** Math.random

    The generator is a sequence of draws and a cursor; a call returns the
    draw under the cursor and advances it. *)
Record Rng := mkRng { draws : nat -> Q; cursor : nat }.

Definition random (r : Rng) : Q * Rng :=
  (draws r (cursor r), mkRng (draws r) (S (cursor r))).

(** [n] calls whose values only reach the renderer. *)
Definition skip (n : nat) (r : Rng) : Rng := mkRng (draws r) (n + cursor r).

Definition Qgtb (a b : Q) : bool := negb (Qle_bool a b).
Definition Qltb (a b : Q) : bool := negb (Qle_bool b a).

(** ** The block array and createBlock *)

(** [blocks.current], the counter that gives fresh meshes their identity, and
    the random generator. *)
Record World (A : Type) :=
  mkWorld { blocks : list (Block A); nextMesh : nat; rng : Rng }.
Arguments mkWorld {A} _ _ _.
Arguments blocks {A} _.
Arguments nextMesh {A} _.
Arguments rng {A} _.

(** The draws of [createBlockPattern]: one to decide whether to decorate,
    then those of the case of the block's type. *)
Definition createBlockPattern (t : BlockType) (r : Rng) : Rng :=
  let (p, r) := random r in
  if Qgtb p 0.3%Q then r
  else
    match t with
    | grass => skip 1 r
    | stone =>
        let (q, r) := random r in
        if Qgtb q 0.7%Q then skip 6 r else r
    | dirt =>
        let (q, r) := random r in
        if Qgtb q 0.8%Q then skip 7 r else r
    | wood =>
        let (q, r) := random r in
        if Qgtb q 0.5%Q then
          let (g, r) := random r in
          let grainCount := Qfloor (g * 3)%Q + 2 in
          skip (2 * Z.to_nat grainCount) r
        else r
    | leaves =>
        let (l, r) := random r in
        let leafCount := Qfloor (l * 4)%Q + 3 in
        skip (6 * Z.to_nat leafCount) r
    | bedrock => r
    end.

(** [createBlock]: the colour jitter (six materials for grass, one
    otherwise), the rotation (not for bedrock), the pattern, the darkening
    draw; then the block is pushed on the array. *)
Definition createBlock {A} (pos : Vector3 A) (t : BlockType) (w : World A)
  : Mesh A * World A :=
  let r := skip (match t with grass => 6 | _ => 1 end) (rng w) in
  let (rot, r) :=
    match t with
    | bedrock => (0, r)
    | _ => let (q, r) := random r in (Qfloor (q * 4)%Q, r)
    end in
  let r := createBlockPattern t r in
  let r := skip 1 r in
  let m := mkMesh (nextMesh w) pos rot in
  (m, mkWorld (blocks w ++ [mkBlock pos t m]) (S (nextMesh w)) r).

(** The integers [lo, lo+1, ..., hi] of a counting [for] loop. *)
Definition zrange (lo hi : Z) : list Z :=
  map (fun k => lo + Z.of_nat k) (seq 0 (Z.to_nat (hi - lo + 1))).

(** ** generateTerrain *)

Section Terrain.

(** [Math.sin] on the hashed coordinates. *)
Variable Math_sin : Q -> Q.

Definition noise (x z : Z) (scale amplitude : Q) : Q :=
  (let X := Qfloor (inject_Z x * scale) in
   let Z' := Qfloor (inject_Z z * scale) in
   let dot1 :=
     Math_sin (inject_Z X * 12.9898 + inject_Z Z' * 78.233) * 43758.5453 in
   let dot2 :=
     Math_sin (inject_Z X * 63.9898 + inject_Z Z' * 23.233) * 93758.5453 in
   ((Math_sin dot1 + Math_sin dot2) * 0.5 + 0.5) * amplitude)%Q.

Definition noise3D (x y z : Z) : Q :=
  (let X := Qfloor (inject_Z x * 0.5) in
   let Y := Qfloor (inject_Z y * 0.5) in
   let Z' := Qfloor (inject_Z z * 0.5) in
   let dot :=
     Math_sin (inject_Z X * 12.9898 + inject_Z Y * 43.233 + inject_Z Z' * 78.233)
     * 43758.5453 in
   Math_sin dot * 0.5 + 0.5)%Q.

(** One leaf candidate of a layer. *)
Definition leafCell (x z baseHeight leafStartHeight layerRadius y lx : Z)
    (w : World Z) (lz : Z) : World Z :=
  if lx * lx + lz * lz >? layerRadius * layerRadius + 1 then w
  else
    let (p, r) := random (rng w) in
    let w := mkWorld (blocks w) (nextMesh w) r in
    if Qgtb p 0.8%Q then w
    else
      snd (createBlock
             (V3 ((x + lx) * BLOCK_SIZE) (baseHeight + leafStartHeight + y)
                 ((z + lz) * BLOCK_SIZE))
             leaves w).

Definition leafLayer (x z baseHeight leafStartHeight leafRadius leafHeight : Z)
    (w : World Z) (y : Z) : World Z :=
  let layerRadius :=
    if (y =? 0) || (y =? leafHeight - 1)
    then Z.max 1 (leafRadius - 1) else leafRadius in
  fold_left
    (fun w lx =>
       fold_left (leafCell x z baseHeight leafStartHeight layerRadius y lx)
                 (zrange (- layerRadius) layerRadius) w)
    (zrange (- layerRadius) layerRadius) w.

Definition generateTree (x z baseHeight : Z) (w : World Z) : World Z :=
  let (t, r) := random (rng w) in
  let w := mkWorld (blocks w) (nextMesh w) r in
  let trunkHeight := Qfloor (t * 3)%Q + 3 in
  let w :=
    fold_left
      (fun w y =>
         snd (createBlock (V3 (x * BLOCK_SIZE) (baseHeight + y + 1) (z * BLOCK_SIZE))
                          wood w))
      (zrange 0 (trunkHeight - 1)) w in
  let (a, r) := random (rng w) in
  let leafRadius := Qfloor (a * 1)%Q + 2 in
  let (b, r) := random r in
  let leafHeight := Qfloor (b * 2)%Q + 2 in
  let w := mkWorld (blocks w) (nextMesh w) r in
  let leafStartHeight := trunkHeight - 1 in
  fold_left (leafLayer x z baseHeight leafStartHeight leafRadius leafHeight)
            (zrange 0 (leafHeight - 1)) w.

Definition baseHeight (x z : Z) : Q :=
  (noise x z 0.1 4 + noise x z 0.2 2 + noise x z 0.5 1)%Q.

Definition height (x z : Z) : Z := Qfloor (baseHeight x z) - 2.

Definition topBlockType (x z : Z) : BlockType :=
  if Qgtb (noise x z 0.3%Q 1%Q) 0.8%Q && Qgtb (baseHeight x z) 3%Q then stone else grass.

Definition dirtDepth (x z : Z) : Z :=
  match topBlockType x z with
  | stone => 1
  | _ => Qfloor (noise x z 0.4%Q 2%Q) + 2
  end.

Definition bedrockLevel : Z := -7.

(** The body of the two nested loops: one column. *)
Definition generateColumn (x : Z) (w : World Z) (z : Z) : World Z :=
  let h := height x z in
  let w := snd (createBlock (V3 (x * BLOCK_SIZE) h (z * BLOCK_SIZE))
                            (topBlockType x z) w) in
  let w :=
    fold_left
      (fun w y =>
         snd (createBlock (V3 (x * BLOCK_SIZE) (h - y) (z * BLOCK_SIZE)) dirt w))
      (zrange 1 (dirtDepth x z)) w in
  let w :=
    fold_left
      (fun w y =>
         let blockType := if Qgtb (noise3D x y z) 0.9%Q then dirt else stone in
         snd (createBlock (V3 (x * BLOCK_SIZE) (h - y) (z * BLOCK_SIZE))
                          blockType w))
      (zrange (dirtDepth x z + 1) (Z.abs (bedrockLevel - h))) w in
  let w := snd (createBlock (V3 (x * BLOCK_SIZE) bedrockLevel (z * BLOCK_SIZE))
                            bedrock w) in
  if BlockType_eqb (topBlockType x z) grass
     && (x >? 2) && (x <? WORLD_SIZE - 3) && (z >? 2) && (z <? WORLD_SIZE - 3)
  then
    let (p, r) := random (rng w) in
    let w := mkWorld (blocks w) (nextMesh w) r in
    if Qltb p 0.05%Q then generateTree x z h w else w
  else w.

Definition generateTerrain (w : World Z) : World Z :=
  fold_left
    (fun w x => fold_left (generateColumn x) (zrange 0 (WORLD_SIZE - 1)) w)
    (zrange 0 (WORLD_SIZE - 1)) w.

(** The ground of a column, as [generateColumn] pushes it: the top block,
    the dirt, the stone fill and the bedrock. *)
Definition fillCells (x z : Z) : list (Cell * BlockType) :=
  (V3 x (height x z) z, topBlockType x z)
  :: map (fun y => (V3 x (height x z - y) z, dirt)) (zrange 1 (dirtDepth x z))
  ++ map (fun y => (V3 x (height x z - y) z,
                    if Qgtb (noise3D x y z) 0.9%Q then dirt else stone))
         (zrange (dirtDepth x z + 1) (Z.abs (bedrockLevel - height x z))).

Definition columnCells (x z : Z) : list (Cell * BlockType) :=
  fillCells x z ++ [(V3 x bedrockLevel z, bedrock)].

End Terrain.

Definition emptyWorld {A} (r : Rng) : World A := mkWorld [] 0 r.

(** The world [w] with the blocks [before] in front of its array. *)
Definition prepend {A} (before : list (Block A)) (w : World A) : World A :=
  mkWorld (before ++ blocks w) (nextMesh w) (rng w).

(** ** What the generator puts in the block array *)

(** The cell and the type of every block of the array, in array order. *)
Definition cellOf (b : Block Z) : Cell * BlockType := (position b, type b).
Definition content (w : World Z) : list (Cell * BlockType) := map cellOf (blocks w).

Definition isBedrock (c : Cell * BlockType) : bool := BlockType_eqb (snd c) bedrock.
Definition isTreeCell (c : Cell * BlockType) : Prop := snd c = wood \/ snd c = leaves.

(** [grows P w w']: [w'] is [w] with more blocks pushed, all satisfying [P]. *)
Definition grows (P : Cell * BlockType -> Prop) (w w' : World Z) : Prop :=
  exists cells, content w' = content w ++ cells /\ Forall P cells.

(** [built G T l cells]: [cells] is what a loop over [l] pushes when the
    step at [a] pushes [G a] followed by cells that satisfy [T]. *)
Inductive built {A C : Type} (G : A -> list C) (T : C -> Prop)
  : list A -> list C -> Prop :=
| built_nil : built G T [] []
| built_cons a l extra rest :
    Forall T extra -> built G T l rest -> built G T (a :: l) (G a ++ extra ++ rest).

(** The columns in generation order. *)
Definition columns : list (Z * Z) :=
  list_prod (zrange 0 (WORLD_SIZE - 1)) (zrange 0 (WORLD_SIZE - 1)).

(** No two blocks of the array share a grid position. *)
Definition uniquePositions (bs : list (Block Z)) : Prop := NoDup (map position bs).

(** The bedrock-typed blocks of the column [(x, z)]. *)
Definition bedrockCellIn (x z : Z) (c : Cell * BlockType) : bool :=
  isBedrock c && (vx (fst c) =? x) && (vz (fst c) =? z).

Definition bedrockInColumn (x z : Z) (b : Block Z) : bool :=
  bedrockCellIn x z (cellOf b).

(** ** JavaScript numbers

    The doubles of the block positions.  [+], [*], [/] and [Math.sqrt] on
    them round as IEEE 754 prescribes, and [===] is [PrimFloat.eqb]: it holds
    of [0] and [-0] and fails on [NaN]. *)

Abbreviation Number := float (only parsing).

(** An integer as a double: exact below [2^53] in absolute value. *)
Definition ofZ (z : Z) : Number :=
  match z with
  | Z0 => 0%float
  | Zpos _ => PrimFloat.of_uint63 (Uint63.of_Z z)
  | Zneg p => PrimFloat.opp (PrimFloat.of_uint63 (Uint63.of_Z (Zpos p)))
  end.

(** The real number that a finite double denotes (0 for the others), for the
    physics, which is embedded over the reals. *)
Definition toR (x : Number) : R :=
  match Prim2SF x with
  | S754_finite s m e =>
      let v := IZR (if s then Zneg m else Zpos m) in
      if 0 <=? e then (v * IZR (2 ^ e))%R else (v / IZR (2 ^ (- e)))%R
  | _ => 0%R
  end.

(** [Math.PI] *)
Definition Math_PI : Number := 0x1.921fb54442d18p+1%float.

(** [a.x === b.x && a.y === b.y && a.z === b.z] *)
Definition sameCoordinates (a b : Vector3 Number) : bool :=
  ((vx a =? vx b) && (vy a =? vy b) && (vz a =? vz b))%float.

(** [Vector3.add] and [Vector3.multiplyScalar] on doubles. *)
Definition add64 (a b : Vector3 Number) : Vector3 Number :=
  (V3 (vx a + vx b) (vy a + vy b) (vz a + vz b))%float.

Definition multiplyScalar64 (v : Vector3 Number) (s : Number) : Vector3 Number :=
  (V3 (vx v * s) (vy v * s) (vz v * s))%float.

(** The blocks of the terrain generator, as they are in the array: the same
    coordinates, as doubles. *)
Definition toNumbers (c : Cell) : Vector3 Number :=
  V3 (ofZ (vx c)) (ofZ (vy c)) (ofZ (vz c)).

Definition jsMesh (m : Mesh Z) : Mesh Number :=
  mkMesh (meshId m) (toNumbers (meshPosition m)) (rotY m).

Definition jsBlock (b : Block Z) : Block Number :=
  mkBlock (toNumbers (position b)) (type b) (jsMesh (mesh b)).

(** ** three.js vectors and boxes over the reals *)

Definition Vec := Vector3 R.

Definition setY (v : Vec) (y : R) : Vec := V3 (vx v) y (vz v).

Definition add (a b : Vec) : Vec :=
  V3 (vx a + vx b)%R (vy a + vy b)%R (vz a + vz b)%R.

Definition sub (a b : Vec) : Vec :=
  V3 (vx a - vx b)%R (vy a - vy b)%R (vz a - vz b)%R.

Definition multiplyScalar (v : Vec) (s : R) : Vec :=
  V3 (vx v * s)%R (vy v * s)%R (vz v * s)%R.

Definition length (v : Vec) : R :=
  sqrt (vx v * vx v + vy v * vy v + vz v * vz v)%R.

(** [Vector3.normalize]: [this.divideScalar(this.length() || 1)], where
    [divideScalar(s)] is [multiplyScalar(1 / s)]. *)
Definition normalize (v : Vec) : Vec :=
  let l := length v in
  multiplyScalar v (1 / (if Req_dec_T l 0 then 1 else l))%R.

Record Box3 := mkBox3 { boxMin : Vec; boxMax : Vec }.

Definition setFromCenterAndSize (center size : Vec) : Box3 :=
  let halfSize := multiplyScalar size 0.5%R in
  mkBox3 (sub center halfSize) (add center halfSize).

Definition Rleb (a b : R) : bool := if Rle_dec a b then true else false.
Definition Rgtb (a b : R) : bool := if Rgt_dec a b then true else false.

Definition intersectsBox (a b : Box3) : bool :=
  Rleb (vx (boxMin a)) (vx (boxMax b)) && Rleb (vx (boxMin b)) (vx (boxMax a))
  && Rleb (vy (boxMin a)) (vy (boxMax b)) && Rleb (vy (boxMin b)) (vy (boxMax a))
  && Rleb (vz (boxMin a)) (vz (boxMax b)) && Rleb (vz (boxMin b)) (vz (boxMax a)).

(** ** State of the application *)

(** The Euler angles of [eulerRef] (order YXZ, z is never written). *)
Record Euler := mkEuler { ex : R; ey : R }.

Record Camera := mkCamera { cameraPosition : Vec; quaternion : Euler }.

Record MoveState := mkMoveState {
  forward : bool; backward : bool; left : bool; right : bool;
  rotateX : R; rotateY : R; jump : bool }.

Record Player := mkPlayer {
  cameraRef : option Camera;
  eulerRef : Euler;
  playerVelocity : Vec;
  playerOnGround : bool;
  moveState : MoveState }.

Record Slot := mkSlot { slotType : BlockType; count : Z }.

(** The six faces of a [BoxGeometry]. *)
Inductive Face := PX | NX | PY | NY | PZ | NZ.

(** One element of the array returned by [Raycaster.intersectObjects]. *)
Record Intersection := mkIntersection { object : Mesh Number; face : option Face }.

(** The shared value [destructionProgress]: at rest at 0, animated to 1 by
    [withTiming(1, {duration: 800}, callback)] started [elapsed] ms ago at
    the touch point [(tx, ty)], at rest at 1 when that animation is over, or
    animated back to 0 without callback. *)
Inductive Progress :=
| AtRest
| Timing (elapsed : nat) (tx ty : Q)
| Complete
| Fading.

Record Game := mkGame {
  player : Player;
  world : World Number;
  highlightedBlockRef : option (Block Number);
  inventory : list Slot;
  selectedBlockIndex : nat;
  isDestructionInProgress : bool;
  destructionProgress : Progress;
  isPanning : bool }.

(** What the program asks of three.js and of the window. *)
Record Env := mkEnv {
  (** [v.applyQuaternion(camera.quaternion)], the quaternion set from the
      Euler angles *)
  applyQuaternion : Vec -> Euler -> Vec;
  (** [new Box3().setFromObject(block.mesh)] *)
  setFromObject : Block Number -> Box3;
  (** [new Raycaster(origin, direction, near, far).intersectObject(block.mesh)]
      is not empty *)
  rayIntersectsMesh : Vec -> Vec -> R -> R -> Block Number -> bool;
  (** [raycaster.setFromCamera({x, y}, camera)] then
      [raycaster.intersectObjects(meshes, false)], nearest first *)
  intersectObjects : Camera -> Q -> Q -> list (Mesh Number) -> list Intersection;
  (** [Dimensions.get('window')] *)
  windowWidth : Q;
  windowHeight : Q;
  (** [Math.sin] on the hashed coordinates of the terrain *)
  mathSin : Q -> Q;
  (** [Math.cos] and [Math.sin] of the engine on doubles, as
      [Quaternion.setFromEuler] calls them for the rotation of a mesh *)
  mathCos64 : Number -> Number;
  mathSin64 : Number -> Number }.

(** ** The world normal of a face, as three.js computes it

    three.js is not part of the repository; the arithmetic below is that of
    [Quaternion.setFromEuler] (order XYZ), [Matrix4.compose] with scale 1,
    [Vector3.transformDirection] and [Vector3.normalize], operation by
    operation on doubles.  The block meshes are children of a group that is
    not moved, so [matrixWorld] is the matrix composed from the mesh's own
    position and rotation. *)

(** The normal of a face in the space of the mesh: the normals of a
    [BoxGeometry]. *)
Definition faceNormal (f : Face) : Vector3 Number :=
  (match f with
   | PX => V3 1 0 0
   | NX => V3 (-1) 0 0
   | PY => V3 0 1 0
   | NY => V3 0 (-1) 0
   | PZ => V3 0 0 1
   | NZ => V3 0 0 (-1)
   end)%float.

(** [mesh.rotation.y], from the number of quarter turns that [createBlock]
    drew: [(Math.floor(Math.random() * 4) * Math.PI) / 2]. *)
Definition rotationY (m : Mesh Number) : Number :=
  (ofZ (rotY m) * Math_PI / 2)%float.

Record Quaternion := mkQuaternion { qx : Number; qy : Number; qz : Number; qw : Number }.

Section Three.

Variable env : Env.

(** [Quaternion.setFromEuler(euler)] for [euler.order === 'XYZ']. *)
Definition setFromEuler (x y z : Number) : Quaternion :=
  (let c1 := mathCos64 env (x / 2) in
   let c2 := mathCos64 env (y / 2) in
   let c3 := mathCos64 env (z / 2) in
   let s1 := mathSin64 env (x / 2) in
   let s2 := mathSin64 env (y / 2) in
   let s3 := mathSin64 env (z / 2) in
   mkQuaternion (s1 * c2 * c3 + c1 * s2 * s3)
                (c1 * s2 * c3 - s1 * c2 * s3)
                (c1 * c2 * s3 + s1 * s2 * c3)
                (c1 * c2 * c3 - s1 * s2 * s3))%float.

(** [normal.transformDirection(clickedMesh.matrixWorld)]: the upper 3 x 3
    part of [Matrix4.compose(position, quaternion, scale)] applied to the
    normal, then [normalize()], which divides by [length() || 1]. *)
Definition transformDirection (n : Vector3 Number) (m : Mesh Number)
  : Vector3 Number :=
  (let q := setFromEuler 0 (rotationY m) 0 in
   let x := qx q in let y := qy q in let z := qz q in let w := qw q in
   let x2 := x + x in let y2 := y + y in let z2 := z + z in
   let xx := x * x2 in let xy := x * y2 in let xz := x * z2 in
   let yy := y * y2 in let yz := y * z2 in let zz := z * z2 in
   let wx := w * x2 in let wy := w * y2 in let wz := w * z2 in
   let sx := 1 in let sy := 1 in let sz := 1 in
   let e0 := (1 - (yy + zz)) * sx in
   let e1 := (xy + wz) * sx in
   let e2 := (xz - wy) * sx in
   let e4 := (xy - wz) * sy in
   let e5 := (1 - (xx + zz)) * sy in
   let e6 := (yz + wx) * sy in
   let e8 := (xz + wy) * sz in
   let e9 := (yz - wx) * sz in
   let e10 := (1 - (xx + yy)) * sz in
   let tx := e0 * vx n + e4 * vy n + e8 * vz n in
   let ty := e1 * vx n + e5 * vy n + e9 * vz n in
   let tz := e2 * vx n + e6 * vy n + e10 * vz n in
   let l := PrimFloat.sqrt (tx * tx + ty * ty + tz * tz) in
   let l := if (l =? 0) || PrimFloat.is_nan l then 1 else l in
   multiplyScalar64 (V3 tx ty tz) (1 / l))%float.

End Three.

Definition initialInventory : list Slot :=
  [mkSlot grass 64; mkSlot dirt 64; mkSlot stone 64;
   mkSlot bedrock 64; mkSlot wood 64; mkSlot leaves 64].

Definition initialMoveState : MoveState :=
  mkMoveState false false false false 0%R 0%R false.

Definition initialPlayer : Player :=
  mkPlayer None (mkEuler 0%R 0%R) (V3 0%R 0%R 0%R) false initialMoveState.

Definition initialGame (r : Rng) : Game :=
  mkGame initialPlayer (emptyWorld r) None initialInventory 0 false AtRest false.

(** ** Player controls and physics *)

Definition handleMovementJoystick (x y : R) (p : Player) : Player :=
  let m := moveState p in
  mkPlayer (cameraRef p) (eulerRef p) (playerVelocity p) (playerOnGround p)
    (mkMoveState (Rgtb (-0.2)%R y) (Rgtb y 0.2%R) (Rgtb (-0.2)%R x) (Rgtb x 0.2%R)
                 (rotateX m) (rotateY m) (jump m)).

Definition handleJoystickRelease (p : Player) : Player :=
  mkPlayer (cameraRef p) (eulerRef p) (playerVelocity p) (playerOnGround p)
    initialMoveState.

Definition handleJump (value : bool) (p : Player) : Player :=
  let m := moveState p in
  let m := mkMoveState (forward m) (backward m) (left m) (right m)
                       (rotateX m) (rotateY m) value in
  if playerOnGround p && value then
    mkPlayer (cameraRef p) (eulerRef p) (setY (playerVelocity p) JUMP_FORCE) false m
  else
    mkPlayer (cameraRef p) (eulerRef p) (playerVelocity p) (playerOnGround p) m.

(** The horizontal movement of one frame, from the four intents and the
    two horizontal unit vectors of the camera. *)
Definition moveDirection (m : MoveState) (fwd rgt : Vec) : Vec :=
  let d := V3 0%R 0%R 0%R in
  let d := if forward m then add d fwd else d in
  let d := if backward m then sub d fwd else d in
  let d := if left m then sub d rgt else d in
  let d := if right m then add d rgt else d in
  if Rgt_dec (length d) 0 then multiplyScalar (normalize d) moveSpeed else d.

(** The locals that the collision loop of [updatePlayerPosition] writes. *)
Record Collision := mkCollision {
  newY : R; velocityY : R; collided : bool; onGround : bool }.

Section Physics.

Variable env : Env.

(** One iteration of [for (const block of blocks.current)]. *)
Definition collideBlock (camera : Camera) (playerCollider : Box3)
    (c : Collision) (block : Block Number) : Collision :=
  let blockBox := setFromObject env block in
  let top := (toR (vy (position block)) + IZR BLOCK_SIZE)%R in
  let c :=
    if intersectsBox playerCollider blockBox then
      if Rleb (velocityY c) 0 && Rgtb (vy (cameraPosition camera)) top then
        mkCollision (top + PLAYER_HEIGHT / 2)%R 0%R (collided c) true
      else
        mkCollision (newY c) (velocityY c) true (onGround c)
    else c in
  if rayIntersectsMesh env (cameraPosition camera) (V3 0 (-1) 0)%R 0%R
                       (PLAYER_HEIGHT / 2 + 0.1)%R block
  then mkCollision (newY c) (velocityY c) (collided c) true
  else c.

(** The gravity step: the velocity and the flag after
    [if (!playerOnGround.current) playerVelocity.current.y -= GRAVITY]. *)
Definition applyGravity (onGround : bool) (velocityY : R) : R :=
  if negb onGround then (velocityY - GRAVITY)%R else velocityY.

(** The jump step of the frame:
    [if (moveState.current.jump && playerOnGround.current)]. *)
Definition applyJump (jump onGround : bool) (velocityY : R) : R * bool :=
  if jump && onGround then (JUMP_FORCE, false) else (velocityY, onGround).

Definition updatePlayerPosition (blocks : list (Block Number)) (p : Player)
  : Player :=
  match cameraRef p with
  | None => p
  | Some camera =>
      let m := moveState p in
      (* Update rotation *)
      let ey' := (ey (eulerRef p) - rotateX m)%R in
      let ex' := (ex (eulerRef p) - rotateY m)%R in
      let maxVerticalRotation := (PI * 0.45)%R in
      let ex' := Rmax (- maxVerticalRotation) (Rmin maxVerticalRotation ex') in
      let euler := mkEuler ex' ey' in
      (* movement direction *)
      let fwd := normalize (setY (applyQuaternion env (V3 0 0 (-1))%R euler) 0%R) in
      let rgt := normalize (setY (applyQuaternion env (V3 1 0 0)%R euler) 0%R) in
      let move := moveDirection m fwd rgt in
      (* gravity, jump *)
      let v := applyGravity (playerOnGround p) (vy (playerVelocity p)) in
      let (v, _) := applyJump (jump m) (playerOnGround p) v in
      (* candidate position *)
      let newPosition := add (cameraPosition camera) move in
      let newPosition := setY newPosition (vy newPosition + v)%R in
      let playerCollider :=
        setFromCenterAndSize
          (V3 (vx newPosition) (vy newPosition - PLAYER_HEIGHT / 2)%R (vz newPosition))
          (V3 PLAYER_WIDTH PLAYER_HEIGHT PLAYER_WIDTH) in
      (* collisions *)
      let c :=
        fold_left (collideBlock camera playerCollider) blocks
                  (mkCollision (vy newPosition) v false false) in
      let position :=
        if collided c
        then setY (cameraPosition camera) (newY c)
        else setY newPosition (newY c) in
      mkPlayer (Some (mkCamera position euler)) euler
               (setY (playerVelocity p) (velocityY c)) (onGround c) m
  end.


End Physics.

(** ** Block interactions *)

Definition setPlayer (g : Game) (p : Player) : Game :=
  mkGame p (world g) (highlightedBlockRef g) (inventory g) (selectedBlockIndex g)
         (isDestructionInProgress g) (destructionProgress g) (isPanning g).

Definition setWorld (g : Game) (w : World Number) : Game :=
  mkGame (player g) w (highlightedBlockRef g) (inventory g) (selectedBlockIndex g)
         (isDestructionInProgress g) (destructionProgress g) (isPanning g).

Definition setHighlightedBlockRef (g : Game) (h : option (Block Number)) : Game :=
  mkGame (player g) (world g) h (inventory g) (selectedBlockIndex g)
         (isDestructionInProgress g) (destructionProgress g) (isPanning g).

Definition setInventory (g : Game) (inv : list Slot) : Game :=
  mkGame (player g) (world g) (highlightedBlockRef g) inv (selectedBlockIndex g)
         (isDestructionInProgress g) (destructionProgress g) (isPanning g).

Definition setSelectedBlockIndex (g : Game) (i : nat) : Game :=
  mkGame (player g) (world g) (highlightedBlockRef g) (inventory g) i
         (isDestructionInProgress g) (destructionProgress g) (isPanning g).

Definition setDestruction (g : Game) (inProgress : bool) (p : Progress) : Game :=
  mkGame (player g) (world g) (highlightedBlockRef g) (inventory g)
         (selectedBlockIndex g) inProgress p (isPanning g).

Definition setIsPanning (g : Game) (b : bool) : Game :=
  mkGame (player g) (world g) (highlightedBlockRef g) (inventory g)
         (selectedBlockIndex g) (isDestructionInProgress g) (destructionProgress g) b.

(** [block === other] for two blocks of the array: the same mesh. *)
Definition sameBlock (a b : Block Number) : bool :=
  Nat.eqb (meshId (mesh a)) (meshId (mesh b)).

(** [blocks.current.find((block) => block.mesh === clickedMesh)]. *)
Definition findBlock (clickedMesh : Mesh Number) (bs : list (Block Number))
  : option (Block Number) :=
  find (fun block => Nat.eqb (meshId (mesh block)) (meshId clickedMesh)) bs.

(** [updatedInventory[i].count--]. *)
Fixpoint decrementCount (i : nat) (inv : list Slot) : list Slot :=
  match inv, i with
  | [], _ => []
  | s :: rest, O => mkSlot (slotType s) (count s - 1) :: rest
  | s :: rest, S i => s :: decrementCount i rest
  end.

(** The gesture state that the handlers test: [event.state === 5]. *)
Definition STATE_END : Z := 5.

(** The duration of the destruction animation, in ms. *)
Definition DESTRUCTION_DURATION : nat := 800.

Section Interaction.

Variable env : Env.

(** The touch point in normalized device coordinates, the ray from the
    camera through it, and its intersections with the block meshes. *)
Definition raycast (camera : Camera) (x y : Q) (bs : list (Block Number))
  : list Intersection :=
  let normalizedX := (x / windowWidth env * 2 - 1)%Q in
  let normalizedY := (- (y / windowHeight env) * 2 + 1)%Q in
  intersectObjects env camera normalizedX normalizedY (map mesh bs).

(** The block under the touch point: [intersects[0].object] looked up in the
    array. *)
Definition clickedBlockAt (camera : Camera) (x y : Q) (bs : list (Block Number))
  : option (Block Number * Intersection) :=
  match raycast camera x y bs with
  | [] => None
  | hit :: _ =>
      match findBlock (object hit) bs with
      | Some clickedBlock => Some (clickedBlock, hit)
      | None => None
      end
  end.

Definition highlightBlock (block : Block Number) (g : Game) : Game :=
  setHighlightedBlockRef g (Some block).

Definition highlightBlockAtPosition (x y : Q) (g : Game) : Game :=
  match cameraRef (player g) with
  | None => g
  | Some camera =>
      match clickedBlockAt camera x y (blocks (world g)) with
      | Some (clickedBlock, _) => highlightBlock clickedBlock g
      | None => g
      end
  end.

Definition destroyBlockAtPosition (x y : Q) (g : Game) : Game :=
  match cameraRef (player g) with
  | None => g
  | Some camera =>
      (* Reset destruction progress *)
      let g := setDestruction g false AtRest in
      match clickedBlockAt camera x y (blocks (world g)) with
      | Some (clickedBlock, _) =>
          let w := world g in
          let g :=
            setWorld g
              (mkWorld (filter (fun block => negb (sameBlock block clickedBlock))
                               (blocks w))
                       (nextMesh w) (rng w)) in
          match highlightedBlockRef g with
          | Some h =>
              if sameBlock h clickedBlock then setHighlightedBlockRef g None else g
          | None => g
          end
      | None => g
      end
  end.

(** The blocks after [destroyBlockAtPosition], from the raycast at its
    point with the current camera and blocks. *)
Definition blocksAfterDestroy (camera : Camera) (x y : Q) (bs : list (Block Number))
  : list (Block Number) :=
  match clickedBlockAt camera x y bs with
  | Some (clickedBlock, _) =>
      filter (fun block => negb (sameBlock block clickedBlock)) bs
  | None => bs
  end.


(** The position that [addBlockAtPosition] computes for a hit on the face
    [f] of [clickedBlock]:
    [clickedBlock.position.clone().add(normal.multiplyScalar(BLOCK_SIZE))],
    in doubles. *)
Definition placementPosition (clickedBlock : Block Number) (f : Face)
  : Vector3 Number :=
  let normal := transformDirection env (faceNormal f) (mesh clickedBlock) in
  add64 (position clickedBlock) (multiplyScalar64 normal (ofZ BLOCK_SIZE)).

(** [addBlockAtPosition].  [None] is the TypeError of
    [inventory[selectedBlockIndex].count] on an index outside the array. *)
Definition addBlockAtPosition (x y : Q) (g : Game) : option Game :=
  match cameraRef (player g) with
  | None => Some g
  | Some camera =>
      match nth_error (inventory g) (selectedBlockIndex g) with
      | None => None
      | Some slot =>
          if count slot <=? 0 then Some g
          else
            match clickedBlockAt camera x y (blocks (world g)) with
            | None => Some g
            | Some (clickedBlock, hit) =>
                match face hit with
                | None => Some g
                | Some f =>
                    let normal :=
                      transformDirection env (faceNormal f) (mesh clickedBlock) in
                    let newPosition :=
                      add64 (position clickedBlock)
                            (multiplyScalar64 normal (ofZ BLOCK_SIZE)) in
                    let blockExists :=
                      existsb (fun block => sameCoordinates (position block) newPosition)
                              (blocks (world g)) in
                    if blockExists then Some g
                    else
                      let selectedBlockType := slotType slot in
                      let w := snd (createBlock newPosition selectedBlockType (world g)) in
                      let g := setWorld g w in
                      if count slot >? 0
                      then Some (setInventory
                                   g (decrementCount (selectedBlockIndex g) (inventory g)))
                      else Some g
                end
            end
      end
  end.

(** [handleBlockSelection(event)] with the state and the point of the
    event. *)
Definition handleBlockSelection (state : Z) (x y : Q) (g : Game) : option Game :=
  match cameraRef (player g) with
  | None => Some g
  | Some _ =>
      if state =? STATE_END then
        match nth_error (inventory g) (selectedBlockIndex g) with
        | None => None
        | Some slot =>
            if count slot >? 0 then addBlockAtPosition x y g
            else Some (highlightBlockAtPosition x y g)
        end
      else Some (highlightBlockAtPosition x y g)
  end.

Definition startDestructionProgress (x y : Q) (g : Game) : Game :=
  let g := setDestruction g true AtRest in
  let g := highlightBlockAtPosition x y g in
  setDestruction g (isDestructionInProgress g) (Timing 0 x y).

Definition cancelDestructionProgress (g : Game) : Game :=
  if isDestructionInProgress g then setDestruction g false Fading else g.

(** [ms] milliseconds on the clock of the animation of
    [destructionProgress]: the animation to 1 that reaches its duration
    calls [destroyBlockAtPosition] at the point where it was started. *)
Definition elapse (ms : nat) (g : Game) : Game :=
  match destructionProgress g with
  | Timing elapsed x y =>
      if (DESTRUCTION_DURATION <=? elapsed + ms)%nat
      then destroyBlockAtPosition x y
             (setDestruction g (isDestructionInProgress g) Complete)
      else setDestruction g (isDestructionInProgress g) (Timing (elapsed + ms) x y)
  | Fading => setDestruction g (isDestructionInProgress g) AtRest
  | AtRest | Complete => g
  end.

Definition selectBlockFromInventory (index : nat) (g : Game) : option Game :=
  match nth_error (inventory g) index with
  | None => None
  | Some _ => Some (setSelectedBlockIndex g index)
  end.

Definition handleCameraPan (x y : R) (g : Game) : Game :=
  if isPanning g then
    let p := player g in
    let m := moveState p in
    setPlayer g
      (mkPlayer (cameraRef p) (eulerRef p) (playerVelocity p) (playerOnGround p)
         (mkMoveState (forward m) (backward m) (left m) (right m)
                      (x * 0.05 * 0.01)%R (y * 0.05 * 0.01)%R (jump m)))
  else g.

Definition stopCameraPan (g : Game) : Game :=
  let g := setIsPanning g false in
  let p := player g in
  let m := moveState p in
  setPlayer g
    (mkPlayer (cameraRef p) (eulerRef p) (playerVelocity p) (playerOnGround p)
       (mkMoveState (forward m) (backward m) (left m) (right m) 0%R 0%R (jump m))).

(** [onContextCreate]: the camera is created above the terrain and the
    terrain is generated.  [generateTerrain] pushes its blocks on the array
    and reads nothing of what the array holds ([generateTerrain_pushes]), so
    the blocks it pushes are those it pushes on an empty array, from the
    same mesh counter and random generator; they follow the blocks of the
    array with their coordinates as doubles. *)
Definition onContextCreate (g : Game) : Game :=
  let p := player g in
  let camera :=
    mkCamera (V3 (IZR WORLD_SIZE / 2) 5 (IZR WORLD_SIZE / 2))%R (mkEuler 0%R 0%R) in
  let g :=
    setPlayer g (mkPlayer (Some camera) (eulerRef p) (playerVelocity p)
                          (playerOnGround p) (moveState p)) in
  let w := world g in
  let terrain :=
    generateTerrain (mathSin env) (mkWorld [] (nextMesh w) (rng w)) in
  setWorld g (mkWorld (blocks w ++ map jsBlock (blocks terrain))
                      (nextMesh terrain) (rng terrain)).

(** What reaches the program: the callbacks of the gestures, the frames of
    the render loop and the clock of the animation. *)
Inductive Event :=
| Tap (state : Z) (x y : Q)
| LongPressBegin (state : Z) (x y : Q)
| LongPressStart (x y : Q)
| LongPressEnd (state : Z) (x y : Q)
| LongPressFinalize
| Elapse (ms : nat)
| AnimationFrame
| JumpButton (value : bool)
| MovementJoystick (x y : R)
| JoystickRelease
| PanStart
| PanUpdate (velocityX velocityY : R)
| PanEnd
| SelectBlock (index : nat)
| ContextCreate.

Definition step (g : Game) (e : Event) : option Game :=
  match e with
  | Tap state x y => handleBlockSelection state x y g
  | LongPressBegin state x y => handleBlockSelection state x y g
  | LongPressStart x y => Some (startDestructionProgress x y g)
  | LongPressEnd state x y =>
      if state =? STATE_END
      then Some (destroyBlockAtPosition x y g)
      else Some (cancelDestructionProgress g)
  | LongPressFinalize => Some (cancelDestructionProgress g)
  | Elapse ms => Some (elapse ms g)
  | AnimationFrame =>
      Some (setPlayer g (updatePlayerPosition env (blocks (world g)) (player g)))
  | JumpButton value => Some (setPlayer g (handleJump value (player g)))
  | MovementJoystick x y => Some (setPlayer g (handleMovementJoystick x y (player g)))
  | JoystickRelease => Some (setPlayer g (handleJoystickRelease (player g)))
  | PanStart => Some (setIsPanning g true)
  | PanUpdate velocityX velocityY => Some (handleCameraPan velocityX velocityY g)
  | PanEnd => Some (stopCameraPan g)
  | SelectBlock index => selectBlockFromInventory index g
  | ContextCreate => Some (onContextCreate g)
  end.

(** A sequence of events; an uncaught error ends it. *)
Fixpoint run (events : list Event) (g : Game) : option Game :=
  match events with
  | [] => Some g
  | e :: rest =>
      match step g e with
      | Some g' => run rest g'
      | None => None
      end
  end.

End Interaction.

(** The velocity that gravity and jumps write. *)
Definition velocity (g : Game) : R := vy (playerVelocity (player g)).

(** The mesh identities of the array are pairwise distinct. *)
Definition uniqueMeshes {A} (bs : list (Block A)) : Prop :=
  NoDup (map (fun b => meshId (mesh b)) bs).

(** Every mesh of the array was created before the counter's value. *)
Definition meshesBelow {A} (w : World A) : Prop :=
  forall b, In b (blocks w) -> (meshId (mesh b) < nextMesh w)%nat.

Definition nonNegative (inv : list Slot) : Prop :=
  Forall (fun s => 0 <= count s) inv.

(** A hash that is 0 everywhere and a generator that always draws 0.5, for
    the examples. *)
Definition zeroSine (_ : Q) : Q := 0%Q.
Definition halfDraws : Rng := mkRng (fun _ => 0.5%Q) 0.

(** [Math.cos] and [Math.sin] at the half angles of the four rotations of a
    mesh, [0], [Math.PI / 4], [Math.PI / 2] and [3 * Math.PI / 4] as
    doubles: exact at 0, the nearest doubles elsewhere. *)
Definition exampleCos (x : Number) : Number :=
  (if x =? 0 then 1
   else if x =? 0x1.921fb54442d18p-1 then 0x1.6a09e667f3bcdp-1
   else if x =? 0x1.921fb54442d18p+0 then 0x1.1a62633145c07p-54
   else if x =? 0x1.2d97c7f3321d2p+1 then - 0x1.6a09e667f3bccp-1
   else 0)%float.

Definition exampleSin (x : Number) : Number :=
  (if x =? 0 then 0
   else if x =? 0x1.921fb54442d18p-1 then 0x1.6a09e667f3bccp-1
   else if x =? 0x1.921fb54442d18p+0 then 1
   else if x =? 0x1.2d97c7f3321d2p+1 then 0x1.6a09e667f3bcdp-1
   else 0)%float.

(** A scene for the examples: a 400 x 800 window, unit boxes around the
    blocks, a camera that does not turn, a ground ray that meets nothing and
    a pointer ray that meets the face [f] of the first mesh of the array. *)
Definition exampleEnvAt (f : Face) : Env :=
  mkEnv (fun v _ => v)
        (fun b =>
           setFromCenterAndSize
             (V3 (toR (vx (position b))) (toR (vy (position b))) (toR (vz (position b))))
             (V3 1 1 1)%R)
        (fun _ _ _ _ _ => false)
        (fun _ _ _ meshes =>
           match meshes with
           | m :: _ => [mkIntersection m (Some f)]
           | [] => []
           end)
        400 800 zeroSine exampleCos exampleSin.

(** The pointer ray meets the top face. *)
Definition exampleEnv : Env := exampleEnvAt PY.

Definition exampleCamera : Camera :=
  mkCamera (V3 0 5 0)%R (mkEuler 0%R 0%R).

Definition examplePlayer (onGround : bool) : Player :=
  mkPlayer (Some exampleCamera) (mkEuler 0%R 0%R) (V3 0 0 0)%R onGround
           initialMoveState.

(** A game with the camera in place and the given blocks. *)
Definition exampleGame (bs : list (Block Number)) : Game :=
  mkGame (examplePlayer false)
         (mkWorld bs (List.length bs) halfDraws)
         None initialInventory 0 false AtRest false.

(** A block at integer coordinates whose mesh is turned by [turns] quarter
    turns, and one whose mesh is not turned. *)
Definition turnedBlock (id : nat) (x y z : Z) (t : BlockType) (turns : Z)
  : Block Number :=
  mkBlock (toNumbers (V3 x y z)) t (mkMesh id (toNumbers (V3 x y z)) turns).

Definition exampleBlock (id : nat) (x y z : Z) (t : BlockType) : Block Number :=
  turnedBlock id x y z t 0.

(** What the engine returns at the half angles of the four rotations. *)
Definition quarterTurnTrig (env : Env) : Prop :=
  (mathCos64 env 0 = 1 /\ mathSin64 env 0 = 0
   /\ mathCos64 env 0x1.921fb54442d18p-1 = 0x1.6a09e667f3bcdp-1
   /\ mathSin64 env 0x1.921fb54442d18p-1 = 0x1.6a09e667f3bccp-1
   /\ mathCos64 env 0x1.921fb54442d18p+0 = 0x1.1a62633145c07p-54
   /\ mathSin64 env 0x1.921fb54442d18p+0 = 1
   /\ mathCos64 env 0x1.2d97c7f3321d2p+1 = - 0x1.6a09e667f3bccp-1
   /\ mathSin64 env 0x1.2d97c7f3321d2p+1 = 0x1.6a09e667f3bcdp-1)%float.

(** The taps of a sequence of placement attempts at the given points. *)
Definition placementAttempts (points : list (Q * Q)) : list Event :=
  map (fun p => Tap STATE_END (fst p) (snd p)) points.

Definition wellFormed {A} (w : World A) : Prop :=
  meshesBelow w /\ uniqueMeshes (blocks w).

(** The world normal of the face [f] of a mesh turned by [turns] quarter
    turns, as the arithmetic of three.js gives it from the values of
    [quarterTurnTrig]: the axis vector for a mesh that is not turned and for
    the faces +Y and -Y, and off the axis by [2^-52] (quarter turns) or by
    [Math.sin(Math.PI)] (half turn) for the side faces of a turned mesh. *)
Definition worldNormal (turns : Z) (f : Face) : Vector3 Number :=
  (match turns, f with
   | 1%Z, PX => V3 0x1p-52 0 (-1)
   | 1%Z, NX => V3 (-0x1p-52) 0 1
   | 1%Z, PZ => V3 1 0 0x1p-52
   | 1%Z, NZ => V3 (-1) 0 (-0x1p-52)
   | 2%Z, PX => V3 (-1) 0 (-0x1.1a62633145c07p-53)
   | 2%Z, NX => V3 1 0 0x1.1a62633145c07p-53
   | 2%Z, NY => V3 0 (-1) (-0)
   | 2%Z, PZ => V3 0x1.1a62633145c07p-53 0 (-1)
   | 2%Z, NZ => V3 (-0x1.1a62633145c07p-53) 0 1
   | 3%Z, PX => V3 (-0x1p-52) 0 1
   | 3%Z, NX => V3 0x1p-52 0 (-1)
   | 3%Z, NY => V3 (-0) (-1) 0
   | 3%Z, PZ => V3 (-1) 0 (-0x1p-52)
   | 3%Z, NZ => V3 1 0 0x1p-52
   | _, _ => faceNormal f
   end)%float.

(** ** Further definitions: draws, ground cells, the joystick *)

(** [Math.random] returns values in [0, 1). *)
Definition unitDraws (r : Rng) : Prop :=
  forall n, (0 <= draws r n)%Q /\ (draws r n < 1)%Q.

(** The cells that are not part of a tree. *)
Definition isGround (c : Cell * BlockType) : bool :=
  match snd c with
  | wood | leaves => false
  | _ => true
  end.

(** The items of an inventory, all slots together. *)
Definition totalCount (inv : list Slot) : Z :=
  fold_right (fun s acc => count s + acc) 0 inv.

(** The player collider of [updatePlayerPosition] for a candidate position:
    [setFromCenterAndSize((x, y - PLAYER_HEIGHT / 2, z),
    (PLAYER_WIDTH, PLAYER_HEIGHT, PLAYER_WIDTH))]. *)
Definition colliderAt (pos : Vec) : Box3 :=
  setFromCenterAndSize
    (V3 (vx pos) (vy pos - PLAYER_HEIGHT / 2)%R (vz pos))
    (V3 PLAYER_WIDTH PLAYER_HEIGHT PLAYER_WIDTH).

(** The locals of the collision loop after a landing on a block at
    [level]. *)
Definition landedAt (level : Z) (c : Collision) : Prop :=
  newY c = (IZR level + IZR BLOCK_SIZE + PLAYER_HEIGHT / 2)%R
  /\ velocityY c = 0%R /\ onGround c = true.

(** [inv'] has the slots of [inv], in the same order and with the same
    types, and no count is higher. *)
Definition shrinks (inv inv' : list Slot) : Prop :=
  Forall2 (fun s s' => slotType s' = slotType s /\ count s' <= count s) inv inv'.

(** The highlighted block, when there is one, is a block of the array. *)
Definition highlightInWorld (g : Game) : Prop :=
  match highlightedBlockRef g with
  | Some h => In h (blocks (world g))
  | None => True
  end.

(** The animation to 1 only runs while [isDestructionInProgress] is set. *)
Definition sessionConsistent (g : Game) : Prop :=
  match destructionProgress g with
  | Timing _ _ _ => isDestructionInProgress g = true
  | _ => True
  end.

(** The animation to 1 is under way. *)
Definition isTiming (g : Game) : bool :=
  match destructionProgress g with
  | Timing _ _ _ => true
  | _ => false
  end.

(** The events of a HUD with the six inventory cells: a cell is selected by
    its index in the inventory. *)
Definition fromHud (e : Event) : Prop :=
  match e with
  | SelectBlock index => (index < List.length initialInventory)%nat
  | _ => True
  end.

(** The leaves of a tree on the column [(x, z)] with the ground at
    [baseHeight]. *)
Definition leafOf (x z baseHeight : Z) (c : Cell * BlockType) : Prop :=
  snd c = leaves
  /\ x - 2 <= vx (fst c) <= x + 2
  /\ z - 2 <= vz (fst c) <= z + 2
  /\ baseHeight + 2 <= vy (fst c) <= baseHeight + 6.

(** The cells above the 10 x 10 footprint of the world. *)
Definition inFootprint (c : Cell * BlockType) : Prop :=
  0 <= vx (fst c) < WORLD_SIZE /\ 0 <= vz (fst c) < WORLD_SIZE.

(** ** components/Joystick.tsx *)

Section Joystick.

(** [Math.atan2] *)
Variable Math_atan2 : R -> R -> R.

(** The [onUpdate] callback of the pan gesture: the knob offset, kept within
    [maxDistance] of the centre, and the values passed to [onMove]. *)
Definition onUpdate (size eventX eventY : R) : R * R :=
  let maxDistance := (size / 3)%R in
  let translationX := (eventX - size / 2)%R in
  let translationY := (eventY - size / 2)%R in
  let distance :=
    sqrt (translationX * translationX + translationY * translationY)%R in
  let (translateX, translateY) :=
    if Rgt_dec distance maxDistance then
      let angle := Math_atan2 translationY translationX in
      ((cos angle * maxDistance)%R, (sin angle * maxDistance)%R)
    else (translationX, translationY) in
  ((translateX / maxDistance)%R, (translateY / maxDistance)%R).

(** The joystick of the application: [onMove={handleMovementJoystick}]. *)
Definition joystickMove (size eventX eventY : R) (p : Player) : Player :=
  let (xValue, yValue) := onUpdate size eventX eventY in
  handleMovementJoystick xValue yValue p.

End Joystick.
(** * Properties *)

Lemma BlockType_eqb_eq a b : BlockType_eqb a b = true <-> a = b.
Proof. destruct a, b; simpl; split; intro H; try reflexivity; discriminate. Qed.


Lemma createBlock_blocks {A} (pos : Vector3 A) t w :
  blocks (snd (createBlock pos t w)) =
  blocks w ++ [mkBlock pos t (fst (createBlock pos t w))].
Proof.
  unfold createBlock.
  destruct t; simpl;
    repeat match goal with |- context [let (_, _) := ?e in _] => destruct e end;
    reflexivity.
Qed.

Lemma content_createBlock pos t w :
  content (snd (createBlock pos t w)) = content w ++ [(pos, t)].
Proof.
  unfold content. rewrite createBlock_blocks, map_app. reflexivity.
Qed.

Lemma content_fold_createBlock (pos : Z -> Cell) (ty : Z -> BlockType) l :
  forall w,
    content (fold_left (fun w y => snd (createBlock (pos y) (ty y) w)) l w) =
    content w ++ map (fun y => (pos y, ty y)) l.
Proof.
  induction l as [|y l IH]; intros w; simpl.
  - now rewrite app_nil_r.
  - rewrite IH, content_createBlock, <- app_assoc. reflexivity.
Qed.

Lemma grows_refl P w w' : content w' = content w -> grows P w w'.
Proof. intros E. exists []. rewrite app_nil_r. split; [exact E | constructor]. Qed.

Lemma grows_trans P w1 w2 w3 : grows P w1 w2 -> grows P w2 w3 -> grows P w1 w3.
Proof.
  intros (c1 & E1 & F1) (c2 & E2 & F2). exists (c1 ++ c2). split.
  - rewrite E2, E1, app_assoc. reflexivity.
  - apply Forall_app; split; assumption.
Qed.

Lemma grows_createBlock (P : Cell * BlockType -> Prop) pos t w :
  P (pos, t) -> grows P w (snd (createBlock pos t w)).
Proof.
  intros H. exists [(pos, t)]. split; [apply content_createBlock | repeat constructor; exact H].
Qed.

Lemma grows_fold {A} P (step : World Z -> A -> World Z) :
  (forall w a, grows P w (step w a)) ->
  forall l w, grows P w (fold_left step l w).
Proof.
  intros Hstep l; induction l as [|a l IH]; intros w; simpl.
  - apply grows_refl; reflexivity.
  - eapply grows_trans; [apply Hstep | apply IH].
Qed.

Lemma grows_weaken (P Q : Cell * BlockType -> Prop) w w' :
  (forall c, P c -> Q c) -> grows P w w' -> grows Q w w'.
Proof.
  intros HPQ (c & E & F). exists c. split; [exact E|].
  eapply Forall_impl; [exact HPQ | exact F].
Qed.

Section TerrainFacts.

Variable Math_sin : Q -> Q.

Lemma topBlockType_cases x z : topBlockType Math_sin x z = grass \/ topBlockType Math_sin x z = stone.
Proof.
  unfold topBlockType.
  destruct (_ && _); [right | left]; reflexivity.
Qed.

Lemma leafCell_grows x z bh ls lr y lx w lz :
  grows isTreeCell w (leafCell x z bh ls lr y lx w lz).
Proof.
  unfold leafCell.
  destruct (_ >? _); [apply grows_refl; reflexivity|].
  destruct (random (rng w)) as [p r].
  destruct (Qgtb p 0.8); [apply grows_refl; reflexivity|].
  eapply grows_trans; [|apply grows_createBlock; right; reflexivity].
  apply grows_refl; reflexivity.
Qed.

Lemma generateTree_grows x z bh w : grows isTreeCell w (generateTree x z bh w).
Proof.
  unfold generateTree.
  destruct (random (rng w)) as [t r].
  set (w1 := fold_left _ _ _).
  assert (G1 : grows isTreeCell w w1).
  { eapply grows_trans; [apply grows_refl with (w' := mkWorld (blocks w) (nextMesh w) r);
                         reflexivity|].
    apply grows_fold. intros w' y. apply grows_createBlock. left; reflexivity. }
  clearbody w1.
  destruct (random (rng w1)) as [a r1]. destruct (random r1) as [b r2].
  eapply grows_trans; [exact G1|].
  eapply grows_trans;
    [apply grows_refl with (w' := mkWorld (blocks w1) (nextMesh w1) r2); reflexivity|].
  apply grows_fold. intros w' y. unfold leafLayer.
  apply grows_fold. intros w'' lx. apply grows_fold. intros w3 lz.
  apply leafCell_grows.
Qed.

(** A column pushes its ground cells, then the cells of its tree if it
    grows one. *)
Lemma generateColumn_content x w z :
  exists trees,
    content (generateColumn Math_sin x w z) = content w ++ columnCells Math_sin x z ++ trees
    /\ Forall isTreeCell trees.
Proof.
  unfold generateColumn, BLOCK_SIZE. rewrite !Z.mul_1_r.
  set (w4 := snd (createBlock (V3 x bedrockLevel z) bedrock _)).
  assert (E4 : content w4 = content w ++ columnCells Math_sin x z).
  { unfold w4. rewrite content_createBlock.
    rewrite (content_fold_createBlock
               (fun y => V3 x (height Math_sin x z - y) z)
               (fun y => if Qgtb (noise3D Math_sin x y z) 0.9 then dirt else stone)).
    rewrite (content_fold_createBlock
               (fun y => V3 x (height Math_sin x z - y) z) (fun _ => dirt)).
    rewrite content_createBlock. unfold columnCells, fillCells.
  cbn [app]. rewrite <- !app_assoc. cbn [app]. reflexivity. }
  clearbody w4.
  match goal with
  | |- exists trees, content ?t = _ /\ _ => assert (G : grows isTreeCell w4 t)
  end.
  { destruct (_ && _); [|apply grows_refl; reflexivity].
    destruct (random (rng w4)) as [p r].
    destruct (Qltb p 0.05); [|apply grows_refl; reflexivity].
    eapply grows_trans; [|apply generateTree_grows]. apply grows_refl; reflexivity. }
  destruct G as (trees & E & F). exists trees. split; [|exact F].
  rewrite E, E4, <- app_assoc. reflexivity.
Qed.

End TerrainFacts.

Lemma built_filter {A C} (G : A -> list C) T (f : C -> bool) l cells :
  (forall c, T c -> f c = false) ->
  built G T l cells ->
  filter f cells = flat_map (fun a => filter f (G a)) l.
Proof.
  intros HT B. induction B as [|a l extra rest F B IH]; [reflexivity|].
  simpl. rewrite !filter_app, IH.
  replace (filter f extra) with (@nil C); [reflexivity|].
  clear -HT F. induction F as [|c extra Hc F IH]; [reflexivity|].
  simpl. rewrite (HT c Hc). exact IH.
Qed.

Lemma built_incl {A C} (G : A -> list C) T l cells a :
  built G T l cells -> In a l -> incl (G a) cells.
Proof.
  intros B. induction B as [|a' l extra rest F B IH]; intros Hin c Hc.
  - destruct Hin.
  - destruct Hin as [->|Hin].
    + apply in_or_app. left; exact Hc.
    + apply in_or_app. right. apply in_or_app. right. apply IH; assumption.
Qed.

Lemma built_inv {A C} (G : A -> list C) (T : C -> Prop) l cells c :
  built G T l cells -> In c cells -> (exists a, In a l /\ In c (G a)) \/ T c.
Proof.
  intros B. induction B as [|a l extra rest F B IH]; intros Hc.
  - destruct Hc.
  - apply in_app_or in Hc. destruct Hc as [Hc|Hc].
    + left. exists a. split; [left; reflexivity | exact Hc].
    + apply in_app_or in Hc. destruct Hc as [Hc|Hc].
      * right. rewrite Forall_forall in F. apply F; exact Hc.
      * destruct (IH Hc) as [(a' & Ha' & Hc')|Ht]; [left | right; exact Ht].
        exists a'. split; [right; exact Ha' | exact Hc'].
Qed.

Lemma fold_left_built {A} (G : A -> list (Cell * BlockType)) T
      (step : World Z -> A -> World Z) :
  (forall w a, exists extra,
      content (step w a) = content w ++ G a ++ extra /\ Forall T extra) ->
  forall l w, exists cells,
      content (fold_left step l w) = content w ++ cells /\ built G T l cells.
Proof.
  intros Hstep l. induction l as [|a l IH]; intros w; simpl.
  - exists []. rewrite app_nil_r. split; [reflexivity | constructor].
  - destruct (Hstep w a) as (extra & E & F).
    destruct (IH (step w a)) as (rest & E' & B).
    exists (G a ++ extra ++ rest). split.
    + rewrite E', E, <- !app_assoc. reflexivity.
    + constructor; assumption.
Qed.

Lemma fold_left_nested {S A B} (f : A -> S -> B -> S) (zs : list B) :
  forall (xs : list A) (s : S),
    fold_left (fun s x => fold_left (f x) zs s) xs s =
    fold_left (fun s p => f (fst p) s (snd p)) (list_prod xs zs) s.
Proof.
  induction xs as [|x xs IH]; intros s; simpl; [reflexivity|].
  rewrite fold_left_app, <- IH. f_equal.
  generalize s. clear. induction zs as [|z zs IHz]; intros s; simpl; [reflexivity|].
  apply IHz.
Qed.

Lemma in_columns x z :
  0 <= x < WORLD_SIZE -> 0 <= z < WORLD_SIZE -> In (x, z) columns.
Proof.
  intros Hx Hz. unfold columns. apply in_prod_iff.
  assert (R : forall k, 0 <= k < WORLD_SIZE -> In k (zrange 0 (WORLD_SIZE - 1))).
  { intros k Hk. unfold zrange. apply in_map_iff. exists (Z.to_nat k). split.
    - lia.
    - apply in_seq. unfold WORLD_SIZE in *. lia. }
  split; apply R; assumption.
Qed.

Lemma in_zrange k lo hi : In k (zrange lo hi) <-> lo <= k <= hi.
Proof.
  unfold zrange. rewrite in_map_iff. split.
  - intros (n & <- & Hn). apply in_seq in Hn. lia.
  - intros H. exists (Z.to_nat (k - lo)). split; [lia|]. apply in_seq. lia.
Qed.

Section TerrainWhole.

Variable Math_sin : Q -> Q.

Lemma generateTerrain_built w :
  exists cells,
    content (generateTerrain Math_sin w) = content w ++ cells
    /\ built (fun p => columnCells Math_sin (fst p) (snd p)) isTreeCell columns cells.
Proof.
  unfold generateTerrain. rewrite fold_left_nested.
  apply fold_left_built. intros w' [x z]. cbn [fst snd].
  apply generateColumn_content.
Qed.

(** Every cell of the terrain is a ground cell of one of the columns or a
    tree cell. *)
Lemma generateTerrain_cells r c :
  In c (content (generateTerrain Math_sin (emptyWorld r))) ->
  (exists x z, 0 <= x < WORLD_SIZE /\ 0 <= z < WORLD_SIZE
               /\ In c (columnCells Math_sin x z))
  \/ isTreeCell c.
Proof.
  destruct (generateTerrain_built (emptyWorld r)) as (cells & E & B).
  rewrite E. cbn [content emptyWorld blocks map app]. intros Hc.
  destruct (built_inv _ _ _ _ _ B Hc) as [([x z] & Hin & Hc')|Ht]; [left | right; exact Ht].
  exists x, z. unfold columns in Hin. apply in_prod_iff in Hin.
  rewrite !in_zrange in Hin. unfold WORLD_SIZE in *. cbn [fst snd] in Hc'.
  repeat split; try lia. exact Hc'.
Qed.

Lemma generateTerrain_has_column w x z c :
  0 <= x < WORLD_SIZE -> 0 <= z < WORLD_SIZE ->
  In c (columnCells Math_sin x z) ->
  In c (content (generateTerrain Math_sin w)).
Proof.
  intros Hx Hz Hc.
  destruct (generateTerrain_built w) as (cells & E & B).
  rewrite E. apply in_or_app. right.
  exact (built_incl _ _ _ _ (x, z) B (in_columns x z Hx Hz) c Hc).
Qed.

End TerrainWhole.

(** ** The range of the coordinate hash *)

Section NoiseRange.

Variable Math_sin : Q -> Q.
Hypothesis Math_sin_range : forall t, (-1 <= Math_sin t <= 1)%Q.

Lemma noise_range x z scale amplitude :
  (0 <= amplitude)%Q ->
  (-0.5 * amplitude <= noise Math_sin x z scale amplitude
   /\ noise Math_sin x z scale amplitude <= 1.5 * amplitude)%Q.
Proof.
  intros Ha. unfold noise.
  match goal with
  | |- context [((Math_sin ?a + Math_sin ?b) * _ + _)%Q] =>
      pose proof (Math_sin_range a); pose proof (Math_sin_range b);
      generalize dependent (Math_sin a); generalize dependent (Math_sin b)
  end.
  intros s2 H2 s1 H1. split; nra.
Qed.

Lemma height_range x z : -6 <= height Math_sin x z <= 8.
Proof.
  unfold height, baseHeight.
  destruct (noise_range x z 0.1 4) as [A1 A2]; [lra|].
  destruct (noise_range x z 0.2 2) as [B1 B2]; [lra|].
  destruct (noise_range x z 0.5 1) as [C1 C2]; [lra|].
  set (b := (noise Math_sin x z 0.1 4 + noise Math_sin x z 0.2 2
             + noise Math_sin x z 0.5 1)%Q) in *.
  assert (L : (-3.5 <= b)%Q) by (unfold b; lra).
  assert (U : (b <= 10.5)%Q) by (unfold b; lra).
  apply Qfloor_resp_le in L, U.
  change (Qfloor (-3.5)) with (-4) in L. change (Qfloor 10.5) with 10 in U.
  lia.
Qed.

Lemma dirtDepth_range x z : 1 <= dirtDepth Math_sin x z <= 5.
Proof.
  unfold dirtDepth. destruct (topBlockType Math_sin x z); try lia;
    destruct (noise_range x z 0.4 2) as [A1 A2]; try lra;
    apply Qfloor_resp_le in A1, A2;
    change (Qfloor (-0.5 * 2)) with (-1) in A1;
    change (Qfloor (1.5 * 2)) with 3 in A2; lia.
Qed.

End NoiseRange.

Lemma shared_position_not_unique (bs : list (Block Z)) b1 b2 :
  In b1 bs -> In b2 bs -> b1 <> b2 -> position b1 = position b2 ->
  ~ uniquePositions bs.
Proof.
  unfold uniquePositions. induction bs as [|b bs IH]; intros H1 H2 Hne Hp Hnd.
  - destruct H1.
  - simpl in Hnd. inversion Hnd as [|p ps Hnotin Hnd']; subst.
    destruct H1 as [->|H1], H2 as [->|H2].
    + apply Hne; reflexivity.
    + apply Hnotin. rewrite Hp. apply in_map; exact H2.
    + apply Hnotin. rewrite <- Hp. apply in_map; exact H1.
    + exact (IH H1 H2 Hne Hp Hnd').
Qed.

Lemma in_content_block w c :
  In c (content w) -> exists b, In b (blocks w) /\ position b = fst c /\ type b = snd c.
Proof.
  unfold content. rewrite in_map_iff. intros (b & <- & Hb).
  exists b. repeat split; assumption.
Qed.

Section TerrainCells.

Variable Math_sin : Q -> Q.

Lemma fillCells_not_bedrock x z c :
  In c (fillCells Math_sin x z) -> snd c <> bedrock.
Proof.
  unfold fillCells. intros [<-|H].
  - cbn [snd]. destruct (topBlockType_cases Math_sin x z) as [-> | ->]; discriminate.
  - apply in_app_or in H. destruct H as [H|H]; apply in_map_iff in H;
      destruct H as (y & <- & _); cbn [snd]; [discriminate|].
    destruct (Qgtb _ _); discriminate.
Qed.

Lemma fillCells_column x z c :
  In c (fillCells Math_sin x z) -> vx (fst c) = x /\ vz (fst c) = z.
Proof.
  unfold fillCells. intros [<-|H]; [split; reflexivity|].
  apply in_app_or in H. destruct H as [H|H]; apply in_map_iff in H;
    destruct H as (y & <- & _); split; reflexivity.
Qed.

(** The fill reaches the bedrock level: the loop that adds stone below the
    dirt runs to [Math.abs(bedrockLevel - height)] inclusive. *)
Lemma fillCells_reach_bedrockLevel x z :
  bedrockLevel <= height Math_sin x z ->
  exists t, In (V3 x bedrockLevel z, t) (fillCells Math_sin x z).
Proof.
  intros Hh. unfold fillCells. unfold bedrockLevel in *.
  set (h := height Math_sin x z) in *. set (d := dirtDepth Math_sin x z).
  destruct (Z.eq_dec h (-7)) as [E|NE].
  - exists (topBlockType Math_sin x z). left. rewrite E. reflexivity.
  - destruct (Z_le_gt_dec (h + 7) d) as [Hd|Hd].
    + exists dirt. right. apply in_or_app. left.
      apply in_map_iff. exists (h + 7). split.
      * f_equal. f_equal. lia.
      * apply in_zrange. lia.
    + exists (if Qgtb (noise3D Math_sin x (h + 7) z) 0.9 then dirt else stone).
      right. apply in_or_app. right.
      apply in_map_iff. exists (h + 7). split.
      * f_equal. f_equal. lia.
      * apply in_zrange. lia.
Qed.

Lemma fillCells_below_top x z c :
  1 <= dirtDepth Math_sin x z ->
  In c (fillCells Math_sin x z) -> vy (fst c) <= height Math_sin x z.
Proof.
  intros Hd. unfold fillCells. intros [<-|H]; [cbn [fst vy]; lia|].
  apply in_app_or in H. destruct H as [H|H]; apply in_map_iff in H;
    destruct H as (y & <- & Hy); apply in_zrange in Hy; cbn [fst vy]; lia.
Qed.

End TerrainCells.

(** ** The terrain scenario *)

Lemma filter_map_cellOf (f : Cell * BlockType -> bool) (g : Block Z -> bool)
      (bs : list (Block Z)) :
  (forall b, g b = f (cellOf b)) ->
  map cellOf (filter g bs) = filter f (map cellOf bs).
Proof.
  intros Hg. induction bs as [|b bs IH]; simpl; [reflexivity|].
  rewrite Hg. destruct (f (cellOf b)); simpl; rewrite IH; reflexivity.
Qed.

Lemma content_eq w : content w = map cellOf (blocks w).
Proof. reflexivity. Qed.

Lemma map_singleton {A B} (f : A -> B) (l : list A) (v : B) :
  map f l = [v] -> exists a, l = [a] /\ f a = v.
Proof.
  destruct l as [|a [|a' l]]; simpl; intros H; try discriminate.
  exists a. split; [reflexivity | congruence].
Qed.

Lemma filter_none {A} (f : A -> bool) (l : list A) :
  (forall a, In a l -> f a = false) -> filter f l = [].
Proof.
  induction l as [|a l IH]; intros H; simpl; [reflexivity|].
  rewrite (H a (or_introl eq_refl)). apply IH. intros a' Ha'. apply H. right; exact Ha'.
Qed.

Ltac enumerate_coordinate k :=
  let H := fresh in
  assert (H : k = 0 \/ k = 1 \/ k = 2 \/ k = 3 \/ k = 4 \/ k = 5 \/ k = 6
              \/ k = 7 \/ k = 8 \/ k = 9) by (unfold WORLD_SIZE in *; lia);
  repeat (destruct H as [H|H]; [subst k|]); [..|subst k].

Lemma one_bedrock_cell x z :
  0 <= x < WORLD_SIZE -> 0 <= z < WORLD_SIZE ->
  flat_map (fun p : Z * Z =>
              if (fst p =? x) && (snd p =? z)
              then [(V3 (fst p) bedrockLevel (snd p), bedrock)] else [])
           columns
  = [(V3 x bedrockLevel z, bedrock)].
Proof.
  intros Hx Hz. enumerate_coordinate x; enumerate_coordinate z; vm_compute; reflexivity.
Qed.

Section TerrainScenario.

Variable Math_sin : Q -> Q.
Variable r : Rng.

Lemma columnCells_bedrock x z x' z' :
  filter (bedrockCellIn x z) (columnCells Math_sin x' z') =
  if (x' =? x) && (z' =? z) then [(V3 x' bedrockLevel z', bedrock)] else [].
Proof.
  unfold columnCells. rewrite filter_app, filter_none.
  - cbn [filter]. unfold bedrockCellIn, isBedrock. cbn [fst snd vx vz BlockType_eqb andb].
    destruct (x' =? x), (z' =? z); reflexivity.
  - intros c Hc. unfold bedrockCellIn, isBedrock.
    pose proof (fillCells_not_bedrock Math_sin x' z' c Hc) as Hn.
    destruct (BlockType_eqb (snd c) bedrock) eqn:E; [|reflexivity].
    apply BlockType_eqb_eq in E. contradiction.
Qed.

Lemma terrain_bedrock_cells x z :
  0 <= x < WORLD_SIZE -> 0 <= z < WORLD_SIZE ->
  filter (bedrockCellIn x z) (content (generateTerrain Math_sin (emptyWorld r)))
  = [(V3 x bedrockLevel z, bedrock)].
Proof.
  intros Hx Hz.
  destruct (generateTerrain_built Math_sin (emptyWorld r)) as (cells & E & B).
  rewrite E. cbn [content emptyWorld blocks map app].
  assert (HT : forall c, isTreeCell c -> bedrockCellIn x z c = false).
  { intros c [Hc|Hc]; unfold bedrockCellIn, isBedrock; rewrite Hc; reflexivity. }
  rewrite (built_filter _ _ _ _ _ HT B).
  rewrite <- (one_bedrock_cell x z Hx Hz). apply flat_map_ext.
  intros [x' z']. cbn [fst snd]. apply columnCells_bedrock.
Qed.

(** C8.  In the generated 10 x 10 world every column [(x, z)] holds exactly
    one bedrock-typed block, at the bedrock level [y = -7], and holds the top
    block that [generateTerrain] puts at the column's height, of type grass
    or stone. *)
Theorem terrain_scenario x z :
  0 <= x < WORLD_SIZE -> 0 <= z < WORLD_SIZE ->
  (exists b,
      filter (bedrockInColumn x z) (blocks (generateTerrain Math_sin (emptyWorld r)))
      = [b]
      /\ type b = bedrock /\ position b = V3 x (-7) z)
  /\ (exists top,
         In top (blocks (generateTerrain Math_sin (emptyWorld r)))
         /\ position top = V3 x (height Math_sin x z) z
         /\ (type top = grass \/ type top = stone)).
Proof.
  intros Hx Hz. split.
  - pose proof (terrain_bedrock_cells x z Hx Hz) as H.
    rewrite content_eq in H.
    rewrite <- (filter_map_cellOf _ (bedrockInColumn x z)) in H
      by (intros b; reflexivity).
    apply map_singleton in H. destruct H as (b & Hb & Hc).
    exists b. split; [exact Hb|].
    unfold cellOf in Hc. injection Hc as Hp Ht. split; [exact Ht | exact Hp].
  - assert (Hin : In (V3 x (height Math_sin x z) z, topBlockType Math_sin x z)
                     (content (generateTerrain Math_sin (emptyWorld r)))).
    { apply generateTerrain_has_column with (x := x) (z := z); try assumption.
      unfold columnCells, fillCells. left. reflexivity. }
    apply in_content_block in Hin. destruct Hin as (top & Hin & Hp & Ht).
    exists top. split; [exact Hin|]. split; [exact Hp|].
    cbn [snd] in Ht. rewrite Ht. apply topBlockType_cases.
Qed.

(** Among the blocks of a column that are not part of a tree, none is above
    the top block, when the hash takes the values of a sine. *)
Lemma top_block_above_ground x z b :
  (forall t, -1 <= Math_sin t <= 1)%Q ->
  In b (blocks (generateTerrain Math_sin (emptyWorld r))) ->
  vx (position b) = x -> vz (position b) = z ->
  type b <> wood -> type b <> leaves ->
  vy (position b) <= height Math_sin x z.
Proof.
  intros Hsin Hin Hx Hz Hw Hl.
  assert (Hc : In (cellOf b) (content (generateTerrain Math_sin (emptyWorld r)))).
  { unfold content. apply in_map. exact Hin. }
  apply generateTerrain_cells in Hc.
  destruct Hc as [(x' & z' & Hx' & Hz' & Hc)|[Ht|Ht]]; try contradiction.
  unfold columnCells in Hc. apply in_app_or in Hc. destruct Hc as [Hc|[Hc|[]]].
  - destruct (fillCells_column _ _ _ _ Hc) as [Ex Ez]. cbn [fst cellOf] in Ex, Ez.
    rewrite Hx in Ex. rewrite Hz in Ez. subst x' z'.
    apply (fillCells_below_top Math_sin x z (cellOf b)); [|exact Hc].
    apply dirtDepth_range. exact Hsin.
  - unfold cellOf in Hc. injection Hc as Hp Ht.
    assert (Ex : x' = x) by (rewrite <- Hx, <- Hp; reflexivity).
    assert (Ez : z' = z) by (rewrite <- Hz, <- Hp; reflexivity).
    subst x' z'. rewrite <- Hp. cbn [vy]. unfold bedrockLevel.
    pose proof (height_range Math_sin Hsin x z). lia.
Qed.

(** C1.  The stone fill of a column runs down to the bedrock level and the
    bedrock block is then put at the same cell: after [generateTerrain],
    every column holds a block that is not bedrock and a bedrock block at
    [(x, -7, z)], so the array does not have unique positions. *)
Theorem generateTerrain_shares_bedrock_cell x z :
  (forall t, -1 <= Math_sin t <= 1)%Q ->
  0 <= x < WORLD_SIZE -> 0 <= z < WORLD_SIZE ->
  (exists b1 b2,
      In b1 (blocks (generateTerrain Math_sin (emptyWorld r)))
      /\ In b2 (blocks (generateTerrain Math_sin (emptyWorld r)))
      /\ type b1 <> bedrock /\ type b2 = bedrock
      /\ position b1 = V3 x (-7) z /\ position b2 = V3 x (-7) z)
  /\ ~ uniquePositions (blocks (generateTerrain Math_sin (emptyWorld r))).
Proof.
  intros Hsin Hx Hz.
  assert (Hh : bedrockLevel <= height Math_sin x z).
  { pose proof (height_range Math_sin Hsin x z). unfold bedrockLevel. lia. }
  destruct (fillCells_reach_bedrockLevel Math_sin x z Hh) as (t & Ht).
  pose proof (fillCells_not_bedrock _ _ _ _ Ht) as Hnb. cbn [snd] in Hnb.
  assert (H1 : In (V3 x bedrockLevel z, t)
                  (content (generateTerrain Math_sin (emptyWorld r)))).
  { apply generateTerrain_has_column with (x := x) (z := z); try assumption.
    unfold columnCells. apply in_or_app. left. exact Ht. }
  assert (H2 : In (V3 x bedrockLevel z, bedrock)
                  (content (generateTerrain Math_sin (emptyWorld r)))).
  { apply generateTerrain_has_column with (x := x) (z := z); try assumption.
    unfold columnCells. apply in_or_app. right. left. reflexivity. }
  apply in_content_block in H1, H2.
  destruct H1 as (b1 & I1 & P1 & T1). destruct H2 as (b2 & I2 & P2 & T2).
  cbn [fst snd] in P1, T1, P2, T2.
  assert (E : forall b1 b2 : Block Z, type b1 = t -> type b2 = bedrock -> b1 <> b2).
  { intros c1 c2 E1 E2 ->. rewrite E1 in E2. contradiction. }
  split.
  - exists b1, b2. unfold bedrockLevel in *. rewrite T1. repeat split; assumption.
  - apply (shared_position_not_unique _ b1 b2 I1 I2).
    + apply E; assumption.
    + rewrite P1, P2. reflexivity.
Qed.

End TerrainScenario.


(** The first column of the terrain for the hash that is 0 everywhere: the
    stone fill ends at [(0, -7, 0)], where the bedrock follows. *)
Example generateTerrain_first_column :
  map cellOf (firstn 10 (blocks (generateTerrain zeroSine (emptyWorld halfDraws))))
  = [(V3 0 1 0, grass); (V3 0 0 0, dirt); (V3 0 (-1) 0, dirt); (V3 0 (-2) 0, dirt);
     (V3 0 (-3) 0, stone); (V3 0 (-4) 0, stone); (V3 0 (-5) 0, stone);
     (V3 0 (-6) 0, stone); (V3 0 (-7) 0, stone); (V3 0 (-7) 0, bedrock)].
Proof. vm_compute. reflexivity. Qed.

Lemma terrain_scenario_witness :
  (exists b,
      filter (bedrockInColumn 0 0) (blocks (generateTerrain zeroSine (emptyWorld halfDraws)))
      = [b]
      /\ type b = bedrock /\ position b = V3 0 (-7) 0)
  /\ (exists top,
         In top (blocks (generateTerrain zeroSine (emptyWorld halfDraws)))
         /\ position top = V3 0 (height zeroSine 0 0) 0
         /\ (type top = grass \/ type top = stone)).
Proof.
  apply (terrain_scenario zeroSine halfDraws 0 0); unfold WORLD_SIZE; lia.
Defined.

Lemma zeroSine_range : forall t, (-1 <= zeroSine t <= 1)%Q.
Proof. intros t. unfold zeroSine. split; discriminate. Qed.

Lemma generateTerrain_shares_bedrock_cell_witness :
  (exists b1 b2,
      In b1 (blocks (generateTerrain zeroSine (emptyWorld halfDraws)))
      /\ In b2 (blocks (generateTerrain zeroSine (emptyWorld halfDraws)))
      /\ type b1 <> bedrock /\ type b2 = bedrock
      /\ position b1 = V3 0 (-7) 0 /\ position b2 = V3 0 (-7) 0)
  /\ ~ uniquePositions (blocks (generateTerrain zeroSine (emptyWorld halfDraws))).
Proof.
  apply (generateTerrain_shares_bedrock_cell zeroSine halfDraws 0 0 zeroSine_range);
    unfold WORLD_SIZE; lia.
Defined.

(** ** Movement: the horizontal vector of a frame *)

Lemma length_nonneg v : (0 <= length v)%R.
Proof. apply sqrt_pos. Qed.

Lemma length_multiplyScalar v s :
  (0 <= s)%R -> length (multiplyScalar v s) = (s * length v)%R.
Proof.
  intros Hs. unfold length, multiplyScalar. cbn [vx vy vz].
  replace (vx v * s * (vx v * s) + vy v * s * (vy v * s) + vz v * s * (vz v * s))%R
    with ((s * s) * (vx v * vx v + vy v * vy v + vz v * vz v))%R by ring.
  rewrite sqrt_mult; [| nra | nra].
  rewrite sqrt_square by exact Hs. reflexivity.
Qed.

Lemma length_normalize v : (0 < length v)%R -> length (normalize v) = 1%R.
Proof.
  intros Hl. unfold normalize.
  destruct (Req_dec_T (length v) 0) as [E|NE]; [lra|].
  rewrite length_multiplyScalar.
  - field. exact NE.
  - apply Rlt_le. apply Rdiv_lt_0_compat; lra.
Qed.

Lemma length_zero : length (V3 0 0 0)%R = 0%R.
Proof.
  unfold length. cbn [vx vy vz].
  replace (0 * 0 + 0 * 0 + 0 * 0)%R with 0%R by ring. apply sqrt_0.
Qed.

Lemma moveSpeed_nonneg : (0 <= moveSpeed)%R.
Proof. unfold moveSpeed. lra. Qed.

(** With the two horizontal unit vectors of the camera, orthogonal to each
    other, every combination of intents that does not cancel moves at
    exactly [moveSpeed]. *)
Lemma moveDirection_speed m fwd rgt :
  (vx fwd * vx fwd + vy fwd * vy fwd + vz fwd * vz fwd = 1)%R ->
  (vx rgt * vx rgt + vy rgt * vy rgt + vz rgt * vz rgt = 1)%R ->
  (vx fwd * vx rgt + vy fwd * vy rgt + vz fwd * vz rgt = 0)%R ->
  forward m <> backward m \/ left m <> right m ->
  length (moveDirection m fwd rgt) = moveSpeed.
Proof.
  intros Hf Hr Ho Hm. unfold moveDirection.
  match goal with |- context [Rgt_dec (length ?e) 0] => set (d := e) end.
  assert (Hd : (0 < length d)%R).
  { unfold d, length. apply sqrt_lt_R0.
    destruct (forward m), (backward m), (left m), (right m);
      cbn [add sub vx vy vz];
      try (exfalso; destruct Hm as [Hm|Hm]; apply Hm; reflexivity);
      nra. }
  destruct (Rgt_dec (length d) 0) as [_|Hn]; [|lra].
  rewrite length_multiplyScalar by apply moveSpeed_nonneg.
  rewrite length_normalize by exact Hd. ring.
Qed.

(** C7.  For every combination of the four intents the movement vector of
    a frame has length 0 or exactly [moveSpeed], which is 0.1, so it never
    exceeds the single-axis speed.  With no intent, or with intents that
    cancel in pairs, its length is 0; with the two horizontal unit vectors
    of the camera, orthogonal to each other, every other combination of
    intents (one axis or a diagonal) gives exactly 0.1. *)
Theorem moveDirection_length :
  forall (m : MoveState) (fwd rgt : Vec),
    moveSpeed = 0.1%R
    /\ (length (moveDirection m fwd rgt) = 0%R
        \/ length (moveDirection m fwd rgt) = moveSpeed)
    /\ (length (moveDirection m fwd rgt) <= moveSpeed)%R
    /\ (forall (f l : bool) rx ry j,
           length (moveDirection (mkMoveState f f l l rx ry j) fwd rgt) = 0%R)
    /\ ((vx fwd * vx fwd + vy fwd * vy fwd + vz fwd * vz fwd = 1)%R ->
        (vx rgt * vx rgt + vy rgt * vy rgt + vz rgt * vz rgt = 1)%R ->
        (vx fwd * vx rgt + vy fwd * vy rgt + vz fwd * vz rgt = 0)%R ->
        forward m <> backward m \/ left m <> right m ->
        length (moveDirection m fwd rgt) = 0.1%R).
Proof.
  intros m fwd rgt. split; [reflexivity|].
  assert (H : forall m', length (moveDirection m' fwd rgt) = 0%R
                         \/ length (moveDirection m' fwd rgt) = moveSpeed).
  { intros m'. unfold moveDirection.
    match goal with |- context [Rgt_dec (length ?e) 0] => set (d := e) end.
    destruct (Rgt_dec (length d) 0) as [Hd|Hd].
    - right. rewrite length_multiplyScalar by apply moveSpeed_nonneg.
      rewrite length_normalize by exact Hd. ring.
    - left. pose proof (length_nonneg d). lra. }
  split; [apply H|]. split; [|split].
  - destruct (H m) as [-> | ->]; [apply moveSpeed_nonneg | lra].
  - intros f l rx ry j. unfold moveDirection. cbn [forward backward left right].
    match goal with |- context [Rgt_dec (length ?e) 0] => set (d := e) end.
    assert (Hz : length d = 0%R).
    { unfold d, length. destruct f, l; cbn [add sub vx vy vz];
        match goal with |- sqrt ?e = _ => replace e with 0%R by ring end;
        apply sqrt_0. }
    destruct (Rgt_dec (length d) 0) as [Hd|Hd]; [lra | exact Hz].
  - intros Hf Hr Ho Hm. exact (moveDirection_speed m fwd rgt Hf Hr Ho Hm).
Qed.

(** ** Gravity and jumps *)

Section PhysicsFacts.

Variable env : Env.



Lemma collideBlock_bound camera collider c block :
  (velocityY c <= JUMP_FORCE)%R ->
  (velocityY (collideBlock env camera collider c block) <= JUMP_FORCE)%R.
Proof.
  intros H. unfold collideBlock.
  destruct (intersectsBox _ _);
    [destruct (_ && _)|];
    destruct (rayIntersectsMesh _ _ _ _ _ _); cbn [velocityY];
    try exact H; unfold JUMP_FORCE; lra.
Qed.

Lemma collisions_bound camera collider blocks :
  forall c,
    (velocityY c <= JUMP_FORCE)%R ->
    (velocityY (fold_left (collideBlock env camera collider) blocks c) <= JUMP_FORCE)%R.
Proof.
  induction blocks as [|b bs IH]; intros c H; cbn [fold_left].
  - exact H.
  - apply IH. apply collideBlock_bound. exact H.
Qed.



(** While the velocity is positive no block is landed on. *)
Lemma collideBlock_rising camera collider c block :
  (0 < velocityY c)%R ->
  velocityY (collideBlock env camera collider c block) = velocityY c.
Proof.
  intros H. unfold collideBlock.
  assert (E : Rleb (velocityY c) 0 = false).
  { unfold Rleb. destruct (Rle_dec (velocityY c) 0); [lra | reflexivity]. }
  rewrite E. cbn [andb].
  destruct (intersectsBox _ _); destruct (rayIntersectsMesh _ _ _ _ _ _);
    reflexivity.
Qed.

Lemma collisions_rising camera collider blocks :
  forall c,
    (0 < velocityY c)%R ->
    velocityY (fold_left (collideBlock env camera collider) blocks c) = velocityY c.
Proof.
  induction blocks as [|b bs IH]; intros c H; cbn [fold_left]; [reflexivity|].
  rewrite IH; rewrite collideBlock_rising by exact H; [reflexivity | exact H].
Qed.

(** A frame with the jump intent on the ground leaves the velocity at
    [JUMP_FORCE]. *)
Lemma updatePlayerPosition_jump blocks p camera :
  cameraRef p = Some camera ->
  playerOnGround p = true -> jump (moveState p) = true ->
  vy (playerVelocity (updatePlayerPosition env blocks p)) = JUMP_FORCE.
Proof.
  intros Hc Hg Hj. unfold updatePlayerPosition. rewrite Hc, Hg, Hj.
  unfold applyGravity, applyJump. cbn [negb andb].
  cbn [playerVelocity setY vy].
  rewrite collisions_rising; cbn [velocityY]; [reflexivity|].
  unfold JUMP_FORCE. lra.
Qed.

Lemma handleJump_velocity value p :
  (vy (playerVelocity p) <= JUMP_FORCE)%R ->
  (vy (playerVelocity (handleJump value p)) <= JUMP_FORCE)%R.
Proof.
  intros H. unfold handleJump. destruct (_ && _); cbn [playerVelocity setY vy];
    [lra | exact H].
Qed.

Lemma updatePlayerPosition_velocity blocks p :
  (vy (playerVelocity p) <= JUMP_FORCE)%R ->
  (vy (playerVelocity (updatePlayerPosition env blocks p)) <= JUMP_FORCE)%R.
Proof.
  intros H. unfold updatePlayerPosition.
  destruct (cameraRef p) as [camera|]; [|exact H].
  destruct (applyJump _ _ _) as [v og] eqn:E.
  cbn [playerVelocity setY vy]. apply collisions_bound. cbn [velocityY].
  unfold applyJump, applyGravity in E.
  destruct (jump (moveState p) && playerOnGround p); injection E as <- _; [lra|].
  destruct (negb (playerOnGround p)); [unfold GRAVITY; lra | exact H].
Qed.



End PhysicsFacts.

(** ** Block interactions *)

Ltac break_match :=
  match goal with
  | |- context [match ?e with _ => _ end] => destruct e eqn:?
  end.

Lemma findBlock_some m bs b :
  findBlock m bs = Some b -> In b bs /\ meshId (mesh b) = meshId m.
Proof.
  unfold findBlock. intros H. apply find_some in H. destruct H as [H1 H2].
  apply Nat.eqb_eq in H2. split; assumption.
Qed.

Lemma filter_keeps_all {A} (keep : A -> bool) (items : list A) :
  (forall item, In item items -> keep item = true) -> filter keep items = items.
Proof.
  intros Hkeep. induction items as [|item items IH]; cbn [filter]; [reflexivity|].
  rewrite (Hkeep item (or_introl eq_refl)). f_equal. apply IH.
  intros other Hother. apply Hkeep. right; exact Hother.
Qed.

(** Filtering an array keeps its keys distinct. *)
Lemma filter_keeps_distinct {A B} (key : A -> B) (keep : A -> bool) (items : list A) :
  NoDup (map key items) -> NoDup (map key (filter keep items)).
Proof.
  intros Hnd. induction items as [|item items IH]; [exact Hnd|].
  cbn [map] in Hnd. inversion Hnd as [|k ks Hnotin Hrest]; subst.
  cbn [filter]. destruct (keep item); [|apply IH; exact Hrest].
  cbn [map]. constructor; [|apply IH; exact Hrest].
  intros Hin. apply Hnotin. apply in_map_iff in Hin.
  destruct Hin as (other & Hkey & Hin). apply filter_In in Hin.
  rewrite <- Hkey. apply in_map. apply Hin.
Qed.



Lemma decrementCount_nonNegative i inv s :
  nonNegative inv -> nth_error inv i = Some s -> 0 < count s ->
  nonNegative (decrementCount i inv).
Proof.
  unfold nonNegative. revert i. induction inv as [|a inv IH]; intros i H Hn Hc.
  - destruct i; constructor.
  - inversion H as [|a' inv' Ha Hinv]; subst. destruct i as [|i]; cbn [decrementCount].
    + cbn [nth_error] in Hn. injection Hn as ->.
      constructor; [cbn [count]; lia | exact Hinv].
    + constructor; [exact Ha|]. apply (IH i Hinv Hn Hc).
Qed.

Lemma decrementCount_nth i : forall inv s,
  nth_error inv i = Some s ->
  nth_error (decrementCount i inv) i = Some (mkSlot (slotType s) (count s - 1)).
Proof.
  induction i as [|i IH]; intros [|s0 rest] s; cbn [decrementCount nth_error];
    try discriminate.
  - intros H. injection H as ->. reflexivity.
  - apply IH.
Qed.

Section InteractionFacts.

Variable env : Env.

(** *** What each handler leaves alone *)

Lemma highlightBlockAtPosition_frame x y g :
  player (highlightBlockAtPosition env x y g) = player g
  /\ world (highlightBlockAtPosition env x y g) = world g
  /\ inventory (highlightBlockAtPosition env x y g) = inventory g
  /\ selectedBlockIndex (highlightBlockAtPosition env x y g) = selectedBlockIndex g
  /\ isDestructionInProgress (highlightBlockAtPosition env x y g)
     = isDestructionInProgress g
  /\ destructionProgress (highlightBlockAtPosition env x y g) = destructionProgress g.
Proof.
  unfold highlightBlockAtPosition.
  destruct (cameraRef (player g)) as [camera|]; [|repeat split].
  destruct (clickedBlockAt env camera x y (blocks (world g))) as [[b hit]|];
    repeat split.
Qed.

Lemma destroyBlockAtPosition_frame x y g :
  player (destroyBlockAtPosition env x y g) = player g
  /\ inventory (destroyBlockAtPosition env x y g) = inventory g
  /\ selectedBlockIndex (destroyBlockAtPosition env x y g) = selectedBlockIndex g
  /\ nextMesh (world (destroyBlockAtPosition env x y g)) = nextMesh (world g).
Proof.
  unfold destroyBlockAtPosition.
  destruct (cameraRef (player g)) as [camera|]; [|repeat split].
  cbn [world setDestruction].
  destruct (clickedBlockAt env camera x y (blocks (world g))) as [[b hit]|];
    [|repeat split].
  cbn [highlightedBlockRef setWorld setDestruction].
  destruct (highlightedBlockRef g) as [h|]; [destruct (sameBlock h b)|]; repeat split.
Qed.

Lemma destroyBlockAtPosition_blocks x y g camera :
  cameraRef (player g) = Some camera ->
  blocks (world (destroyBlockAtPosition env x y g))
  = blocksAfterDestroy env camera x y (blocks (world g)).
Proof.
  intros Hc. unfold destroyBlockAtPosition, blocksAfterDestroy. rewrite Hc.
  cbn [world setDestruction].
  destruct (clickedBlockAt env camera x y (blocks (world g))) as [[b hit]|];
    [|reflexivity].
  cbn [highlightedBlockRef setWorld setDestruction].
  destruct (highlightedBlockRef g) as [h|]; [destruct (sameBlock h b)|]; reflexivity.
Qed.

Lemma destroyBlockAtPosition_reset x y g camera :
  cameraRef (player g) = Some camera ->
  isDestructionInProgress (destroyBlockAtPosition env x y g) = false
  /\ destructionProgress (destroyBlockAtPosition env x y g) = AtRest.
Proof.
  intros Hc. unfold destroyBlockAtPosition. rewrite Hc.
  cbn [world setDestruction].
  destruct (clickedBlockAt env camera x y (blocks (world g))) as [[b hit]|];
    [|split; reflexivity].
  cbn [highlightedBlockRef setWorld setDestruction].
  destruct (highlightedBlockRef g) as [h|]; [destruct (sameBlock h b)|];
    split; reflexivity.
Qed.

Lemma addBlockAtPosition_frame x y g g' :
  addBlockAtPosition env x y g = Some g' ->
  player g' = player g /\ selectedBlockIndex g' = selectedBlockIndex g
  /\ highlightedBlockRef g' = highlightedBlockRef g
  /\ isDestructionInProgress g' = isDestructionInProgress g
  /\ destructionProgress g' = destructionProgress g.
Proof.
  unfold addBlockAtPosition. intros H.
  repeat match type of H with
         | context [match ?e with _ => _ end] => destruct e
         end;
    try discriminate; injection H as <-; repeat split.
Qed.

Lemma cancelDestructionProgress_frame g :
  player (cancelDestructionProgress g) = player g
  /\ world (cancelDestructionProgress g) = world g
  /\ inventory (cancelDestructionProgress g) = inventory g
  /\ selectedBlockIndex (cancelDestructionProgress g) = selectedBlockIndex g
  /\ highlightedBlockRef (cancelDestructionProgress g) = highlightedBlockRef g.
Proof.
  unfold cancelDestructionProgress. destruct (isDestructionInProgress g); repeat split.
Qed.

Lemma startDestructionProgress_frame x y g :
  player (startDestructionProgress env x y g) = player g
  /\ world (startDestructionProgress env x y g) = world g
  /\ inventory (startDestructionProgress env x y g) = inventory g
  /\ selectedBlockIndex (startDestructionProgress env x y g) = selectedBlockIndex g
  /\ destructionProgress (startDestructionProgress env x y g) = Timing 0 x y.
Proof.
  unfold startDestructionProgress.
  destruct (highlightBlockAtPosition_frame x y (setDestruction g true AtRest))
    as (H1 & H2 & H3 & H4 & _).
  cbn [player world inventory selectedBlockIndex destructionProgress setDestruction].
  cbn [player world inventory selectedBlockIndex setDestruction] in H1, H2, H3, H4.
  repeat split; assumption.
Qed.

End InteractionFacts.

(** ** Placement *)

Section Placement.

Variable env : Env.

(** With the engine's values at the four half angles, the arithmetic of
    three.js gives the normals of [worldNormal], and the position that
    [addBlockAtPosition] computes is the hit block's position plus that
    normal. *)
Lemma placementPosition_table (b : Block Number) f :
  quarterTurnTrig env -> 0 <= rotY (mesh b) <= 3 ->
  placementPosition env b f = add64 (position b) (worldNormal (rotY (mesh b)) f).
Proof.
  intros (C0 & S0 & C1 & S1 & C2 & S2 & C3 & S3) Hk.
  destruct b as [p t [id mp k]]. cbn [mesh rotY position] in *.
  assert (Hcases : k = 0 \/ k = 1 \/ k = 2 \/ k = 3) by lia.
  unfold placementPosition, transformDirection, setFromEuler, rotationY.
  cbn [mesh rotY position qx qy qz qw].
  change (0 / 2)%float with 0%float. rewrite C0, S0.
  destruct Hcases as [-> | [-> | [-> | ->]]].
  - change (ofZ 0 * Math_PI / 2 / 2)%float with 0%float. rewrite C0, S0.
    destruct f; reflexivity.
  - change (ofZ 1 * Math_PI / 2 / 2)%float with 0x1.921fb54442d18p-1%float.
    rewrite C1, S1. destruct f; reflexivity.
  - change (ofZ 2 * Math_PI / 2 / 2)%float with 0x1.921fb54442d18p+0%float.
    rewrite C2, S2. destruct f; reflexivity.
  - change (ofZ 3 * Math_PI / 2 / 2)%float with 0x1.2d97c7f3321d2p+1%float.
    rewrite C3, S3. destruct f; reflexivity.
Qed.

Lemma addBlockAtPosition_places x y g camera slot clickedBlock hit f :
  cameraRef (player g) = Some camera ->
  nth_error (inventory g) (selectedBlockIndex g) = Some slot ->
  0 < count slot ->
  clickedBlockAt env camera x y (blocks (world g)) = Some (clickedBlock, hit) ->
  face hit = Some f ->
  existsb (fun block =>
             sameCoordinates (position block) (placementPosition env clickedBlock f))
          (blocks (world g)) = false ->
  addBlockAtPosition env x y g =
  Some (setInventory
          (setWorld g (snd (createBlock (placementPosition env clickedBlock f)
                                        (slotType slot) (world g))))
          (decrementCount (selectedBlockIndex g) (inventory g))).
Proof.
  intros Hc Hs Hn Hk Hf Hx. unfold addBlockAtPosition.
  rewrite Hc, Hs, Hk, Hf.
  assert (E1 : (count slot <=? 0) = false) by (apply Z.leb_gt; exact Hn).
  assert (E2 : (count slot >? 0) = true) by (apply Z.gtb_lt; exact Hn).
  rewrite E1. fold (placementPosition env clickedBlock f).
  rewrite Hx, E2. reflexivity.
Qed.

Lemma addBlockAtPosition_occupied x y g camera slot clickedBlock hit f :
  cameraRef (player g) = Some camera ->
  nth_error (inventory g) (selectedBlockIndex g) = Some slot ->
  clickedBlockAt env camera x y (blocks (world g)) = Some (clickedBlock, hit) ->
  face hit = Some f ->
  existsb (fun block =>
             sameCoordinates (position block) (placementPosition env clickedBlock f))
          (blocks (world g)) = true ->
  addBlockAtPosition env x y g = Some g.
Proof.
  intros Hc Hs Hk Hf Hx. unfold addBlockAtPosition.
  rewrite Hc, Hs, Hk, Hf.
  destruct (count slot <=? 0); [reflexivity|].
  fold (placementPosition env clickedBlock f).
  rewrite Hx. reflexivity.
Qed.

(** C4, as the program has it.  When a placement raycast hits a block on a
    face and no block has the coordinates that the program computes, the new
    block is put at the hit block's position plus the world normal of the
    face that three.js computes in doubles.  That normal is the unit vector
    along the axis when the mesh is not turned and for the +Y face of any
    mesh, so a hit on the +Y face of the block at [(0, 0, 0)] puts the new
    block at [(0, 1, 0)].  For a side face of a turned mesh it is not: on
    the local +Z face of a mesh turned by a quarter, which faces +X, the new
    block lands [2^-52] off the grid in z. *)
Theorem face_adjacent_placement x y g camera slot clickedBlock hit f :
  quarterTurnTrig env ->
  0 <= rotY (mesh clickedBlock) <= 3 ->
  cameraRef (player g) = Some camera ->
  nth_error (inventory g) (selectedBlockIndex g) = Some slot ->
  0 < count slot ->
  clickedBlockAt env camera x y (blocks (world g)) = Some (clickedBlock, hit) ->
  face hit = Some f ->
  existsb (fun block =>
             sameCoordinates (position block) (placementPosition env clickedBlock f))
          (blocks (world g)) = false ->
  exists g' newBlock,
    addBlockAtPosition env x y g = Some g'
    /\ blocks (world g') = blocks (world g) ++ [newBlock]
    /\ type newBlock = slotType slot
    /\ position newBlock
       = add64 (position clickedBlock) (worldNormal (rotY (mesh clickedBlock)) f)
    /\ (rotY (mesh clickedBlock) = 0 \/ f = PY ->
        position newBlock
        = add64 (position clickedBlock)
                (match f with
                 | PX => V3 1 0 0
                 | NX => V3 (-1) 0 0
                 | PY => V3 0 1 0
                 | NY => V3 0 (-1) 0
                 | PZ => V3 0 0 1
                 | NZ => V3 0 0 (-1)
                 end)%float)
    /\ (position clickedBlock = V3 0 0 0 -> f = PY ->
        position newBlock = V3 0 1 0)%float
    /\ (position clickedBlock = (V3 0 0 0)%float ->
        rotY (mesh clickedBlock) = 1 -> f = PZ ->
        position newBlock = (V3 1 0 0x1p-52)%float).
Proof.
  intros Ht Hr Hc Hs Hn Hk Hf Hx.
  eexists. eexists. split.
  { apply (addBlockAtPosition_places x y g camera slot clickedBlock hit f);
      assumption. }
  cbn [world setInventory setWorld]. rewrite createBlock_blocks.
  split; [reflexivity|]. cbn [type position]. split; [reflexivity|].
  rewrite (placementPosition_table clickedBlock f Ht Hr).
  split; [reflexivity|]. split; [|split].
  - intros [H0 | ->].
    + rewrite H0. destruct f; reflexivity.
    + assert (Hcases : rotY (mesh clickedBlock) = 0 \/ rotY (mesh clickedBlock) = 1
                       \/ rotY (mesh clickedBlock) = 2 \/ rotY (mesh clickedBlock) = 3)
        by lia.
      destruct Hcases as [-> | [-> | [-> | ->]]]; reflexivity.
  - intros -> ->.
    assert (Hcases : rotY (mesh clickedBlock) = 0 \/ rotY (mesh clickedBlock) = 1
                     \/ rotY (mesh clickedBlock) = 2 \/ rotY (mesh clickedBlock) = 3)
      by lia.
    destruct Hcases as [-> | [-> | [-> | ->]]]; reflexivity.
  - intros -> -> ->. reflexivity.
Qed.

(** C5, as the program has it.  When some block has coordinates [===] to
    those that a placement attempt computes, [addBlockAtPosition] returns
    the game as it was, and the tap that carries the attempt changes neither
    the blocks nor the inventory.  But the coordinates computed on a side
    face of a turned mesh are not those of the cell: for the local +Z face
    of a block with [z = 0] whose mesh is turned by a quarter, the attempt
    adds a block [2^-52] off the cell across the face and takes an item,
    also when a block sits in that cell. *)
Theorem placement_occupied_noop x y g camera slot clickedBlock hit f :
  cameraRef (player g) = Some camera ->
  nth_error (inventory g) (selectedBlockIndex g) = Some slot ->
  clickedBlockAt env camera x y (blocks (world g)) = Some (clickedBlock, hit) ->
  face hit = Some f ->
  (existsb (fun block =>
              sameCoordinates (position block) (placementPosition env clickedBlock f))
           (blocks (world g)) = true ->
   addBlockAtPosition env x y g = Some g
   /\ exists g', step env g (Tap STATE_END x y) = Some g'
                 /\ world g' = world g
                 /\ inventory g' = inventory g)
  /\ (forall neighbour,
         quarterTurnTrig env ->
         0 < count slot ->
         rotY (mesh clickedBlock) = 1 -> f = PZ ->
         vz (position clickedBlock) = 0%float ->
         In neighbour (blocks (world g)) ->
         position neighbour
         = (V3 (vx (position clickedBlock) + 1) (vy (position clickedBlock) + 0) 0)%float ->
         Forall (fun block => (vz (position block) =? 0x1p-52)%float = false)
                (blocks (world g)) ->
         exists g' newBlock,
           addBlockAtPosition env x y g = Some g'
           /\ blocks (world g') = blocks (world g) ++ [newBlock]
           /\ position newBlock
              = (V3 (vx (position clickedBlock) + 1) (vy (position clickedBlock) + 0)
                    0x1p-52)%float
           /\ nth_error (inventory g') (selectedBlockIndex g)
              = Some (mkSlot (slotType slot) (count slot - 1))).
Proof.
  intros Hc Hs Hk Hf. split.
  - intros Hx.
    assert (Ha : addBlockAtPosition env x y g = Some g).
    { apply (addBlockAtPosition_occupied x y g camera slot clickedBlock hit f);
        assumption. }
    split; [exact Ha|].
    cbn [step]. unfold handleBlockSelection. rewrite Hc, Hs.
    cbn [STATE_END Z.eqb Pos.eqb].
    destruct (count slot >? 0).
    + exists g. rewrite Ha. repeat split.
    + eexists. split; [reflexivity|].
      destruct (highlightBlockAtPosition_frame env x y g) as (_ & Hw & Hi & _).
      split; assumption.
  - intros neighbour Ht Hn Hr -> Hz _ _ Hfree.
    assert (Hp : placementPosition env clickedBlock PZ
                 = (V3 (vx (position clickedBlock) + 1) (vy (position clickedBlock) + 0)
                       0x1p-52)%float).
    { rewrite (placementPosition_table clickedBlock PZ Ht) by lia.
      rewrite Hr. unfold add64. cbn [worldNormal vx vy vz]. rewrite Hz. reflexivity. }
    assert (Hx : existsb (fun block =>
                            sameCoordinates (position block)
                                            (placementPosition env clickedBlock PZ))
                         (blocks (world g)) = false).
    { rewrite Hp. clear - Hfree.
      induction Hfree as [|b bs Hb Hbs IH]; cbn [existsb]; [reflexivity|].
      rewrite IH. unfold sameCoordinates. cbn [vx vy vz]. rewrite Hb.
      rewrite andb_false_r. reflexivity. }
    eexists. eexists. split.
    { apply (addBlockAtPosition_places x y g camera slot clickedBlock hit PZ);
        assumption. }
    cbn [world inventory setInventory setWorld]. rewrite createBlock_blocks.
    split; [reflexivity|]. cbn [position]. split; [exact Hp|].
    apply decrementCount_nth. exact Hs.
Qed.

(** *** The inventory *)

Lemma addBlockAtPosition_inventory x y g g' :
  nonNegative (inventory g) ->
  addBlockAtPosition env x y g = Some g' ->
  nonNegative (inventory g').
Proof.
  intros Hinv. unfold addBlockAtPosition.
  destruct (cameraRef (player g)) as [camera|]; [|intros H; injection H as <-; exact Hinv].
  destruct (nth_error (inventory g) (selectedBlockIndex g)) as [slot|] eqn:Hs;
    [|discriminate].
  destruct (count slot <=? 0); [intros H; injection H as <-; exact Hinv|].
  destruct (clickedBlockAt env camera x y (blocks (world g))) as [[b hit]|];
    [|intros H; injection H as <-; exact Hinv].
  destruct (face hit) as [f|]; [|intros H; injection H as <-; exact Hinv].
  destruct (existsb _ _); [intros H; injection H as <-; exact Hinv|].
  destruct (count slot >? 0) eqn:Hn; intros H; injection H as <-;
    cbn [inventory setInventory setWorld selectedBlockIndex]; [|exact Hinv].
  apply (decrementCount_nonNegative _ _ slot Hinv Hs). apply Z.gtb_lt. exact Hn.
Qed.

Lemma addBlockAtPosition_exhausted x y g slot :
  nth_error (inventory g) (selectedBlockIndex g) = Some slot ->
  count slot <= 0 ->
  addBlockAtPosition env x y g = Some g.
Proof.
  intros Hs Hn. unfold addBlockAtPosition. rewrite Hs.
  destruct (cameraRef (player g)); [|reflexivity].
  assert (E : (count slot <=? 0) = true) by (apply Z.leb_le; exact Hn).
  rewrite E. reflexivity.
Qed.

Lemma handleBlockSelection_inventory state x y g g' :
  nonNegative (inventory g) ->
  handleBlockSelection env state x y g = Some g' ->
  nonNegative (inventory g').
Proof.
  intros Hinv. unfold handleBlockSelection.
  destruct (cameraRef (player g)); [|intros H; injection H as <-; exact Hinv].
  assert (Hh : nonNegative (inventory (highlightBlockAtPosition env x y g))).
  { destruct (highlightBlockAtPosition_frame env x y g) as (_ & _ & -> & _). exact Hinv. }
  destruct (state =? STATE_END); [|intros H; injection H as <-; exact Hh].
  destruct (nth_error _ _) as [slot|]; [|discriminate].
  destruct (count slot >? 0); [|intros H; injection H as <-; exact Hh].
  apply addBlockAtPosition_inventory. exact Hinv.
Qed.

Lemma elapse_frame ms g :
  player (elapse env ms g) = player g
  /\ inventory (elapse env ms g) = inventory g
  /\ selectedBlockIndex (elapse env ms g) = selectedBlockIndex g
  /\ nextMesh (world (elapse env ms g)) = nextMesh (world g).
Proof.
  unfold elapse.
  destruct (destructionProgress g) as [|e tx ty| |];
    [repeat split | | repeat split | repeat split].
  destruct (_ <=? _)%nat; [|repeat split].
  apply (destroyBlockAtPosition_frame env tx ty
           (setDestruction g (isDestructionInProgress g) Complete)).
Qed.

Lemma step_inventory g e g' :
  nonNegative (inventory g) -> step env g e = Some g' -> nonNegative (inventory g').
Proof.
  intros Hinv. destruct e; cbn [step]; intros H;
    try (injection H as <-; exact Hinv).
  - exact (handleBlockSelection_inventory _ _ _ _ _ Hinv H).
  - exact (handleBlockSelection_inventory _ _ _ _ _ Hinv H).
  - injection H as <-.
    destruct (startDestructionProgress_frame env x y g) as (_ & _ & -> & _). exact Hinv.
  - destruct (state =? STATE_END); injection H as <-.
    + destruct (destroyBlockAtPosition_frame env x y g) as (_ & -> & _). exact Hinv.
    + destruct (cancelDestructionProgress_frame g) as (_ & _ & -> & _). exact Hinv.
  - injection H as <-.
    destruct (cancelDestructionProgress_frame g) as (_ & _ & -> & _). exact Hinv.
  - injection H as <-. destruct (elapse_frame ms g) as (_ & -> & _). exact Hinv.
  - injection H as <-. unfold handleCameraPan. destruct (isPanning g); exact Hinv.
  - unfold selectBlockFromInventory in H.
    destruct (nth_error (inventory g) index); [|discriminate].
    injection H as <-. exact Hinv.
Qed.

Lemma run_inventory events :
  forall g g',
    nonNegative (inventory g) -> run env events g = Some g' ->
    nonNegative (inventory g').
Proof.
  induction events as [|e events IH]; intros g g' Hinv H; cbn [run] in H.
  - injection H as <-. exact Hinv.
  - destruct (step env g e) as [g1|] eqn:E; [|discriminate].
    apply (IH g1 g' (step_inventory g e g1 Hinv E) H).
Qed.

Lemma tap_exhausted x y g slot :
  nth_error (inventory g) (selectedBlockIndex g) = Some slot ->
  count slot = 0 ->
  exists g', step env g (Tap STATE_END x y) = Some g'
             /\ world g' = world g /\ inventory g' = inventory g
             /\ selectedBlockIndex g' = selectedBlockIndex g.
Proof.
  intros Hs Hn. cbn [step]. unfold handleBlockSelection. rewrite Hs, Hn.
  cbn [STATE_END Z.eqb Pos.eqb Z.gtb Z.compare].
  destruct (cameraRef (player g)).
  - eexists. split; [reflexivity|].
    destruct (highlightBlockAtPosition_frame env x y g) as (_ & Hw & Hi & Hx & _).
    repeat split; assumption.
  - exists g. repeat split.
Qed.

Lemma taps_exhausted points :
  forall g slot,
    nth_error (inventory g) (selectedBlockIndex g) = Some slot ->
    count slot = 0 ->
    exists g', run env (placementAttempts points) g = Some g'
               /\ world g' = world g /\ inventory g' = inventory g.
Proof.
  induction points as [|[x y] points IH]; intros g slot Hs Hn; cbn [placementAttempts map run].
  - exists g. repeat split.
  - destruct (tap_exhausted x y g slot Hs Hn) as (g1 & E & Hw & Hi & Hx).
    cbn [fst snd]. rewrite E.
    destruct (IH g1 slot) as (g2 & E2 & Hw2 & Hi2); [rewrite Hi, Hx; exact Hs | exact Hn |].
    exists g2. split; [exact E2|]. split; congruence.
Qed.

(** C6.  From an inventory without negative counts, no sequence of events
    makes a count negative; and once the selected slot's count is 0, a
    placement attempt, or any number of them, leaves the world and the
    inventory as they are. *)
Theorem inventory_never_negative events g g' :
  nonNegative (inventory g) ->
  run env events g = Some g' ->
  nonNegative (inventory g')
  /\ forall slot,
      nth_error (inventory g') (selectedBlockIndex g') = Some slot ->
      count slot = 0 ->
      (forall x y, addBlockAtPosition env x y g' = Some g')
      /\ forall points,
          exists g'', run env (placementAttempts points) g' = Some g''
                      /\ blocks (world g'') = blocks (world g')
                      /\ inventory g'' = inventory g'.
Proof.
  intros Hinv Hrun. split; [exact (run_inventory events g g' Hinv Hrun)|].
  intros slot Hs Hn. split.
  - intros x y. apply (addBlockAtPosition_exhausted x y g' slot Hs). lia.
  - intros points. destruct (taps_exhausted points g' slot Hs Hn) as (g'' & E & Hw & Hi).
    exists g''. split; [exact E|]. split; [rewrite Hw; reflexivity | exact Hi].
Qed.

End Placement.

(** ** Mesh identities *)

Lemma createBlock_nextMesh {A} (pos : Vector3 A) t w :
  nextMesh (snd (createBlock pos t w)) = S (nextMesh w)
  /\ meshId (fst (createBlock pos t w)) = nextMesh w.
Proof.
  unfold createBlock.
  destruct t; simpl;
    repeat match goal with |- context [let (_, _) := ?e in _] => destruct e end;
    split; reflexivity.
Qed.

Lemma NoDup_snoc {A} (l : list A) (a : A) :
  NoDup l -> ~ In a l -> NoDup (l ++ [a]).
Proof.
  induction l as [|b l IH]; intros Hnd Hnotin; cbn [app].
  - constructor; [intros [] | constructor].
  - inversion Hnd as [|b' l' Hb Hl]; subst. constructor.
    + intros Hin. apply in_app_or in Hin. destruct Hin as [Hin|[->|[]]].
      * apply Hb; exact Hin.
      * apply Hnotin. left; reflexivity.
    + apply IH; [exact Hl|]. intros Hin. apply Hnotin. right; exact Hin.
Qed.

Lemma createBlock_wellFormed {A} (pos : Vector3 A) t w :
  wellFormed w -> wellFormed (snd (createBlock pos t w)).
Proof.
  intros [Hb Hu]. destruct (createBlock_nextMesh pos t w) as [Hn Hm].
  unfold wellFormed, meshesBelow, uniqueMeshes. rewrite createBlock_blocks, Hn. split.
  - intros b Hin. apply in_app_or in Hin. destruct Hin as [Hin|[<-|[]]].
    + specialize (Hb b Hin). lia.
    + cbn [mesh]. rewrite Hm. lia.
  - rewrite map_app. cbn [map mesh]. rewrite Hm. apply NoDup_snoc; [exact Hu|].
    intros Hin. apply in_map_iff in Hin. destruct Hin as (b & Hb' & Hin).
    specialize (Hb b Hin). lia.
Qed.

Lemma fold_left_preserves {S A} (P : S -> Prop) (step : S -> A -> S) :
  (forall s a, P s -> P (step s a)) ->
  forall l s, P s -> P (fold_left step l s).
Proof.
  intros Hstep l. induction l as [|a l IH]; intros s H; cbn [fold_left]; [exact H|].
  apply IH. apply Hstep. exact H.
Qed.

Lemma wellFormed_rng {A} (w : World A) r :
  wellFormed w -> wellFormed (mkWorld (blocks w) (nextMesh w) r).
Proof. intros H. exact H. Qed.

Lemma generateTree_wellFormed x z bh w :
  wellFormed w -> wellFormed (generateTree x z bh w).
Proof.
  intros H. unfold generateTree.
  destruct (random (rng w)) as [t r].
  set (w1 := fold_left _ _ _).
  assert (H1 : wellFormed w1).
  { apply fold_left_preserves.
    - intros s a Hs. apply createBlock_wellFormed. exact Hs.
    - apply wellFormed_rng. exact H. }
  clearbody w1.
  destruct (random (rng w1)) as [a r1]. destruct (random r1) as [b r2].
  apply fold_left_preserves; [|apply wellFormed_rng; exact H1].
  intros s y Hs. unfold leafLayer.
  apply fold_left_preserves; [|exact Hs].
  intros s' lx Hs'. apply fold_left_preserves; [|exact Hs'].
  intros s3 lz Hs3. unfold leafCell.
  destruct (_ >? _); [exact Hs3|].
  destruct (random (rng s3)) as [p r3].
  destruct (Qgtb p 0.8); [exact Hs3|].
  apply createBlock_wellFormed. exact Hs3.
Qed.

Lemma generateColumn_wellFormed Math_sin x w z :
  wellFormed w -> wellFormed (generateColumn Math_sin x w z).
Proof.
  intros H. unfold generateColumn.
  set (w4 := snd (createBlock (V3 (x * BLOCK_SIZE) bedrockLevel (z * BLOCK_SIZE)) bedrock _)).
  assert (H4 : wellFormed w4).
  { unfold w4. apply createBlock_wellFormed.
    apply fold_left_preserves; [intros s a Hs; apply createBlock_wellFormed; exact Hs|].
    apply fold_left_preserves; [intros s a Hs; apply createBlock_wellFormed; exact Hs|].
    apply createBlock_wellFormed. exact H. }
  clearbody w4.
  destruct (_ && _); [|exact H4].
  destruct (random (rng w4)) as [p r].
  destruct (Qltb p 0.05); [|exact H4].
  apply generateTree_wellFormed. exact H4.
Qed.

Lemma generateTerrain_wellFormed Math_sin w :
  wellFormed w -> wellFormed (generateTerrain Math_sin w).
Proof.
  intros H. unfold generateTerrain.
  apply fold_left_preserves; [|exact H].
  intros s x Hs. apply fold_left_preserves; [|exact Hs].
  intros s' z Hs'. apply generateColumn_wellFormed. exact Hs'.
Qed.

(** A property of worlds that creating a block and drawing a number keep is
    kept by the generation of the terrain. *)
Lemma generateTerrain_preserves (P : World Z -> Prop) Math_sin :
  (forall w pos t, P w -> P (snd (createBlock pos t w))) ->
  (forall w r, P w -> P (mkWorld (blocks w) (nextMesh w) r)) ->
  forall w, P w -> P (generateTerrain Math_sin w).
Proof.
  intros Hcreate Hrng.
  assert (Tree : forall x z bh w, P w -> P (generateTree x z bh w)).
  { intros x z bh w H. unfold generateTree.
    destruct (random (rng w)) as [t r].
    set (w1 := fold_left _ _ _).
    assert (H1 : P w1).
    { apply fold_left_preserves.
      - intros s a Hs. apply Hcreate. exact Hs.
      - apply Hrng. exact H. }
    clearbody w1.
    destruct (random (rng w1)) as [a r1]. destruct (random r1) as [b r2].
    apply fold_left_preserves; [|apply Hrng; exact H1].
    intros s y Hs. unfold leafLayer.
    apply fold_left_preserves; [|exact Hs].
    intros s' lx Hs'. apply fold_left_preserves; [|exact Hs'].
    intros s3 lz Hs3. unfold leafCell.
    destruct (_ >? _); [exact Hs3|].
    destruct (random (rng s3)) as [p r3].
    destruct (Qgtb p 0.8); [apply Hrng; exact Hs3|].
    apply Hcreate. apply Hrng. exact Hs3. }
  assert (Column : forall x w z, P w -> P (generateColumn Math_sin x w z)).
  { intros x w z H. unfold generateColumn.
    set (w4 := snd (createBlock (V3 (x * BLOCK_SIZE) bedrockLevel (z * BLOCK_SIZE))
                                bedrock _)).
    assert (H4 : P w4).
    { unfold w4. apply Hcreate.
      apply fold_left_preserves; [intros s a Hs; apply Hcreate; exact Hs|].
      apply fold_left_preserves; [intros s a Hs; apply Hcreate; exact Hs|].
      apply Hcreate. exact H. }
    clearbody w4.
    destruct (_ && _); [|exact H4].
    destruct (random (rng w4)) as [p r].
    destruct (Qltb p 0.05); [|apply Hrng; exact H4].
    apply Tree. apply Hrng. exact H4. }
  intros w H. unfold generateTerrain.
  apply fold_left_preserves; [|exact H].
  intros s x Hs. apply fold_left_preserves; [|exact Hs].
  intros s' z Hs'. apply Column. exact Hs'.
Qed.

(** The meshes that the generator creates from the counter [n] are not
    older than [n]. *)
Lemma generateTerrain_fresh Math_sin n r :
  (n <= nextMesh (generateTerrain Math_sin (mkWorld [] n r)))%nat
  /\ forall b, In b (blocks (generateTerrain Math_sin (mkWorld [] n r))) ->
               (n <= meshId (mesh b))%nat.
Proof.
  apply (generateTerrain_preserves
           (fun w => (n <= nextMesh w)%nat
                     /\ forall b, In b (blocks w) -> (n <= meshId (mesh b))%nat)).
  - intros w pos t [Hn Hb]. destruct (createBlock_nextMesh pos t w) as [E1 E2].
    rewrite E1, createBlock_blocks. split; [lia|].
    intros b Hin. apply in_app_or in Hin. destruct Hin as [Hin|[<-|[]]].
    + apply Hb. exact Hin.
    + cbn [mesh]. rewrite E2. exact Hn.
  - intros w r' H. exact H.
  - cbn [nextMesh blocks]. split; [lia|]. intros b [].
Qed.

Lemma fold_left_commutes {S A} (h : S -> S) (step : S -> A -> S) :
  (forall s a, step (h s) a = h (step s a)) ->
  forall l s, fold_left step l (h s) = h (fold_left step l s).
Proof.
  intros Hstep l. induction l as [|a l IH]; intros s; cbn [fold_left]; [reflexivity|].
  rewrite Hstep. apply IH.
Qed.

Lemma createBlock_prepend {A} (before : list (Block A)) (pos : Vector3 A) t w :
  snd (createBlock pos t (prepend before w))
  = prepend before (snd (createBlock pos t w)).
Proof.
  unfold createBlock, prepend. cbn [blocks nextMesh rng].
  destruct t; try destruct (random _) as [q r];
    cbn [snd blocks nextMesh rng]; rewrite app_assoc; reflexivity.
Qed.

Lemma setRng_prepend {A} (before : list (Block A)) w r :
  mkWorld (blocks (prepend before w)) (nextMesh (prepend before w)) r
  = prepend before (mkWorld (blocks w) (nextMesh w) r).
Proof. reflexivity. Qed.

Lemma leafCell_prepend before x z bh ls lr y lx w lz :
  leafCell x z bh ls lr y lx (prepend before w) lz
  = prepend before (leafCell x z bh ls lr y lx w lz).
Proof.
  unfold leafCell. destruct (_ >? _); [reflexivity|].
  change (rng (prepend before w)) with (rng w).
  destruct (random (rng w)) as [p r]. rewrite setRng_prepend.
  destruct (Qgtb p 0.8); [reflexivity|]. apply createBlock_prepend.
Qed.

Lemma generateTree_prepend before x z bh w :
  generateTree x z bh (prepend before w) = prepend before (generateTree x z bh w).
Proof.
  unfold generateTree. change (rng (prepend before w)) with (rng w).
  destruct (random (rng w)) as [t r]. rewrite setRng_prepend.
  rewrite (fold_left_commutes (prepend before))
    by (intros s a; apply createBlock_prepend).
  set (w1 := fold_left _ _ (mkWorld (blocks w) (nextMesh w) r)). clearbody w1.
  change (rng (prepend before w1)) with (rng w1).
  destruct (random (rng w1)) as [a r1]. destruct (random r1) as [b r2].
  rewrite setRng_prepend.
  apply fold_left_commutes. intros s y. unfold leafLayer.
  apply fold_left_commutes. intros s1 lx.
  apply fold_left_commutes. intros s2 lz. apply leafCell_prepend.
Qed.

Lemma generateColumn_prepend Math_sin before x w z :
  generateColumn Math_sin x (prepend before w) z
  = prepend before (generateColumn Math_sin x w z).
Proof.
  unfold generateColumn. rewrite createBlock_prepend.
  rewrite (fold_left_commutes (prepend before))
    by (intros s a; apply createBlock_prepend).
  rewrite (fold_left_commutes (prepend before))
    by (intros s a; apply createBlock_prepend).
  rewrite createBlock_prepend.
  set (w4 := snd (createBlock (V3 (x * BLOCK_SIZE) bedrockLevel (z * BLOCK_SIZE))
                              bedrock _)).
  clearbody w4.
  destruct (_ && _); [|reflexivity].
  change (rng (prepend before w4)) with (rng w4).
  destruct (random (rng w4)) as [p r]. rewrite setRng_prepend.
  destruct (Qltb p 0.05); [|reflexivity]. apply generateTree_prepend.
Qed.

(** [generateTerrain] only pushes: run on an array that already holds
    blocks, it leaves them in front and pushes the blocks, with the mesh
    numbers and the draws, that it pushes on the empty array. *)
Lemma generateTerrain_pushes Math_sin before w :
  generateTerrain Math_sin (prepend before w)
  = prepend before (generateTerrain Math_sin w).
Proof.
  unfold generateTerrain.
  apply fold_left_commutes. intros s x.
  apply fold_left_commutes. intros s1 z. apply generateColumn_prepend.
Qed.

Section GameInvariants.

Variable env : Env.

Lemma destroyBlockAtPosition_wellFormed x y g :
  wellFormed (world g) -> wellFormed (world (destroyBlockAtPosition env x y g)).
Proof.
  intros [Hb Hu].
  destruct (cameraRef (player g)) as [camera|] eqn:Hc.
  - destruct (destroyBlockAtPosition_frame env x y g) as (_ & _ & _ & Hn).
    pose proof (destroyBlockAtPosition_blocks env x y g camera Hc) as Hbs.
    unfold wellFormed, meshesBelow, uniqueMeshes. rewrite Hn, Hbs.
    unfold blocksAfterDestroy.
    destruct (clickedBlockAt env camera x y (blocks (world g))) as [[b hit]|];
      [|split; assumption].
    split.
    + intros c Hin. apply filter_In in Hin. apply Hb. apply Hin.
    + apply filter_keeps_distinct. exact Hu.
  - unfold destroyBlockAtPosition. rewrite Hc. split; assumption.
Qed.

Lemma addBlockAtPosition_wellFormed x y g g' :
  wellFormed (world g) -> addBlockAtPosition env x y g = Some g' ->
  wellFormed (world g').
Proof.
  intros Hw. unfold addBlockAtPosition.
  repeat match goal with
         | |- context [match ?e with _ => _ end] => destruct e
         end;
    intros H; try discriminate; injection H as <-; try exact Hw;
    cbn [world setInventory setWorld]; apply createBlock_wellFormed; exact Hw.
Qed.

Lemma handleBlockSelection_wellFormed state x y g g' :
  wellFormed (world g) -> handleBlockSelection env state x y g = Some g' ->
  wellFormed (world g').
Proof.
  intros Hw. unfold handleBlockSelection.
  destruct (cameraRef (player g)); [|intros H; injection H as <-; exact Hw].
  assert (Hh : wellFormed (world (highlightBlockAtPosition env x y g))).
  { destruct (highlightBlockAtPosition_frame env x y g) as (_ & -> & _). exact Hw. }
  destruct (state =? STATE_END); [|intros H; injection H as <-; exact Hh].
  destruct (nth_error _ _) as [slot|]; [|discriminate].
  destruct (count slot >? 0); [|intros H; injection H as <-; exact Hh].
  apply addBlockAtPosition_wellFormed. exact Hw.
Qed.

Lemma elapse_wellFormed ms g :
  wellFormed (world g) -> wellFormed (world (elapse env ms g)).
Proof.
  intros Hw. unfold elapse.
  destruct (destructionProgress g) as [|e tx ty| |]; try exact Hw.
  destruct (_ <=? _)%nat; [|exact Hw].
  apply destroyBlockAtPosition_wellFormed. exact Hw.
Qed.

Lemma append_terrain_wellFormed (w : World Number) (terrain : World Z) :
  wellFormed w -> wellFormed terrain ->
  (nextMesh w <= nextMesh terrain)%nat ->
  (forall b, In b (blocks terrain) -> (nextMesh w <= meshId (mesh b))%nat) ->
  wellFormed (mkWorld (blocks w ++ map jsBlock (blocks terrain))
                      (nextMesh terrain) (rng terrain)).
Proof.
  intros [Hb Hu] [Tb Tu] Hn Hf. split.
  - intros b Hin. cbn [blocks nextMesh] in Hin |- *. apply in_app_or in Hin.
    destruct Hin as [Hin|Hin].
    + specialize (Hb b Hin). lia.
    + apply in_map_iff in Hin. destruct Hin as (b0 & <- & Hin0).
      cbn [jsBlock jsMesh mesh meshId]. exact (Tb b0 Hin0).
  - unfold uniqueMeshes in *. cbn [blocks]. rewrite map_app, map_map.
    cbn [jsBlock jsMesh mesh meshId].
    apply NoDup_app; [exact Hu | exact Tu |].
    intros i Hold Hnew. apply in_map_iff in Hold. destruct Hold as (b & <- & Hin).
    apply in_map_iff in Hnew. destruct Hnew as (b0 & E & Hin0).
    specialize (Hb b Hin). specialize (Hf b0 Hin0). lia.
Qed.

Lemma onContextCreate_world g :
  world (onContextCreate env g)
  = mkWorld (blocks (world g)
             ++ map jsBlock
                    (blocks (generateTerrain
                               (mathSin env)
                               (mkWorld [] (nextMesh (world g)) (rng (world g))))))
            (nextMesh (generateTerrain
                         (mathSin env)
                         (mkWorld [] (nextMesh (world g)) (rng (world g)))))
            (rng (generateTerrain
                    (mathSin env)
                    (mkWorld [] (nextMesh (world g)) (rng (world g))))).
Proof. reflexivity. Qed.

Lemma onContextCreate_wellFormed g :
  wellFormed (world g) -> wellFormed (world (onContextCreate env g)).
Proof.
  intros Hw. rewrite onContextCreate_world.
  destruct (generateTerrain_fresh (mathSin env) (nextMesh (world g)) (rng (world g)))
    as [Hn Hf].
  apply append_terrain_wellFormed; [exact Hw | | exact Hn | exact Hf].
  apply generateTerrain_wellFormed. split; [intros b [] | constructor].
Qed.

Lemma step_wellFormed g e g' :
  wellFormed (world g) -> step env g e = Some g' -> wellFormed (world g').
Proof.
  intros Hw. destruct e; cbn [step]; intros H;
    try (injection H as <-; exact Hw).
  - exact (handleBlockSelection_wellFormed _ _ _ _ _ Hw H).
  - exact (handleBlockSelection_wellFormed _ _ _ _ _ Hw H).
  - injection H as <-.
    destruct (startDestructionProgress_frame env x y g) as (_ & -> & _). exact Hw.
  - destruct (state =? STATE_END); injection H as <-.
    + apply destroyBlockAtPosition_wellFormed. exact Hw.
    + destruct (cancelDestructionProgress_frame g) as (_ & -> & _). exact Hw.
  - injection H as <-.
    destruct (cancelDestructionProgress_frame g) as (_ & -> & _). exact Hw.
  - injection H as <-. apply elapse_wellFormed. exact Hw.
  - injection H as <-. unfold handleCameraPan. destruct (isPanning g); exact Hw.
  - unfold selectBlockFromInventory in H.
    destruct (nth_error (inventory g) index); [|discriminate].
    injection H as <-. exact Hw.
  - injection H as <-. apply onContextCreate_wellFormed. exact Hw.
Qed.

(** In every game reached from the start the meshes of the array are
    pairwise distinct. *)
Lemma run_wellFormed events :
  forall g g', wellFormed (world g) -> run env events g = Some g' ->
               wellFormed (world g').
Proof.
  induction events as [|e events IH]; intros g g' Hw H; cbn [run] in H.
  - injection H as <-. exact Hw.
  - destruct (step env g e) as [g1|] eqn:E; [|discriminate].
    apply (IH g1 g' (step_wellFormed g e g1 Hw E) H).
Qed.

Lemma initialGame_wellFormed r : wellFormed (world (initialGame r)).
Proof.
  split.
  - intros b [].
  - constructor.
Qed.

Lemma reachable_uniqueMeshes events r g :
  run env events (initialGame r) = Some g -> uniqueMeshes (blocks (world g)).
Proof.
  intros H. apply (run_wellFormed events (initialGame r) g (initialGame_wellFormed r) H).
Qed.

(** *** The vertical velocity *)

Lemma step_velocity g e g' :
  (velocity g <= JUMP_FORCE)%R -> step env g e = Some g' ->
  (velocity g' <= JUMP_FORCE)%R.
Proof.
  unfold velocity. intros Hv. destruct e; cbn [step]; intros H.
  - unfold handleBlockSelection in H.
    destruct (cameraRef (player g)); [|injection H as <-; exact Hv].
    assert (Hh : (vy (playerVelocity (player (highlightBlockAtPosition env x y g)))
                  <= JUMP_FORCE)%R).
    { destruct (highlightBlockAtPosition_frame env x y g) as (-> & _). exact Hv. }
    destruct (state =? STATE_END); [|injection H as <-; exact Hh].
    destruct (nth_error _ _) as [slot|]; [|discriminate].
    destruct (count slot >? 0); [|injection H as <-; exact Hh].
    destruct (addBlockAtPosition_frame env x y g g' H) as (-> & _). exact Hv.
  - unfold handleBlockSelection in H.
    destruct (cameraRef (player g)); [|injection H as <-; exact Hv].
    assert (Hh : (vy (playerVelocity (player (highlightBlockAtPosition env x y g)))
                  <= JUMP_FORCE)%R).
    { destruct (highlightBlockAtPosition_frame env x y g) as (-> & _). exact Hv. }
    destruct (state =? STATE_END); [|injection H as <-; exact Hh].
    destruct (nth_error _ _) as [slot|]; [|discriminate].
    destruct (count slot >? 0); [|injection H as <-; exact Hh].
    destruct (addBlockAtPosition_frame env x y g g' H) as (-> & _). exact Hv.
  - injection H as <-.
    destruct (startDestructionProgress_frame env x y g) as (-> & _). exact Hv.
  - destruct (state =? STATE_END); injection H as <-.
    + destruct (destroyBlockAtPosition_frame env x y g) as (-> & _). exact Hv.
    + destruct (cancelDestructionProgress_frame g) as (-> & _). exact Hv.
  - injection H as <-.
    destruct (cancelDestructionProgress_frame g) as (-> & _). exact Hv.
  - injection H as <-. destruct (elapse_frame env ms g) as (-> & _). exact Hv.
  - injection H as <-. cbn [player setPlayer].
    apply updatePlayerPosition_velocity. exact Hv.
  - injection H as <-. cbn [player setPlayer].
    apply handleJump_velocity. exact Hv.
  - injection H as <-. exact Hv.
  - injection H as <-. exact Hv.
  - injection H as <-. exact Hv.
  - injection H as <-. unfold handleCameraPan. destruct (isPanning g); exact Hv.
  - injection H as <-. exact Hv.
  - unfold selectBlockFromInventory in H.
    destruct (nth_error (inventory g) index); [|discriminate].
    injection H as <-. exact Hv.
  - injection H as <-. exact Hv.
Qed.

(** C9.  The vertical velocity never exceeds the jump impulse: if it is at
    most [JUMP_FORCE] = 0.15 before a sequence of events (jump button,
    frames with their jump, gravity and landing steps, and all the others),
    it is at most 0.15 after it; at the start it is 0. *)
Theorem velocity_never_exceeds_jump events :
  forall g g',
    (velocity g <= 0.15)%R ->
    run env events g = Some g' ->
    (velocity g' <= 0.15)%R /\ (forall r, velocity (initialGame r) = 0%R).
Proof.
  induction events as [|e events IH]; intros g g' Hv H; cbn [run] in H.
  - injection H as <-. split; [exact Hv | reflexivity].
  - destruct (step env g e) as [g1|] eqn:E; [|discriminate].
    apply (IH g1 g'); [|exact H].
    apply (step_velocity g e g1 Hv E).
Qed.

End GameInvariants.

(** ** Destruction sessions *)

Section Destruction.

Variable env : Env.

Lemma clickedBlockAt_in camera x y bs b hit :
  clickedBlockAt env camera x y bs = Some (b, hit) -> In b bs.
Proof.
  unfold clickedBlockAt. destruct (raycast env camera x y bs) as [|h rest]; [discriminate|].
  destruct (findBlock (object h) bs) as [c|] eqn:E; [|discriminate].
  intros H. injection H as <- _. apply (findBlock_some _ _ _ E).
Qed.


Lemma startDestructionProgress_state x y g :
  isDestructionInProgress (startDestructionProgress env x y g) = true
  /\ destructionProgress (startDestructionProgress env x y g) = Timing 0 x y.
Proof.
  unfold startDestructionProgress.
  destruct (highlightBlockAtPosition_frame env x y (setDestruction g true AtRest))
    as (_ & _ & _ & _ & H & _).
  cbn [isDestructionInProgress destructionProgress setDestruction] in *.
  split; [exact H | reflexivity].
Qed.



Lemma elapse_completes ms g e x y :
  destructionProgress g = Timing e x y ->
  (DESTRUCTION_DURATION <= e + ms)%nat ->
  elapse env ms g
  = destroyBlockAtPosition env x y (setDestruction g (isDestructionInProgress g) Complete).
Proof.
  intros Hp Hle. unfold elapse. rewrite Hp.
  destruct (Nat.leb_spec DESTRUCTION_DURATION (e + ms)); [reflexivity | lia].
Qed.




(** C10.  [destroyBlockAtPosition] resets the progress state and removes
    the block that a raycast at its point meets first with the camera and
    the blocks of that moment; the highlighted block and the session state
    play no part, and without a hit no block is removed.  Both completions
    of a session end in this call: the release of the long press at the
    point of release, the end of the animation at the point of its start. *)
Theorem destroy_uses_fresh_raycast x y g camera :
  cameraRef (player g) = Some camera ->
  isDestructionInProgress (destroyBlockAtPosition env x y g) = false
  /\ destructionProgress (destroyBlockAtPosition env x y g) = AtRest
  /\ match raycast env camera x y (blocks (world g)) with
     | [] => blocks (world (destroyBlockAtPosition env x y g)) = blocks (world g)
     | hit :: _ =>
         match findBlock (object hit) (blocks (world g)) with
         | Some clickedBlock =>
             blocks (world (destroyBlockAtPosition env x y g))
             = filter (fun block => negb (sameBlock block clickedBlock))
                      (blocks (world g))
         | None => blocks (world (destroyBlockAtPosition env x y g)) = blocks (world g)
         end
     end
  /\ (forall highlighted inProgress progress,
         blocks (world (destroyBlockAtPosition
                          env x y
                          (setDestruction (setHighlightedBlockRef g highlighted)
                                          inProgress progress)))
         = blocks (world (destroyBlockAtPosition env x y g)))
  /\ step env g (LongPressEnd STATE_END x y) = Some (destroyBlockAtPosition env x y g)
  /\ (forall elapsed tx ty ms,
         destructionProgress g = Timing elapsed tx ty ->
         (800 <= elapsed + ms)%nat ->
         blocks (world (elapse env ms g))
         = blocks (world (destroyBlockAtPosition env tx ty g))).
Proof.
  intros Hc.
  destruct (destroyBlockAtPosition_reset env x y g camera Hc) as [H1 H2].
  split; [exact H1|]. split; [exact H2|]. split; [|split; [|split]].
  - rewrite (destroyBlockAtPosition_blocks env x y g camera Hc).
    unfold blocksAfterDestroy, clickedBlockAt.
    destruct (raycast env camera x y (blocks (world g))) as [|hit rest]; [reflexivity|].
    destruct (findBlock (object hit) (blocks (world g))); reflexivity.
  - intros h i p.
    rewrite (destroyBlockAtPosition_blocks env x y g camera Hc).
    rewrite (destroyBlockAtPosition_blocks env x y _ camera)
      by (cbn [player setDestruction setHighlightedBlockRef]; exact Hc).
    reflexivity.
  - reflexivity.
  - intros e tx ty ms Hp Hle.
    rewrite (elapse_completes ms g e tx ty Hp) by (unfold DESTRUCTION_DURATION; exact Hle).
    rewrite (destroyBlockAtPosition_blocks env tx ty g camera Hc).
    rewrite (destroyBlockAtPosition_blocks env tx ty _ camera)
      by (cbn [player setDestruction]; exact Hc).
    reflexivity.
Qed.

End Destruction.

(** ** The theorems at concrete inputs *)


Lemma exampleEnvAt_trig f : quarterTurnTrig (exampleEnvAt f).
Proof. repeat split. Defined.

Lemma face_adjacent_placement_witness :
  (exists g' newBlock,
      addBlockAtPosition exampleEnv 200 400 (exampleGame [exampleBlock 0 0 0 0 grass])
      = Some g'
      /\ blocks (world g') = [exampleBlock 0 0 0 0 grass; newBlock]
      /\ type newBlock = grass
      /\ position newBlock = (V3 0 1 0)%float)
  /\ (exists g' newBlock,
         addBlockAtPosition (exampleEnvAt PZ) 200 400
                            (exampleGame [turnedBlock 0 0 0 0 grass 1])
         = Some g'
         /\ blocks (world g') = [turnedBlock 0 0 0 0 grass 1; newBlock]
         /\ position newBlock = (V3 1 0 0x1p-52)%float).
Proof.
  assert (R0 : 0 <= 0 <= 3) by lia.
  assert (R1 : 0 <= 1 <= 3) by lia.
  assert (C : 0 < 64) by lia.
  split.
  - destruct (face_adjacent_placement
                exampleEnv 200 400 (exampleGame [exampleBlock 0 0 0 0 grass])
                exampleCamera (mkSlot grass 64) (exampleBlock 0 0 0 0 grass)
                (mkIntersection (mesh (exampleBlock 0 0 0 0 grass)) (Some PY)) PY
                (exampleEnvAt_trig PY) R0 eq_refl eq_refl C eq_refl eq_refl eq_refl)
      as (g' & newBlock & H1 & H2 & H3 & _ & _ & H6 & _).
    exists g', newBlock. split; [exact H1|]. split; [exact H2|]. split; [exact H3|].
    exact (H6 eq_refl eq_refl).
  - destruct (face_adjacent_placement
                (exampleEnvAt PZ) 200 400 (exampleGame [turnedBlock 0 0 0 0 grass 1])
                exampleCamera (mkSlot grass 64) (turnedBlock 0 0 0 0 grass 1)
                (mkIntersection (mesh (turnedBlock 0 0 0 0 grass 1)) (Some PZ)) PZ
                (exampleEnvAt_trig PZ) R1 eq_refl eq_refl C eq_refl eq_refl eq_refl)
      as (g' & newBlock & H1 & H2 & _ & _ & _ & _ & H7).
    exists g', newBlock. split; [exact H1|]. split; [exact H2|].
    exact (H7 eq_refl eq_refl eq_refl).
Defined.

Lemma placement_occupied_noop_witness :
  addBlockAtPosition
    exampleEnv 200 400
    (exampleGame [exampleBlock 0 0 0 0 grass; exampleBlock 1 0 1 0 stone])
  = Some (exampleGame [exampleBlock 0 0 0 0 grass; exampleBlock 1 0 1 0 stone])
  /\ exists g' newBlock,
      addBlockAtPosition
        (exampleEnvAt PZ) 200 400
        (exampleGame [turnedBlock 0 0 0 0 grass 1; exampleBlock 1 1 0 0 stone])
      = Some g'
      /\ blocks (world g')
         = [turnedBlock 0 0 0 0 grass 1; exampleBlock 1 1 0 0 stone; newBlock]
      /\ position newBlock = (V3 1 0 0x1p-52)%float
      /\ nth_error (inventory g') 0 = Some (mkSlot grass 63).
Proof.
  split.
  - destruct (placement_occupied_noop
                exampleEnv 200 400
                (exampleGame [exampleBlock 0 0 0 0 grass; exampleBlock 1 0 1 0 stone])
                exampleCamera (mkSlot grass 64) (exampleBlock 0 0 0 0 grass)
                (mkIntersection (mesh (exampleBlock 0 0 0 0 grass)) (Some PY)) PY
                eq_refl eq_refl eq_refl eq_refl) as [H _].
    exact (proj1 (H eq_refl)).
  - destruct (placement_occupied_noop
                (exampleEnvAt PZ) 200 400
                (exampleGame [turnedBlock 0 0 0 0 grass 1; exampleBlock 1 1 0 0 stone])
                exampleCamera (mkSlot grass 64) (turnedBlock 0 0 0 0 grass 1)
                (mkIntersection (mesh (turnedBlock 0 0 0 0 grass 1)) (Some PZ)) PZ
                eq_refl eq_refl eq_refl eq_refl) as [_ H].
    assert (C : 0 < 64) by lia.
    destruct (H (exampleBlock 1 1 0 0 stone) (exampleEnvAt_trig PZ) C
                eq_refl eq_refl eq_refl (or_intror (or_introl eq_refl)) eq_refl)
      as (g' & newBlock & H1 & H2 & H3 & H4).
    { repeat constructor. }
    exists g', newBlock. split; [exact H1|]. split; [exact H2|].
    split; [exact H3 | exact H4].
Defined.

Lemma initialInventory_nonNegative : nonNegative initialInventory.
Proof. repeat constructor; discriminate. Defined.

Lemma moveDirection_length_witness :
  length (moveDirection (mkMoveState true false false true 0 0 false)
                        (V3 0 0 (-1))%R (V3 1 0 0)%R) = 0.1%R
  /\ length (moveDirection (mkMoveState true false false false 0 0 false)
                           (V3 0 0 (-1))%R (V3 1 0 0)%R) = 0.1%R
  /\ length (moveDirection (mkMoveState true true false false 0 0 false)
                           (V3 0 0 (-1))%R (V3 1 0 0)%R) = 0%R.
Proof.
  split; [|split].
  - destruct (moveDirection_length (mkMoveState true false false true 0 0 false)
                                   (V3 0 0 (-1))%R (V3 1 0 0)%R)
      as (_ & _ & _ & _ & H).
    apply H; cbn [vx vy vz forward backward left right];
      [ring | ring | ring | left; discriminate].
  - destruct (moveDirection_length (mkMoveState true false false false 0 0 false)
                                   (V3 0 0 (-1))%R (V3 1 0 0)%R)
      as (_ & _ & _ & _ & H).
    apply H; cbn [vx vy vz forward backward left right];
      [ring | ring | ring | left; discriminate].
  - destruct (moveDirection_length (mkMoveState true true false false 0 0 false)
                                   (V3 0 0 (-1))%R (V3 1 0 0)%R)
      as (_ & _ & _ & H & _).
    apply (H true false).
Defined.

Lemma inventory_never_negative_witness :
  nonNegative (inventory (exampleGame [exampleBlock 0 0 0 0 grass]))
  /\ exists g',
      run exampleEnv [Tap STATE_END 200 400; Tap STATE_END 200 400]
          (exampleGame [exampleBlock 0 0 0 0 grass])
      = Some g'
      /\ nonNegative (inventory g').
Proof.
  split; [exact initialInventory_nonNegative|].
  eexists. split; [reflexivity|].
  eapply (inventory_never_negative
            exampleEnv [Tap STATE_END 200 400; Tap STATE_END 200 400]
            (exampleGame [exampleBlock 0 0 0 0 grass]) _
            initialInventory_nonNegative eq_refl).
Defined.

Lemma velocity_never_exceeds_jump_witness :
  (velocity (exampleGame []) <= 0.15)%R
  /\ exists g',
      run exampleEnv [JumpButton true; AnimationFrame; JumpButton false]
          (exampleGame [])
      = Some g'
      /\ (velocity g' <= 0.15)%R.
Proof.
  assert (H : (velocity (exampleGame []) <= 0.15)%R).
  { unfold velocity. cbn [exampleGame examplePlayer player playerVelocity vy]. lra. }
  split; [exact H|].
  eexists. split; [reflexivity|].
  eapply (velocity_never_exceeds_jump
            exampleEnv [JumpButton true; AnimationFrame; JumpButton false]
            (exampleGame []) _ H eq_refl).
Defined.




(** The long press is still active when the animation ends; its release
    calls [destroyBlockAtPosition] again and a second block goes. *)
Example release_after_completion_removes_second_block :
  exists g1 g2,
    run exampleEnv [LongPressStart 200 400; Elapse 800]
        (exampleGame [exampleBlock 0 0 0 0 grass; exampleBlock 1 0 0 (-1) stone])
    = Some g1
    /\ blocks (world g1) = [exampleBlock 1 0 0 (-1) stone]
    /\ run exampleEnv [LongPressEnd STATE_END 200 400; LongPressFinalize] g1 = Some g2
    /\ blocks (world g2) = [].
Proof.
  eexists. eexists. split; [reflexivity|]. split; [reflexivity|].
  split; reflexivity.
Qed.

Lemma destroy_uses_fresh_raycast_witness :
  isDestructionInProgress
    (destroyBlockAtPosition exampleEnv 200 400 (exampleGame [exampleBlock 0 0 0 0 grass]))
  = false
  /\ blocks (world (destroyBlockAtPosition
                      exampleEnv 200 400 (exampleGame [exampleBlock 0 0 0 0 grass])))
     = []
  /\ blocks (world (destroyBlockAtPosition exampleEnv 200 400 (exampleGame [])))
     = [].
Proof.
  destruct (destroy_uses_fresh_raycast
              exampleEnv 200 400 (exampleGame [exampleBlock 0 0 0 0 grass])
              exampleCamera eq_refl) as (H1 & _ & H3 & _).
  destruct (destroy_uses_fresh_raycast
              exampleEnv 200 400 (exampleGame []) exampleCamera eq_refl)
    as (_ & _ & H3' & _).
  split; [exact H1|]. split; [exact H3 | exact H3'].
Defined.

(** * Further properties *)

(** ** The coordinate hash and the heights *)

Lemma Qfloor_lt (q : Q) (n : Z) : (q < inject_Z n)%Q -> Qfloor q < n.
Proof.
  intros H. pose proof (Qfloor_le q) as L.
  rewrite Zlt_Qlt. eapply Qle_lt_trans; [exact L | exact H].
Qed.



(** X2.  With a sine in [-1, 1] every column height lies between -6 and 8,
    the dirt depth between 1 and 5, and under a stone top it is 1. *)
Theorem column_dimensions Math_sin x z :
  (forall t, -1 <= Math_sin t <= 1)%Q ->
  -6 <= height Math_sin x z <= 8
  /\ 1 <= dirtDepth Math_sin x z <= 5
  /\ (topBlockType Math_sin x z = grass \/ dirtDepth Math_sin x z = 1).
Proof.
  intros Hsin. split; [apply height_range; exact Hsin|].
  split; [apply dirtDepth_range; exact Hsin|].
  unfold dirtDepth.
  destruct (topBlockType_cases Math_sin x z) as [E|E]; rewrite E;
    [left | right]; reflexivity.
Qed.

Lemma column_dimensions_witness :
  -6 <= height zeroSine 0 0 <= 8
  /\ 1 <= dirtDepth zeroSine 0 0 <= 5
  /\ (topBlockType zeroSine 0 0 = grass \/ dirtDepth zeroSine 0 0 = 1).
Proof. apply (column_dimensions zeroSine 0 0 zeroSine_range). Defined.

(** ** The ground of the terrain *)

Lemma fillCells_types Math_sin x z c :
  In c (fillCells Math_sin x z) ->
  snd c = grass \/ snd c = dirt \/ snd c = stone.
Proof.
  unfold fillCells. intros [<-|H].
  - cbn [snd]. destruct (topBlockType_cases Math_sin x z) as [-> | ->]; auto.
  - apply in_app_or in H. destruct H as [H|H]; apply in_map_iff in H;
      destruct H as (y & <- & _); cbn [snd]; [auto|].
    destruct (Qgtb _ _); auto.
Qed.

Lemma fillCells_cover Math_sin x z y :
  bedrockLevel <= y <= height Math_sin x z ->
  exists t, In (V3 x y z, t) (fillCells Math_sin x z).
Proof.
  intros Hy. unfold fillCells. unfold bedrockLevel in *.
  set (h := height Math_sin x z) in *. set (d := dirtDepth Math_sin x z).
  destruct (Z.eq_dec y h) as [E|NE].
  - exists (topBlockType Math_sin x z). left. rewrite E. reflexivity.
  - destruct (Z_le_gt_dec (h - y) d) as [Hd|Hd].
    + exists dirt. right. apply in_or_app. left.
      apply in_map_iff. exists (h - y). split.
      * f_equal. f_equal. lia.
      * apply in_zrange. lia.
    + exists (if Qgtb (noise3D Math_sin x (h - y) z) 0.9 then dirt else stone).
      right. apply in_or_app. right.
      apply in_map_iff. exists (h - y). split.
      * f_equal. f_equal. lia.
      * apply in_zrange. lia.
Qed.

(** X3.  Every column of the generated world is solid from the bedrock level
    up to its height: each cell [(x, y, z)] with [-7 <= y <= height] holds a
    block of type grass, dirt or stone. *)
Theorem column_is_solid Math_sin r x y z :
  0 <= x < WORLD_SIZE -> 0 <= z < WORLD_SIZE ->
  -7 <= y <= height Math_sin x z ->
  exists b,
    In b (blocks (generateTerrain Math_sin (emptyWorld r)))
    /\ position b = V3 x y z
    /\ (type b = grass \/ type b = dirt \/ type b = stone).
Proof.
  intros Hx Hz Hy.
  destruct (fillCells_cover Math_sin x z y Hy) as (t & Ht).
  pose proof (fillCells_types Math_sin x z _ Ht) as Htype. cbn [snd] in Htype.
  assert (Hin : In (V3 x y z, t) (content (generateTerrain Math_sin (emptyWorld r)))).
  { apply generateTerrain_has_column with (x := x) (z := z); try assumption.
    unfold columnCells. apply in_or_app. left. exact Ht. }
  apply in_content_block in Hin. destruct Hin as (b & Hb & Hp & Ht').
  cbn [fst snd] in Hp, Ht'. exists b. split; [exact Hb|]. split; [exact Hp|].
  rewrite Ht'. exact Htype.
Qed.

Lemma column_is_solid_witness :
  exists b,
    In b (blocks (generateTerrain zeroSine (emptyWorld halfDraws)))
    /\ position b = V3 4 (-3) 7
    /\ (type b = grass \/ type b = dirt \/ type b = stone).
Proof.
  apply (column_is_solid zeroSine halfDraws 4 (-3) 7);
    [unfold WORLD_SIZE; lia | unfold WORLD_SIZE; lia |].
  vm_compute. split; discriminate.
Defined.

Lemma columnCells_ground Math_sin x z :
  filter isGround (columnCells Math_sin x z) = columnCells Math_sin x z.
Proof.
  apply filter_keeps_all. intros c Hc. unfold columnCells in Hc.
  apply in_app_or in Hc. destruct Hc as [Hc|[<-|[]]]; [|reflexivity].
  unfold isGround.
  destruct (fillCells_types Math_sin x z c Hc) as [-> | [-> | ->]]; reflexivity.
Qed.

Lemma terrain_ground_cells Math_sin r :
  filter isGround (content (generateTerrain Math_sin (emptyWorld r)))
  = flat_map (fun p => columnCells Math_sin (fst p) (snd p)) columns.
Proof.
  destruct (generateTerrain_built Math_sin (emptyWorld r)) as (cells & E & B).
  rewrite E. cbn [content emptyWorld blocks map app].
  assert (HT : forall c, isTreeCell c -> isGround c = false).
  { intros c [Hc|Hc]; unfold isGround; rewrite Hc; reflexivity. }
  rewrite (built_filter _ _ _ _ _ HT B).
  apply flat_map_ext. intros [x z]. cbn [fst snd]. apply columnCells_ground.
Qed.

(** X4.  [Math.random] decides only the trees: the cells and types of all
    the other blocks of the generated world, in array order, are the same
    for every random stream. *)
Theorem ground_independent_of_random Math_sin r1 r2 :
  filter isGround (content (generateTerrain Math_sin (emptyWorld r1)))
  = filter isGround (content (generateTerrain Math_sin (emptyWorld r2))).
Proof.
  rewrite !terrain_ground_cells. reflexivity.
Qed.

(** ** Random draws, createBlock and trees *)

Lemma createBlockPattern_draws t r : draws (createBlockPattern t r) = draws r.
Proof.
  unfold createBlockPattern, random, skip. cbn [draws cursor].
  destruct (Qgtb _ _); [reflexivity|].
  destruct t; cbn [draws cursor]; try reflexivity;
    destruct (Qgtb _ _); reflexivity.
Qed.

Lemma createBlock_draws {A} (pos : Vector3 A) t w :
  draws (rng (snd (createBlock pos t w))) = draws (rng w).
Proof.
  unfold createBlock.
  destruct t; cbn [random skip draws cursor snd rng];
    rewrite createBlockPattern_draws; reflexivity.
Qed.

Lemma createBlock_mesh {A} (pos : Vector3 A) t w :
  fst (createBlock pos t w)
  = mkMesh (nextMesh w) pos
           (match t with
            | bedrock => 0
            | _ => Qfloor (draws (rng w)
                             ((match t with grass => 6 | _ => 1 end)
                              + cursor (rng w))%nat * 4)%Q
            end).
Proof.
  unfold createBlock. destruct t; reflexivity.
Qed.

Lemma unit_floor (q : Q) (n : Z) :
  (0 <= q)%Q -> (q < 1)%Q -> 0 < n ->
  0 <= Qfloor (q * inject_Z n)%Q < n.
Proof.
  intros H0 H1 Hn.
  assert (Hq : (inject_Z 0 < inject_Z n)%Q) by (rewrite <- Zlt_Qlt; exact Hn).
  change (inject_Z 0) with 0%Q in Hq.
  split.
  - change 0 with (Qfloor 0). apply Qfloor_resp_le. nra.
  - apply Qfloor_lt. nra.
Qed.

(** X7.  [createBlock] pushes exactly one block, with the position and type
    asked for, on a mesh that is new (its identity is the counter's value)
    and carries a copy of the position; the random stream is only advanced;
    a bedrock mesh is never rotated, and with draws in [0, 1) every other
    mesh is rotated by 0, 1, 2 or 3 quarter turns. *)
Theorem createBlock_pushes_one {A} (pos : Vector3 A) t w :
  unitDraws (rng w) ->
  exists b,
    blocks (snd (createBlock pos t w)) = blocks w ++ [b]
    /\ position b = pos /\ type b = t
    /\ mesh b = fst (createBlock pos t w)
    /\ meshPosition (mesh b) = pos
    /\ meshId (mesh b) = nextMesh w
    /\ nextMesh (snd (createBlock pos t w)) = S (nextMesh w)
    /\ draws (rng (snd (createBlock pos t w))) = draws (rng w)
    /\ 0 <= rotY (mesh b) <= 3
    /\ (t = bedrock -> rotY (mesh b) = 0).
Proof.
  intros Hu. exists (mkBlock pos t (fst (createBlock pos t w))).
  destruct (createBlock_nextMesh pos t w) as [Hn Hm].
  split; [apply createBlock_blocks|]. cbn [position type mesh].
  repeat (split; [first [reflexivity | exact Hm | exact Hn
                        | apply createBlock_draws
                        | rewrite createBlock_mesh; reflexivity]|]).
  rewrite createBlock_mesh. cbn [rotY]. split.
  - destruct t; try lia;
      match goal with
      | |- context [draws (rng w) ?n] =>
          destruct (Hu n) as [H0 H1];
          pose proof (unit_floor (draws (rng w) n) 4 H0 H1 eq_refl)
      end;
      match goal with H : _ <= Qfloor _ < _ |- _ => change (inject_Z 4) with 4%Q in H end;
      lia.
  - intros ->. reflexivity.
Qed.

Lemma createBlock_pushes_one_witness :
  exists b,
    blocks (snd (createBlock (V3 1 2 3) stone (emptyWorld halfDraws))) = [] ++ [b]
    /\ position b = V3 1 2 3 /\ type b = stone
    /\ rotY (mesh b) = 2.
Proof.
  assert (Hu : unitDraws (rng (emptyWorld (A := Z) halfDraws))).
  { intros n. split; discriminate || reflexivity. }
  destruct (createBlock_pushes_one (V3 1 2 3) stone (emptyWorld halfDraws) Hu)
    as (b & H1 & H2 & H3 & H4 & _).
  exists b. split; [exact H1|]. split; [exact H2|]. split; [exact H3|].
  rewrite H4. reflexivity.
Defined.

Lemma grows_fold_in {A} P (step : World Z -> A -> World Z) (l : list A) :
  (forall w a, In a l -> grows P w (step w a)) ->
  forall w, grows P w (fold_left step l w).
Proof.
  induction l as [|a l IH]; intros Hstep w; cbn [fold_left].
  - apply grows_refl; reflexivity.
  - eapply grows_trans; [apply Hstep; left; reflexivity|].
    apply IH. intros w' a' Ha'. apply Hstep. right; exact Ha'.
Qed.

Lemma fold_createBlock_draws (pos : Z -> Cell) (ty : Z -> BlockType) l :
  forall w,
    draws (rng (fold_left (fun w y => snd (createBlock (pos y) (ty y) w)) l w))
    = draws (rng w).
Proof.
  induction l as [|y l IH]; intros w; cbn [fold_left]; [reflexivity|].
  rewrite IH. apply createBlock_draws.
Qed.


Lemma leafCell_leafOf x z base ls lr y lx w lz :
  -2 <= lx <= 2 -> -2 <= lz <= 2 -> 2 <= ls <= 4 -> 0 <= y <= 2 ->
  grows (leafOf x z base) w (leafCell x z base ls lr y lx w lz).
Proof.
  intros Hlx Hlz Hls Hy. unfold leafCell, random.
  destruct (_ >? _); [apply grows_refl; reflexivity|].
  destruct (Qgtb _ 0.8); [apply grows_refl; reflexivity|].
  eapply grows_trans; [|apply grows_createBlock]; [apply grows_refl; reflexivity|].
  unfold leafOf, BLOCK_SIZE. cbn [fst snd vx vy vz].
  split; [reflexivity|]. lia.
Qed.

Lemma leafLayer_leafOf x z base ls lr lh w y :
  0 <= lr <= 2 -> 2 <= ls <= 4 -> 0 <= y <= 2 ->
  grows (leafOf x z base) w (leafLayer x z base ls lr lh w y).
Proof.
  intros Hlr Hls Hy. unfold leafLayer.
  set (layerRadius := if (y =? 0) || (y =? lh - 1) then Z.max 1 (lr - 1) else lr).
  assert (Hr : layerRadius <= 2).
  { unfold layerRadius. destruct (_ || _); lia. }
  clearbody layerRadius.
  apply grows_fold_in. intros w1 lx Hlx. apply grows_fold_in. intros w2 lz Hlz.
  apply in_zrange in Hlx, Hlz.
  apply leafCell_leafOf; lia.
Qed.

Lemma leafCell_draws x z base ls lr y lx w lz :
  draws (rng (leafCell x z base ls lr y lx w lz)) = draws (rng w).
Proof.
  unfold leafCell, random.
  destruct (_ >? _); [reflexivity|].
  destruct (Qgtb _ 0.8); [reflexivity|].
  rewrite createBlock_draws. reflexivity.
Qed.

Lemma fold_left_draws {A} (step : World Z -> A -> World Z) D :
  (forall w a, draws (rng w) = D -> draws (rng (step w a)) = D) ->
  forall l w, draws (rng w) = D -> draws (rng (fold_left step l w)) = D.
Proof.
  intros Hstep l. induction l as [|a l IH]; intros w H; cbn [fold_left]; [exact H|].
  apply IH. apply Hstep. exact H.
Qed.

Lemma leaves_draws x z base ls lr lh l w :
  draws (rng (fold_left (leafLayer x z base ls lr lh) l w)) = draws (rng w).
Proof.
  apply fold_left_draws; [|reflexivity].
  intros w1 y H1. unfold leafLayer.
  apply fold_left_draws; [|exact H1]. intros w2 lx H2.
  apply fold_left_draws; [|exact H2]. intros w3 lz H3.
  rewrite leafCell_draws. exact H3.
Qed.

Lemma generateTree_draws x z base w :
  draws (rng (generateTree x z base w)) = draws (rng w).
Proof.
  unfold generateTree, random. cbv beta iota zeta.
  rewrite leaves_draws. cbn [rng draws].
  rewrite fold_createBlock_draws
    with (pos := fun y => V3 (x * BLOCK_SIZE) (base + y + 1) (z * BLOCK_SIZE))
         (ty := fun _ => wood).
  reflexivity.
Qed.

(** The cells of a tree: the trunk, then the leaves. *)
Lemma generateTree_cells x z baseHeight w :
  unitDraws (rng w) ->
  exists trunkHeight leafCells,
    3 <= trunkHeight <= 5
    /\ content (generateTree x z baseHeight w)
       = content w
         ++ map (fun y => (V3 x (baseHeight + y + 1) z, wood))
                (zrange 0 (trunkHeight - 1))
         ++ leafCells
    /\ Forall (leafOf x z baseHeight) leafCells.
Proof.
  intros Hu. unfold generateTree, random, BLOCK_SIZE. cbv beta iota zeta.
  rewrite !Z.mul_1_r.
  set (t := draws (rng w) (cursor (rng w))).
  set (trunkHeight := Qfloor (t * 3) + 3).
  assert (Ht : 3 <= trunkHeight <= 5).
  { destruct (Hu (cursor (rng w))) as [H0 H1].
    pose proof (unit_floor t 3 H0 H1 eq_refl) as H.
    change (inject_Z 3) with 3%Q in H. unfold trunkHeight. lia. }
  set (w1 := fold_left _ (zrange 0 (trunkHeight - 1)) _).
  assert (E1 : content w1
               = content w ++ map (fun y => (V3 x (baseHeight + y + 1) z, wood))
                                  (zrange 0 (trunkHeight - 1))).
  { unfold w1.
    rewrite (content_fold_createBlock
               (fun y => V3 x (baseHeight + y + 1) z) (fun _ => wood)).
    reflexivity. }
  assert (D1 : draws (rng w1) = draws (rng w)).
  { unfold w1.
    rewrite (fold_createBlock_draws
               (fun y => V3 x (baseHeight + y + 1) z) (fun _ => wood)).
    reflexivity. }
  clearbody w1. cbn [rng draws cursor].
  set (a := draws (rng w1) (cursor (rng w1))).
  set (b := draws (rng w1) (S (cursor (rng w1)))).
  set (leafRadius := Qfloor (a * 1) + 2).
  set (leafHeight := Qfloor (b * 2) + 2).
  assert (Ha : leafRadius = 2).
  { unfold leafRadius, a. rewrite D1. destruct (Hu (cursor (rng w1))) as [H0 H1].
    pose proof (unit_floor _ 1 H0 H1 eq_refl) as H.
    change (inject_Z 1) with 1%Q in H. lia. }
  assert (Hb : 2 <= leafHeight <= 3).
  { unfold leafHeight, b. rewrite D1. destruct (Hu (S (cursor (rng w1)))) as [H0 H1].
    pose proof (unit_floor _ 2 H0 H1 eq_refl) as H.
    change (inject_Z 2) with 2%Q in H. lia. }
  clearbody leafRadius leafHeight.
  match goal with
  | |- exists _ _, _ /\ content (fold_left ?f ?l ?w0) = _ /\ _ =>
      assert (G : grows (leafOf x z baseHeight) w0 (fold_left f l w0))
  end.
  { apply grows_fold_in. intros w2 y Hy. apply in_zrange in Hy.
    apply leafLayer_leafOf; lia. }
  destruct G as (leafCells & E & F).
  exists trunkHeight, leafCells. split; [exact Ht|]. split; [|exact F].
  rewrite E. change (content {| blocks := blocks w1; nextMesh := nextMesh w1;
                                rng := _ |}) with (content w1).
  rewrite E1, <- app_assoc. reflexivity.
Qed.

(** X5.  With draws in [0, 1) a tree is a trunk of 3, 4 or 5 wood blocks
    stacked on the cell above the ground of its column, followed by leaves
    that stay within two cells of the trunk horizontally and between 2 and 6
    cells above the ground. *)
Theorem generateTree_shape x z baseHeight w :
  unitDraws (rng w) ->
  exists trunkHeight leafCells,
    3 <= trunkHeight <= 5
    /\ content (generateTree x z baseHeight w)
       = content w
         ++ map (fun y => (V3 x (baseHeight + y + 1) z, wood))
                (zrange 0 (trunkHeight - 1))
         ++ leafCells
    /\ Forall (leafOf x z baseHeight) leafCells.
Proof. apply generateTree_cells. Qed.

Lemma halfDraws_unit : unitDraws halfDraws.
Proof. intros n. split; [discriminate | reflexivity]. Defined.

Lemma generateTree_shape_witness :
  exists trunkHeight leafCells,
    3 <= trunkHeight <= 5
    /\ content (generateTree 4 5 1 (emptyWorld halfDraws))
       = map (fun y => (V3 4 (1 + y + 1) 5, wood)) (zrange 0 (trunkHeight - 1))
         ++ leafCells
    /\ Forall (leafOf 4 5 1) leafCells.
Proof.
  apply (generateTree_shape 4 5 1 (emptyWorld halfDraws) halfDraws_unit).
Defined.

(** ** The footprint of the terrain *)

Lemma leafOf_inFootprint x z base c :
  2 < x < WORLD_SIZE - 3 -> 2 < z < WORLD_SIZE - 3 ->
  leafOf x z base c -> inFootprint c.
Proof.
  unfold leafOf, inFootprint, WORLD_SIZE. intros Hx Hz (_ & H1 & H2 & _). lia.
Qed.

Lemma tree_stage_draws (cond : bool) x z h w4 :
  draws (rng (if cond
              then
                let (p, r) := random (rng w4) in
                let w := mkWorld (blocks w4) (nextMesh w4) r in
                if Qltb p 0.05%Q then generateTree x z h w else w
              else w4))
  = draws (rng w4).
Proof.
  destruct cond; [|reflexivity].
  unfold random. cbv beta iota zeta.
  destruct (Qltb _ _); [rewrite generateTree_draws|]; reflexivity.
Qed.

Lemma ground_stage_draws Math_sin x w z :
  draws (rng (snd (createBlock
                     (V3 (x * BLOCK_SIZE) bedrockLevel (z * BLOCK_SIZE)) bedrock
                     (fold_left
                        (fun w y =>
                           let blockType :=
                             if Qgtb (noise3D Math_sin x y z) 0.9%Q then dirt else stone in
                           snd (createBlock
                                  (V3 (x * BLOCK_SIZE) (height Math_sin x z - y)
                                      (z * BLOCK_SIZE))
                                  blockType w))
                        (zrange (dirtDepth Math_sin x z + 1)
                                (Z.abs (bedrockLevel - height Math_sin x z)))
                        (fold_left
                           (fun w y =>
                              snd (createBlock
                                     (V3 (x * BLOCK_SIZE) (height Math_sin x z - y)
                                         (z * BLOCK_SIZE))
                                     dirt w))
                           (zrange 1 (dirtDepth Math_sin x z))
                           (snd (createBlock
                                   (V3 (x * BLOCK_SIZE) (height Math_sin x z)
                                       (z * BLOCK_SIZE))
                                   (topBlockType Math_sin x z) w)))))))
  = draws (rng w).
Proof.
  rewrite createBlock_draws.
  rewrite (fold_createBlock_draws
             (fun y => V3 (x * BLOCK_SIZE) (height Math_sin x z - y) (z * BLOCK_SIZE))
             (fun y => if Qgtb (noise3D Math_sin x y z) 0.9 then dirt else stone)).
  rewrite (fold_createBlock_draws
             (fun y => V3 (x * BLOCK_SIZE) (height Math_sin x z - y) (z * BLOCK_SIZE))
             (fun _ => dirt)).
  apply createBlock_draws.
Qed.

Lemma generateColumn_draws Math_sin x w z :
  draws (rng (generateColumn Math_sin x w z)) = draws (rng w).
Proof.
  unfold generateColumn. rewrite tree_stage_draws. apply ground_stage_draws.
Qed.

Lemma tree_stage_footprint (top : bool) x z h w4 :
  unitDraws (rng w4) ->
  grows inFootprint w4
        (if top && (x >? 2) && (x <? WORLD_SIZE - 3) && (z >? 2) && (z <? WORLD_SIZE - 3)
         then
           let (p, r) := random (rng w4) in
           let w := mkWorld (blocks w4) (nextMesh w4) r in
           if Qltb p 0.05%Q then generateTree x z h w else w
         else w4).
Proof.
  intros Hu.
  destruct (_ && _) eqn:Hcond; [|apply grows_refl; reflexivity].
  unfold random. cbv beta iota zeta.
  destruct (Qltb _ 0.05); [|apply grows_refl; reflexivity].
  apply andb_prop in Hcond. destruct Hcond as [Hcond Hz2].
  apply andb_prop in Hcond. destruct Hcond as [Hcond Hz1].
  apply andb_prop in Hcond. destruct Hcond as [Hcond Hx2].
  apply andb_prop in Hcond. destruct Hcond as [_ Hx1].
  apply Z.gtb_lt in Hx1, Hz1. apply Z.ltb_lt in Hx2, Hz2.
  set (w5 := mkWorld (blocks w4) (nextMesh w4) _).
  assert (Hu5 : unitDraws (rng w5)) by exact Hu.
  destruct (generateTree_cells x z h w5 Hu5) as (th & leafCells & _ & E & F).
  exists (map (fun y => (V3 x (h + y + 1) z, wood)) (zrange 0 (th - 1)) ++ leafCells).
  split; [exact E|].
  apply Forall_app. split.
  - apply Forall_forall. intros c Hc. apply in_map_iff in Hc.
    destruct Hc as (y & <- & _). unfold inFootprint, WORLD_SIZE in *.
    cbn [fst vx vz]. lia.
  - eapply Forall_impl; [|exact F]. intros c Hc.
    apply (leafOf_inFootprint x z h); [lia | lia | exact Hc].
Qed.

Lemma generateColumn_footprint Math_sin x w z :
  unitDraws (rng w) ->
  0 <= x < WORLD_SIZE -> 0 <= z < WORLD_SIZE ->
  grows inFootprint w (generateColumn Math_sin x w z).
Proof.
  intros Hu Hx Hz. unfold generateColumn.
  assert (Hcell : forall y t, inFootprint (V3 (x * BLOCK_SIZE) y (z * BLOCK_SIZE), t)).
  { intros y t. unfold inFootprint, BLOCK_SIZE. cbn [fst vx vz]. lia. }
  eapply grows_trans; [|apply tree_stage_footprint].
  - eapply grows_trans; [|apply grows_createBlock; apply Hcell].
    eapply grows_trans; [|apply grows_fold; intros w' y; apply grows_createBlock; apply Hcell].
    eapply grows_trans; [|apply grows_fold; intros w' y; apply grows_createBlock; apply Hcell].
    apply grows_createBlock. apply Hcell.
  - intros n. rewrite ground_stage_draws. apply Hu.
Qed.

Lemma column_row_footprint Math_sin r x l :
  unitDraws r -> 0 <= x < WORLD_SIZE ->
  forall w,
    (forall z, In z l -> 0 <= z < WORLD_SIZE) ->
    draws (rng w) = draws r ->
    draws (rng (fold_left (generateColumn Math_sin x) l w)) = draws r
    /\ grows inFootprint w (fold_left (generateColumn Math_sin x) l w).
Proof.
  intros Hu Hx. induction l as [|z l IHl]; intros w Hl D; cbn [fold_left].
  - split; [exact D | apply grows_refl; reflexivity].
  - destruct (IHl (generateColumn Math_sin x w z)) as [D2 G2].
    + intros z' Hz'. apply Hl. right; exact Hz'.
    + rewrite generateColumn_draws. exact D.
    + split; [exact D2|]. eapply grows_trans; [|exact G2].
      apply generateColumn_footprint.
      * intros n. rewrite D. apply Hu.
      * exact Hx.
      * apply Hl. left; reflexivity.
Qed.

Lemma column_rows_footprint Math_sin r l1 l2 :
  unitDraws r ->
  (forall z, In z l2 -> 0 <= z < WORLD_SIZE) ->
  forall w,
    (forall x, In x l1 -> 0 <= x < WORLD_SIZE) ->
    draws (rng w) = draws r ->
    draws (rng (fold_left (fun w x => fold_left (generateColumn Math_sin x) l2 w) l1 w))
    = draws r
    /\ grows inFootprint w
             (fold_left (fun w x => fold_left (generateColumn Math_sin x) l2 w) l1 w).
Proof.
  intros Hu H2. induction l1 as [|x l1 IH]; intros w H1 D; cbn [fold_left].
  - split; [exact D | apply grows_refl; reflexivity].
  - destruct (column_row_footprint Math_sin r x l2 Hu (H1 x (or_introl eq_refl)) w H2 D)
      as [D1 G1].
    destruct (IH (fold_left (generateColumn Math_sin x) l2 w)) as [D2 G2].
    + intros x' Hx'. apply H1. right; exact Hx'.
    + exact D1.
    + split; [exact D2|]. eapply grows_trans; [exact G1 | exact G2].
Qed.

Lemma generateTerrain_footprint Math_sin w :
  unitDraws (rng w) -> grows inFootprint w (generateTerrain Math_sin w).
Proof.
  intros Hu.
  assert (R : forall k, In k (zrange 0 (WORLD_SIZE - 1)) -> 0 <= k < WORLD_SIZE).
  { intros k Hk. apply in_zrange in Hk. lia. }
  exact (proj2 (column_rows_footprint Math_sin (rng w) _ _ Hu R w R eq_refl)).
Qed.

(** X6.  With draws in [0, 1) every block that [generateTerrain] creates,
    the leaves of the trees included, stands on the 10 x 10 footprint of the
    world. *)
Theorem terrain_footprint Math_sin r b :
  unitDraws r ->
  In b (blocks (generateTerrain Math_sin (emptyWorld r))) ->
  0 <= vx (position b) < WORLD_SIZE /\ 0 <= vz (position b) < WORLD_SIZE.
Proof.
  intros Hu Hin.
  destruct (generateTerrain_footprint Math_sin (emptyWorld r) Hu) as (cells & E & F).
  assert (Hc : In (cellOf b) (content (generateTerrain Math_sin (emptyWorld r)))).
  { rewrite content_eq. apply in_map. exact Hin. }
  rewrite E in Hc. rewrite content_eq in Hc. cbn [emptyWorld blocks map app] in Hc.
  rewrite Forall_forall in F. apply (F (cellOf b) Hc).
Qed.

Lemma terrain_footprint_witness :
  exists b,
    In b (blocks (generateTerrain zeroSine (emptyWorld halfDraws)))
    /\ 0 <= vx (position b) < WORLD_SIZE /\ 0 <= vz (position b) < WORLD_SIZE.
Proof.
  assert (Hx : 0 <= 0 < WORLD_SIZE) by (unfold WORLD_SIZE; lia).
  assert (Hc : In (V3 0 bedrockLevel 0, bedrock) (columnCells zeroSine 0 0)).
  { unfold columnCells. apply in_or_app. right. left. reflexivity. }
  destruct (in_content_block _ _
              (generateTerrain_has_column zeroSine (emptyWorld halfDraws) 0 0
                 (V3 0 bedrockLevel 0, bedrock) Hx Hx Hc))
    as (b & Hin & _).
  exists b. split; [exact Hin|].
  apply (terrain_footprint zeroSine halfDraws b halfDraws_unit Hin).
Defined.

(** ** Frames: rotation, speed, rest and fall *)

Lemma add_zero (pos : Vec) : add pos (V3 0 0 0)%R = pos.
Proof.
  destruct pos as [a b c]. unfold add. cbn [vx vy vz]. f_equal; ring.
Qed.

Lemma moveDirection_idle m fwd rgt :
  forward m = false -> backward m = false -> left m = false -> right m = false ->
  moveDirection m fwd rgt = V3 0%R 0%R 0%R.
Proof.
  intros Hf Hb Hl Hr. unfold moveDirection. rewrite Hf, Hb, Hl, Hr.
  destruct (Rgt_dec (length (V3 0 0 0)%R) 0) as [H|H]; [|reflexivity].
  rewrite length_zero in H. lra.
Qed.

Lemma moveDirection_bound m fwd rgt :
  (length (moveDirection m fwd rgt) <= moveSpeed)%R.
Proof.
  unfold moveDirection.
  match goal with |- context [Rgt_dec (length ?e) 0] => set (d := e) end.
  destruct (Rgt_dec (length d) 0) as [Hd|Hd].
  - rewrite length_multiplyScalar by apply moveSpeed_nonneg.
    rewrite length_normalize by exact Hd. lra.
  - pose proof (length_nonneg d). pose proof moveSpeed_nonneg. lra.
Qed.

Lemma horizontal_part v :
  (vx v * vx v + vz v * vz v <= length v * length v)%R.
Proof.
  unfold length. rewrite sqrt_sqrt; nra.
Qed.

Lemma clamp_range (a : R) :
  (- (PI * 0.45) <= Rmax (- (PI * 0.45)) (Rmin (PI * 0.45) a) <= PI * 0.45)%R.
Proof.
  pose proof PI_RGT_0 as Hpi.
  unfold Rmax, Rmin.
  destruct (Rle_dec (PI * 0.45) a); destruct (Rle_dec _ _); lra.
Qed.

Section FrameFacts.

Variable env : Env.

(** X8.  After every frame the pitch of the camera lies within
    [Math.PI * 0.45] (81 degrees) of the horizon, whatever the rotation
    rates were; the yaw has turned by [rotateX], unclamped; and the camera's
    quaternion is the one of [eulerRef]. *)
Theorem pitch_stays_clamped blocks p camera :
  cameraRef p = Some camera ->
  (- (PI * 0.45) <= ex (eulerRef (updatePlayerPosition env blocks p)) <= PI * 0.45)%R
  /\ ey (eulerRef (updatePlayerPosition env blocks p))
     = (ey (eulerRef p) - rotateX (moveState p))%R
  /\ exists camera',
      cameraRef (updatePlayerPosition env blocks p) = Some camera'
      /\ quaternion camera' = eulerRef (updatePlayerPosition env blocks p).
Proof.
  intros Hc. unfold updatePlayerPosition. rewrite Hc.
  destruct (applyJump _ _ _) as [v og].
  cbn [eulerRef cameraRef ex ey]. split; [apply clamp_range|].
  split; [reflexivity|]. eexists. split; reflexivity.
Qed.

(** X9.  In one frame the camera moves horizontally by at most [moveSpeed]:
    by the movement vector of the frame, or not at all when a horizontal
    collision was flagged. *)
Theorem horizontal_speed_limit blocks p camera camera' :
  cameraRef p = Some camera ->
  cameraRef (updatePlayerPosition env blocks p) = Some camera' ->
  ((vx (cameraPosition camera') - vx (cameraPosition camera))
   * (vx (cameraPosition camera') - vx (cameraPosition camera))
   + (vz (cameraPosition camera') - vz (cameraPosition camera))
     * (vz (cameraPosition camera') - vz (cameraPosition camera))
   <= moveSpeed * moveSpeed)%R.
Proof.
  intros Hc. unfold updatePlayerPosition. rewrite Hc.
  destruct (applyJump _ _ _) as [v og]. cbn [cameraRef].
  intros H. injection H as <-. cbn [cameraPosition].
  match goal with
  | |- context [moveDirection ?m ?f ?r] => set (mv := moveDirection m f r)
  end.
  pose proof (moveDirection_bound (moveState p)) as Hb.
  match goal with
  | mv := moveDirection _ ?f ?r |- _ => specialize (Hb f r); fold mv in Hb
  end.
  pose proof (horizontal_part mv) as Hh. pose proof (length_nonneg mv) as Hn.
  pose proof moveSpeed_nonneg as Hs.
  assert (Hsq : (length mv * length mv <= moveSpeed * moveSpeed)%R) by nra.
  destruct (collided _); cbn [setY add vx vy vz].
  - replace (vx (cameraPosition camera) - vx (cameraPosition camera))%R with 0%R by ring.
    replace (vz (cameraPosition camera) - vz (cameraPosition camera))%R with 0%R by ring.
    nra.
  - replace (vx (cameraPosition camera) + vx mv - vx (cameraPosition camera))%R
      with (vx mv) by ring.
    replace (vz (cameraPosition camera) + vz mv - vz (cameraPosition camera))%R
      with (vz mv) by ring.
    lra.
Qed.

(** The collision loop on a player who is not rising and whose camera is
    above the top of every block that the collider meets. *)
Lemma collisions_landing camera collider (level : Z) blocks :
  (vy (cameraPosition camera) > IZR level + IZR BLOCK_SIZE)%R ->
  Forall (fun b => intersectsBox collider (setFromObject env b) = true ->
                   toR (vy (position b)) = IZR level) blocks ->
  forall c,
    (velocityY c <= 0)%R -> collided c = false ->
    (velocityY (fold_left (collideBlock env camera collider) blocks c) <= 0)%R
    /\ collided (fold_left (collideBlock env camera collider) blocks c) = false
    /\ (landedAt level c ->
        landedAt level (fold_left (collideBlock env camera collider) blocks c))
    /\ (Exists (fun b => intersectsBox collider (setFromObject env b) = true) blocks ->
        landedAt level (fold_left (collideBlock env camera collider) blocks c)).
Proof.
  intros Hy HF. induction HF as [|b bs Hb HF IH]; intros c Hv Hcol; cbn [fold_left].
  - split; [exact Hv|]. split; [exact Hcol|]. split; [intros L; exact L|].
    intros Hex. inversion Hex.
  - assert (Step :
        (velocityY (collideBlock env camera collider c b) <= 0)%R
        /\ collided (collideBlock env camera collider c b) = false
        /\ (landedAt level c -> landedAt level (collideBlock env camera collider c b))
        /\ (intersectsBox collider (setFromObject env b) = true ->
            landedAt level (collideBlock env camera collider c b))).
    { unfold collideBlock, landedAt.
      destruct (intersectsBox collider (setFromObject env b)) eqn:Hi.
      - rewrite (Hb eq_refl).
        assert (E1 : Rleb (velocityY c) 0 = true).
        { unfold Rleb. destruct (Rle_dec (velocityY c) 0); [reflexivity | lra]. }
        assert (E2 : Rgtb (vy (cameraPosition camera)) (IZR level + IZR BLOCK_SIZE) = true).
        { unfold Rgtb.
          destruct (Rgt_dec (vy (cameraPosition camera)) (IZR level + IZR BLOCK_SIZE));
            [reflexivity | lra]. }
        rewrite E1, E2. cbn [andb].
        destruct (rayIntersectsMesh _ _ _ _ _ _); cbn [newY velocityY collided onGround];
          (split; [lra|]); (split; [exact Hcol|]);
          (split; [intros _ | intros _]); repeat split; reflexivity.
      - destruct (rayIntersectsMesh _ _ _ _ _ _); cbn [newY velocityY collided onGround];
          (split; [exact Hv|]); (split; [exact Hcol|]);
          (split; [intros (L1 & L2 & L3) | intros Hi'; discriminate Hi']);
          repeat split; try assumption; reflexivity. }
    destruct Step as (S1 & S2 & S3 & S4).
    destruct (IH _ S1 S2) as (I1 & I2 & I3 & I4).
    split; [exact I1|]. split; [exact I2|]. split.
    + intros L. apply I3. apply S3. exact L.
    + intros Hex. inversion Hex as [b' bs' Hhere|b' bs' Hlater]; subst.
      * apply I3. apply S4. exact Hhere.
      * apply I4. exact Hlater.
Qed.

(** X10.  Landing: a player off the ground, not rising after gravity and
    with no horizontal intent, whose collider at the candidate position
    meets some block, the camera being above [level + BLOCK_SIZE] and all
    the blocks that the collider meets having their position at [level],
    ends the frame on the ground with vertical velocity 0 and the camera at
    [level + BLOCK_SIZE + PLAYER_HEIGHT / 2], at the same x and z. *)
Theorem landing_frame blocks p camera (level : Z) :
  cameraRef p = Some camera ->
  playerOnGround p = false ->
  forward (moveState p) = false -> backward (moveState p) = false ->
  left (moveState p) = false -> right (moveState p) = false ->
  (vy (playerVelocity p) - GRAVITY <= 0)%R ->
  (vy (cameraPosition camera) > IZR level + IZR BLOCK_SIZE)%R ->
  Forall (fun b =>
            intersectsBox
              (colliderAt (setY (cameraPosition camera)
                                (vy (cameraPosition camera)
                                 + (vy (playerVelocity p) - GRAVITY))%R))
              (setFromObject env b) = true ->
            toR (vy (position b)) = IZR level) blocks ->
  Exists (fun b =>
            intersectsBox
              (colliderAt (setY (cameraPosition camera)
                                (vy (cameraPosition camera)
                                 + (vy (playerVelocity p) - GRAVITY))%R))
              (setFromObject env b) = true) blocks ->
  exists camera',
    cameraRef (updatePlayerPosition env blocks p) = Some camera'
    /\ cameraPosition camera'
       = setY (cameraPosition camera) (IZR level + IZR BLOCK_SIZE + PLAYER_HEIGHT / 2)%R
    /\ vy (playerVelocity (updatePlayerPosition env blocks p)) = 0%R
    /\ playerOnGround (updatePlayerPosition env blocks p) = true.
Proof.
  intros Hc Hg Hf Hb Hl Hr Hv Hy HF HE.
  unfold updatePlayerPosition. rewrite Hc, Hg.
  rewrite (moveDirection_idle _ _ _ Hf Hb Hl Hr).
  unfold applyGravity, applyJump. rewrite andb_false_r. cbn [negb]. rewrite add_zero.
  set (cand := setY (cameraPosition camera)
                    (vy (cameraPosition camera) + (vy (playerVelocity p) - GRAVITY))%R)
    in *.
  fold (colliderAt cand).
  destruct (collisions_landing camera (colliderAt cand) level blocks Hy HF
              (mkCollision (vy cand) (vy (playerVelocity p) - GRAVITY) false false)
              Hv eq_refl) as (_ & I2 & _ & I4).
  destruct (I4 HE) as (L1 & L2 & L3).
  cbn [cameraRef playerVelocity playerOnGround setY vy].
  rewrite I2. eexists. split; [reflexivity|]. cbn [cameraPosition].
  split; [|split; [exact L2 | exact L3]].
  rewrite L1. unfold cand, setY. cbn [vx vy vz]. reflexivity.
Qed.

Lemma collisions_clear camera collider blocks :
  Forall (fun b => intersectsBox collider (setFromObject env b) = false
                   /\ rayIntersectsMesh env (cameraPosition camera) (V3 0 (-1) 0)%R 0%R
                                        (PLAYER_HEIGHT / 2 + 0.1)%R b = false) blocks ->
  forall c, fold_left (collideBlock env camera collider) blocks c = c.
Proof.
  intros HF. induction HF as [|b bs [H1 H2] HF IH]; intros c; cbn [fold_left];
    [reflexivity|].
  rewrite <- (IH c) at 2. f_equal. unfold collideBlock. rewrite H1, H2. reflexivity.
Qed.

(** X11.  Free fall: a player off the ground with no horizontal intent,
    whose collider at the candidate position meets no block and whose ground
    ray meets none, ends the frame [GRAVITY] faster and lower by the new
    velocity, at the same x and z, still off the ground. *)
Theorem free_fall_frame blocks p camera :
  cameraRef p = Some camera ->
  playerOnGround p = false ->
  forward (moveState p) = false -> backward (moveState p) = false ->
  left (moveState p) = false -> right (moveState p) = false ->
  Forall (fun b =>
            intersectsBox
              (colliderAt (setY (cameraPosition camera)
                                (vy (cameraPosition camera)
                                 + (vy (playerVelocity p) - GRAVITY))%R))
              (setFromObject env b) = false
            /\ rayIntersectsMesh env (cameraPosition camera) (V3 0 (-1) 0)%R 0%R
                                 (PLAYER_HEIGHT / 2 + 0.1)%R b = false) blocks ->
  exists camera',
    cameraRef (updatePlayerPosition env blocks p) = Some camera'
    /\ cameraPosition camera'
       = setY (cameraPosition camera)
              (vy (cameraPosition camera) + (vy (playerVelocity p) - GRAVITY))%R
    /\ vy (playerVelocity (updatePlayerPosition env blocks p))
       = (vy (playerVelocity p) - GRAVITY)%R
    /\ playerOnGround (updatePlayerPosition env blocks p) = false.
Proof.
  intros Hc Hg Hf Hb Hl Hr HF.
  unfold updatePlayerPosition. rewrite Hc, Hg.
  rewrite (moveDirection_idle _ _ _ Hf Hb Hl Hr).
  unfold applyGravity, applyJump. rewrite andb_false_r. cbn [negb]. rewrite add_zero.
  set (cand := setY (cameraPosition camera)
                    (vy (cameraPosition camera) + (vy (playerVelocity p) - GRAVITY))%R)
    in *.
  fold (colliderAt cand).
  rewrite (collisions_clear camera (colliderAt cand) blocks HF).
  cbn [collided newY velocityY onGround cameraRef playerVelocity playerOnGround setY vy].
  eexists. split; [reflexivity|]. cbn [cameraPosition].
  split; [|split; reflexivity].
  unfold cand, setY. cbn [vx vy vz]. reflexivity.
Qed.

(** X12.  There is no jump in mid-air: off the ground the jump button
    changes neither velocity nor flag, and the next frame ends with the same
    camera, velocity and flag whether the button is held or not. *)
Theorem no_jump_in_mid_air blocks p :
  playerOnGround p = false ->
  playerVelocity (handleJump true p) = playerVelocity p
  /\ playerOnGround (handleJump true p) = false
  /\ cameraRef (updatePlayerPosition env blocks (handleJump true p))
     = cameraRef (updatePlayerPosition env blocks (handleJump false p))
  /\ playerVelocity (updatePlayerPosition env blocks (handleJump true p))
     = playerVelocity (updatePlayerPosition env blocks (handleJump false p))
  /\ playerOnGround (updatePlayerPosition env blocks (handleJump true p))
     = playerOnGround (updatePlayerPosition env blocks (handleJump false p)).
Proof.
  intros Hg.
  assert (E : forall value,
             handleJump value p
             = mkPlayer (cameraRef p) (eulerRef p) (playerVelocity p) (playerOnGround p)
                 (mkMoveState (forward (moveState p)) (backward (moveState p))
                              (left (moveState p)) (right (moveState p))
                              (rotateX (moveState p)) (rotateY (moveState p)) value)).
  { intros value. unfold handleJump. rewrite Hg. reflexivity. }
  rewrite !E. cbn [playerVelocity playerOnGround].
  split; [reflexivity|]. split; [exact Hg|].
  unfold updatePlayerPosition.
  cbn [cameraRef moveState playerOnGround jump eulerRef playerVelocity rotateX rotateY].
  destruct (cameraRef p) as [camera|].
  - rewrite Hg. unfold applyJump. rewrite !andb_false_r.
    unfold moveDirection. cbn [forward backward left right].
    split; [reflexivity|]. split; reflexivity.
  - cbn [cameraRef playerVelocity playerOnGround]. split; [reflexivity|].
    split; reflexivity.
Qed.

End FrameFacts.

Lemma pitch_stays_clamped_witness :
  (- (PI * 0.45) <= ex (eulerRef (updatePlayerPosition exampleEnv [] (examplePlayer true)))
   <= PI * 0.45)%R.
Proof.
  apply (pitch_stays_clamped exampleEnv [] (examplePlayer true) exampleCamera eq_refl).
Defined.

Lemma horizontal_speed_limit_witness :
  exists camera',
    cameraRef (updatePlayerPosition exampleEnv [] (examplePlayer true)) = Some camera'
    /\ ((vx (cameraPosition camera') - vx (cameraPosition exampleCamera))
        * (vx (cameraPosition camera') - vx (cameraPosition exampleCamera))
        + (vz (cameraPosition camera') - vz (cameraPosition exampleCamera))
          * (vz (cameraPosition camera') - vz (cameraPosition exampleCamera))
        <= moveSpeed * moveSpeed)%R.
Proof.
  eexists. split; [reflexivity|].
  apply (horizontal_speed_limit exampleEnv [] (examplePlayer true) exampleCamera _ eq_refl eq_refl).
Defined.

(** The doubles 0 and 3 denote the reals 0 and 3. *)
Lemma toR_zero : toR (ofZ 0) = 0%R.
Proof.
  unfold toR.
  replace (Prim2SF (ofZ 0)) with (S754_zero false) by (vm_compute; reflexivity).
  reflexivity.
Qed.

Lemma toR_three : toR (ofZ 3) = 3%R.
Proof.
  unfold toR.
  replace (Prim2SF (ofZ 3)) with (S754_finite false 6755399441055744 (-51))
    by (vm_compute; reflexivity).
  cbn [Z.leb Z.compare Z.opp]. change (2 ^ 51) with 2251799813685248. lra.
Qed.

Lemma meets_example_block :
  intersectsBox
    (colliderAt (setY (cameraPosition exampleCamera)
                      (vy (cameraPosition exampleCamera)
                       + (vy (playerVelocity (examplePlayer false)) - GRAVITY))%R))
    (setFromObject exampleEnv (exampleBlock 0 0 3 0 stone)) = true.
Proof.
  unfold intersectsBox, colliderAt, setFromCenterAndSize, sub, add, multiplyScalar,
    Rleb, PLAYER_HEIGHT, PLAYER_WIDTH, GRAVITY.
  cbn [exampleEnv exampleEnvAt setFromObject exampleBlock turnedBlock toNumbers
       position exampleCamera cameraPosition
       examplePlayer playerVelocity setY vx vy vz boxMin boxMax].
  unfold setFromCenterAndSize, sub, add, multiplyScalar.
  cbn [vx vy vz boxMin boxMax]. rewrite toR_zero, toR_three.
  repeat match goal with
         | |- context [Rle_dec ?a ?b] => destruct (Rle_dec a b); [|exfalso; lra]
         end.
  reflexivity.
Qed.

Lemma landing_frame_witness :
  exists camera',
    cameraRef (updatePlayerPosition exampleEnv [exampleBlock 0 0 3 0 stone]
                                    (examplePlayer false)) = Some camera'
    /\ cameraPosition camera'
       = setY (V3 0 5 0)%R (IZR 3 + IZR BLOCK_SIZE + PLAYER_HEIGHT / 2)%R
    /\ playerOnGround (updatePlayerPosition exampleEnv [exampleBlock 0 0 3 0 stone]
                                            (examplePlayer false)) = true.
Proof.
  assert (Hv : (vy (playerVelocity (examplePlayer false)) - GRAVITY <= 0)%R).
  { unfold GRAVITY. cbn [examplePlayer playerVelocity vy]. lra. }
  assert (Hy : (vy (cameraPosition exampleCamera) > IZR 3 + IZR BLOCK_SIZE)%R).
  { unfold BLOCK_SIZE. cbn [exampleCamera cameraPosition vy]. lra. }
  destruct (landing_frame exampleEnv [exampleBlock 0 0 3 0 stone] (examplePlayer false)
                          exampleCamera 3
                          eq_refl eq_refl eq_refl eq_refl eq_refl eq_refl Hv Hy)
    as (camera' & H1 & H2 & _ & H4).
  { constructor; [intros _; exact toR_three | constructor]. }
  { constructor. exact meets_example_block. }
  exists camera'. split; [exact H1|]. split; [exact H2 | exact H4].
Defined.

Lemma free_fall_frame_witness :
  exists camera',
    cameraRef (updatePlayerPosition exampleEnv [] (examplePlayer false)) = Some camera'
    /\ cameraPosition camera' = setY (V3 0 5 0)%R (5 + (0 - GRAVITY))%R
    /\ playerOnGround (updatePlayerPosition exampleEnv [] (examplePlayer false)) = false.
Proof.
  destruct (free_fall_frame exampleEnv [] (examplePlayer false) exampleCamera
                            eq_refl eq_refl eq_refl eq_refl eq_refl eq_refl
                            (Forall_nil _))
    as (camera' & H1 & H2 & _ & H4).
  exists camera'. split; [exact H1|]. split; [exact H2 | exact H4].
Defined.

Lemma no_jump_in_mid_air_witness :
  playerVelocity (handleJump true (examplePlayer false))
  = playerVelocity (examplePlayer false)
  /\ playerOnGround (handleJump true (examplePlayer false)) = false.
Proof.
  destruct (no_jump_in_mid_air exampleEnv [] (examplePlayer false) eq_refl) as (H1 & H2 & _).
  split; [exact H1 | exact H2].
Defined.

(** ** Controls: the movement joystick and the camera pan *)

Lemma Rgtb_true a b : (a > b)%R -> Rgtb a b = true.
Proof. intros H. unfold Rgtb. destruct (Rgt_dec a b); [reflexivity | lra]. Qed.

Lemma Rgtb_false a b : (a <= b)%R -> Rgtb a b = false.
Proof. intros H. unfold Rgtb. destruct (Rgt_dec a b); [lra | reflexivity]. Qed.

(** X13.  The movement joystick has a dead zone of 0.2 on each axis: with
    the camera's two horizontal unit vectors orthogonal, the movement of a
    frame has length [moveSpeed] when a value passes 0.2 in absolute value,
    diagonals included, and is zero otherwise. *)
Theorem joystick_speed x y p fwd rgt :
  (vx fwd * vx fwd + vy fwd * vy fwd + vz fwd * vz fwd = 1)%R ->
  (vx rgt * vx rgt + vy rgt * vy rgt + vz rgt * vz rgt = 1)%R ->
  (vx fwd * vx rgt + vy fwd * vy rgt + vz fwd * vz rgt = 0)%R ->
  length (moveDirection (moveState (handleMovementJoystick x y p)) fwd rgt)
  = if Rgtb (-0.2) y || Rgtb y 0.2 || Rgtb (-0.2) x || Rgtb x 0.2
    then moveSpeed else 0%R.
Proof.
  intros Hf Hr Ho.
  destruct (Rgtb (-0.2) y || Rgtb y 0.2 || Rgtb (-0.2) x || Rgtb x 0.2) eqn:E.
  - apply moveDirection_speed; try assumption.
    unfold handleMovementJoystick. cbn [moveState forward backward left right].
    unfold Rgtb in *.
    destruct (Rgt_dec (-0.2) y), (Rgt_dec y 0.2), (Rgt_dec (-0.2) x), (Rgt_dec x 0.2);
      try (left; discriminate); try (right; discriminate);
      try discriminate; exfalso; lra.
  - apply orb_false_iff in E. destruct E as [E E4].
    apply orb_false_iff in E. destruct E as [E E3].
    apply orb_false_iff in E. destruct E as [E1 E2].
    rewrite moveDirection_idle.
    + apply length_zero.
    + exact E1.
    + exact E2.
    + exact E3.
    + exact E4.
Qed.

Lemma joystick_speed_witness :
  length (moveDirection (moveState (handleMovementJoystick 1 (-1) (examplePlayer true)))
                        (V3 0 0 (-1))%R (V3 1 0 0)%R)
  = if Rgtb (-0.2) (-1) || Rgtb (-1) 0.2 || Rgtb (-0.2) 1 || Rgtb 1 0.2
    then moveSpeed else 0%R.
Proof.
  apply (joystick_speed 1 (-1) (examplePlayer true) (V3 0 0 (-1))%R (V3 1 0 0)%R);
    cbn [vx vy vz]; lra.
Defined.

Section JoystickFacts.

Variable Math_atan2 : R -> R -> R.

(** X14.  The values that the joystick passes to [onMove] lie in the unit
    disc, so each is between -1 and 1 as the source's comment says, wherever
    the finger is; this needs [size > 0]. *)
Theorem onUpdate_unit_disc size eventX eventY :
  (0 < size)%R ->
  (fst (onUpdate Math_atan2 size eventX eventY)
   * fst (onUpdate Math_atan2 size eventX eventY)
   + snd (onUpdate Math_atan2 size eventX eventY)
     * snd (onUpdate Math_atan2 size eventX eventY) <= 1)%R
  /\ (-1 <= fst (onUpdate Math_atan2 size eventX eventY) <= 1)%R
  /\ (-1 <= snd (onUpdate Math_atan2 size eventX eventY) <= 1)%R.
Proof.
  intros Hs.
  assert (Disc : (fst (onUpdate Math_atan2 size eventX eventY)
                  * fst (onUpdate Math_atan2 size eventX eventY)
                  + snd (onUpdate Math_atan2 size eventX eventY)
                    * snd (onUpdate Math_atan2 size eventX eventY) <= 1)%R).
  { unfold onUpdate.
    set (tx := (eventX - size / 2)%R). set (ty := (eventY - size / 2)%R).
    set (mx := (size / 3)%R).
    assert (Hm : (0 < mx)%R) by (unfold mx; lra).
    destruct (Rgt_dec (sqrt (tx * tx + ty * ty)) mx) as [Hd|Hd]; cbn [fst snd].
    - set (a := Math_atan2 ty tx).
      replace (cos a * mx / mx)%R with (cos a) by (field; lra).
      replace (sin a * mx / mx)%R with (sin a) by (field; lra).
      pose proof (sin2_cos2 a) as Hsc. unfold Rsqr in Hsc. lra.
    - assert (Hq : (tx * tx + ty * ty <= mx * mx)%R).
      { assert (Hn : (0 <= tx * tx + ty * ty)%R) by nra.
        pose proof (sqrt_pos (tx * tx + ty * ty)) as Hp.
        rewrite <- (sqrt_sqrt _ Hn). nra. }
      replace (tx / mx * (tx / mx) + ty / mx * (ty / mx))%R
        with ((tx * tx + ty * ty) / (mx * mx))%R by (field; lra).
      apply Rmult_le_reg_r with (r := (mx * mx)%R); [nra|].
      replace ((tx * tx + ty * ty) / (mx * mx) * (mx * mx))%R
        with (tx * tx + ty * ty)%R by (field; lra).
      lra. }
  split; [exact Disc|].
  set (u := fst (onUpdate Math_atan2 size eventX eventY)) in *.
  set (v := snd (onUpdate Math_atan2 size eventX eventY)) in *.
  clearbody u v. split; split; nra.
Qed.

(** X15.  A finger within a fifteenth of the joystick's size from the
    centre on both axes moves nothing: the joystick passes values within the
    dead zone and the four intents are off. *)
Theorem joystick_dead_zone size eventX eventY p :
  (0 < size)%R ->
  (- (size / 15) <= eventX - size / 2 <= size / 15)%R ->
  (- (size / 15) <= eventY - size / 2 <= size / 15)%R ->
  forward (moveState (joystickMove Math_atan2 size eventX eventY p)) = false
  /\ backward (moveState (joystickMove Math_atan2 size eventX eventY p)) = false
  /\ left (moveState (joystickMove Math_atan2 size eventX eventY p)) = false
  /\ right (moveState (joystickMove Math_atan2 size eventX eventY p)) = false.
Proof.
  intros Hs Hx Hy. unfold joystickMove, onUpdate.
  set (tx := (eventX - size / 2)%R) in *. set (ty := (eventY - size / 2)%R) in *.
  set (mx := (size / 3)%R).
  assert (Hm : (0 < mx)%R) by (unfold mx; lra).
  assert (Hq : (sqrt (tx * tx + ty * ty) <= mx)%R).
  { rewrite <- (sqrt_square mx) by lra. apply sqrt_le_1_alt. unfold mx. nra. }
  destruct (Rgt_dec (sqrt (tx * tx + ty * ty)) mx) as [Hd|_]; [lra|].
  unfold handleMovementJoystick. cbn [moveState forward backward left right].
  assert (Ex : (tx / mx = tx * 3 / size)%R) by (unfold mx; field; lra).
  assert (Ey : (ty / mx = ty * 3 / size)%R) by (unfold mx; field; lra).
  assert (Bx : (-0.2 <= tx / mx <= 0.2)%R).
  { rewrite Ex. split.
    - apply Rmult_le_reg_r with (r := size); [lra|].
      replace (tx * 3 / size * size)%R with (tx * 3)%R by (field; lra). lra.
    - apply Rmult_le_reg_r with (r := size); [lra|].
      replace (tx * 3 / size * size)%R with (tx * 3)%R by (field; lra). lra. }
  assert (By : (-0.2 <= ty / mx <= 0.2)%R).
  { rewrite Ey. split.
    - apply Rmult_le_reg_r with (r := size); [lra|].
      replace (ty * 3 / size * size)%R with (ty * 3)%R by (field; lra). lra.
    - apply Rmult_le_reg_r with (r := size); [lra|].
      replace (ty * 3 / size * size)%R with (ty * 3)%R by (field; lra). lra. }
  repeat split; apply Rgtb_false; lra.
Qed.

End JoystickFacts.

Lemma onUpdate_unit_disc_witness :
  (-1 <= fst (onUpdate (fun _ _ => 0%R) 90 200 45) <= 1)%R.
Proof.
  assert (H : (0 < 90)%R) by lra.
  destruct (onUpdate_unit_disc (fun _ _ => 0%R) 90 200 45 H) as (_ & H1 & _). exact H1.
Defined.

Lemma joystick_dead_zone_witness :
  forward (moveState (joystickMove (fun _ _ => 0%R) 90 50 41 (examplePlayer true))) = false.
Proof.
  assert (H : (0 < 90)%R) by lra.
  assert (Hx : (- (90 / 15) <= 50 - 90 / 2 <= 90 / 15)%R) by lra.
  assert (Hy : (- (90 / 15) <= 41 - 90 / 2 <= 90 / 15)%R) by lra.
  destruct (joystick_dead_zone (fun _ _ => 0%R) 90 50 41 (examplePlayer true) H Hx Hy) as (H1 & _).
  exact H1.
Defined.


Section ControlFacts.

Variable env : Env.

(** X16.  Releasing the movement joystick stops the player and the camera:
    the next frame leaves the camera's x and z and the yaw as they were, and
    the jump intent is dropped too. *)
Theorem release_stops_player blocks p camera camera' :
  cameraRef p = Some camera ->
  cameraRef (updatePlayerPosition env blocks (handleJoystickRelease p)) = Some camera' ->
  vx (cameraPosition camera') = vx (cameraPosition camera)
  /\ vz (cameraPosition camera') = vz (cameraPosition camera)
  /\ ey (eulerRef (updatePlayerPosition env blocks (handleJoystickRelease p)))
     = ey (eulerRef p)
  /\ moveState (updatePlayerPosition env blocks (handleJoystickRelease p))
     = initialMoveState.
Proof.
  intros Hc. unfold updatePlayerPosition, handleJoystickRelease.
  cbn [cameraRef moveState eulerRef playerVelocity playerOnGround]. rewrite Hc.
  rewrite (moveDirection_idle initialMoveState _ _ eq_refl eq_refl eq_refl eq_refl).
  rewrite add_zero.
  destruct (applyJump _ _ _) as [v og]. cbn [cameraRef eulerRef moveState ey].
  intros H. injection H as <-. cbn [cameraPosition rotateX initialMoveState].
  split; [|split; [|split]].
  - destruct (collided _); reflexivity.
  - destruct (collided _); reflexivity.
  - ring.
  - reflexivity.
Qed.

Lemma updatePlayerPosition_yaw blocks p camera :
  cameraRef p = Some camera ->
  ey (eulerRef (updatePlayerPosition env blocks p))
  = (ey (eulerRef p) - rotateX (moveState p))%R
  /\ exists camera1,
      cameraRef (updatePlayerPosition env blocks p) = Some camera1
      /\ moveState (updatePlayerPosition env blocks p) = moveState p.
Proof.
  intros Hc. unfold updatePlayerPosition. rewrite Hc.
  destruct (applyJump _ _ _) as [v og]. cbn [eulerRef cameraRef moveState ey].
  split; [reflexivity|]. eexists. split; reflexivity.
Qed.

(** Frames of the render loop turn the yaw by [rotateX] each. *)
Lemma frames_yaw n : forall g camera,
  cameraRef (player g) = Some camera ->
  exists g',
    run env (repeat AnimationFrame n) g = Some g'
    /\ ey (eulerRef (player g'))
       = (ey (eulerRef (player g)) - INR n * rotateX (moveState (player g)))%R
    /\ isPanning g' = isPanning g.
Proof.
  induction n as [|n IH]; intros g camera Hc.
  - exists g. cbn [repeat run INR]. split; [reflexivity|]. split; [ring | reflexivity].
  - cbn [repeat run step].
    destruct (updatePlayerPosition_yaw (blocks (world g)) (player g) camera Hc)
      as (Hy & camera1 & Hc1 & Hm).
    destruct (IH (setPlayer g (updatePlayerPosition env (blocks (world g)) (player g)))
                 camera1 Hc1) as (g' & Hrun & He & Hp).
    exists g'. split; [exact Hrun|]. split; [|exact Hp].
    rewrite He. cbn [setPlayer player]. rewrite Hy, Hm. rewrite S_INR. ring.
Qed.

(** X17.  The camera pan: after the start of a pan and an update with
    velocity [velocityX], every frame turns the yaw by
    [velocityX * rotateSpeed * 0.01], also when no further update comes;
    after the end of the pan, and for updates that come then, frames leave
    the yaw alone. *)
Theorem camera_pan g camera velocityX velocityY n :
  cameraRef (player g) = Some camera ->
  (exists g',
      run env ([PanStart; PanUpdate velocityX velocityY] ++ repeat AnimationFrame n) g
      = Some g'
      /\ ey (eulerRef (player g'))
         = (ey (eulerRef (player g)) - INR n * (velocityX * 0.05 * 0.01))%R)
  /\ (exists g',
      run env ([PanEnd; PanUpdate velocityX velocityY] ++ repeat AnimationFrame n) g
      = Some g'
      /\ ey (eulerRef (player g')) = ey (eulerRef (player g))).
Proof.
  intros Hc. split.
  - cbn [app run step]. unfold handleCameraPan. cbn [setIsPanning isPanning player].
    match goal with
    | |- context [run env _ ?g1] =>
        destruct (frames_yaw n g1 camera Hc) as (g' & Hrun & He & _)
    end.
    exists g'. split; [exact Hrun|]. rewrite He. reflexivity.
  - cbn [app run step]. unfold handleCameraPan, stopCameraPan.
    cbn [setIsPanning setPlayer isPanning player].
    match goal with
    | |- context [run env _ ?g1] =>
        destruct (frames_yaw n g1 camera Hc) as (g' & Hrun & He & _)
    end.
    exists g'. split; [exact Hrun|]. rewrite He.
    cbn [setPlayer setIsPanning player eulerRef moveState rotateX]. ring.
Qed.

End ControlFacts.

Lemma release_stops_player_witness :
  ey (eulerRef (updatePlayerPosition exampleEnv []
                  (handleJoystickRelease (examplePlayer true))))
  = ey (eulerRef (examplePlayer true)).
Proof.
  destruct (release_stops_player exampleEnv [] (examplePlayer true) exampleCamera _ eq_refl eq_refl)
    as (_ & _ & H & _).
  exact H.
Defined.

Lemma camera_pan_witness :
  exists g',
    run exampleEnv ([PanStart; PanUpdate 100 0] ++ repeat AnimationFrame 3)
        (exampleGame []) = Some g'
    /\ ey (eulerRef (player g'))
       = (ey (eulerRef (player (exampleGame []))) - INR 3 * (100 * 0.05 * 0.01))%R.
Proof.
  destruct (camera_pan exampleEnv (exampleGame []) exampleCamera 100 0 3 eq_refl) as [H _].
  exact H.
Defined.


(** ** The inventory *)

Lemma decrementCount_length i : forall inv,
  List.length (decrementCount i inv) = List.length inv.
Proof.
  induction i as [|i IH]; intros [|s rest]; cbn [decrementCount List.length];
    try reflexivity.
  rewrite IH. reflexivity.
Qed.

Lemma decrementCount_other i : forall j inv,
  i <> j -> nth_error (decrementCount i inv) j = nth_error inv j.
Proof.
  induction i as [|i IH]; intros [|j] [|s0 rest] Hij; cbn [decrementCount nth_error];
    try reflexivity.
  - exfalso. apply Hij. reflexivity.
  - apply IH. intros E. apply Hij. rewrite E. reflexivity.
Qed.

Lemma decrementCount_total i : forall inv s,
  nth_error inv i = Some s -> totalCount (decrementCount i inv) = totalCount inv - 1.
Proof.
  induction i as [|i IH]; intros [|s0 rest] s; cbn [decrementCount nth_error];
    try discriminate.
  - intros _. cbn [totalCount fold_right count]. lia.
  - intros H. cbn [totalCount fold_right]. fold (totalCount (decrementCount i rest)).
    fold (totalCount rest). rewrite (IH rest s H). lia.
Qed.

Lemma shrinks_refl inv : shrinks inv inv.
Proof.
  unfold shrinks. induction inv as [|s rest IH]; constructor; [|exact IH].
  split; [reflexivity | lia].
Qed.

Lemma shrinks_trans inv1 inv2 inv3 :
  shrinks inv1 inv2 -> shrinks inv2 inv3 -> shrinks inv1 inv3.
Proof.
  unfold shrinks. intros H12. revert inv3.
  induction H12 as [|s1 s2 r1 r2 [Ht Hc] H12 IH]; intros inv3 H23.
  - inversion H23. constructor.
  - inversion H23 as [|s2' s3 r2' r3 [Ht' Hc'] H23']; subst.
    constructor; [|apply IH; exact H23'].
    split; [congruence | lia].
Qed.

Lemma decrementCount_shrinks i : forall inv, shrinks inv (decrementCount i inv).
Proof.
  induction i as [|i IH]; intros [|s rest]; cbn [decrementCount];
    try (apply shrinks_refl).
  - constructor; [|apply shrinks_refl]. cbn [slotType count]. split; [reflexivity | lia].
  - constructor; [|apply IH]. split; [reflexivity | lia].
Qed.

Section InventoryFacts.

Variable env : Env.

(** What [addBlockAtPosition] can return: the game as it was, or the game
    with one block created at a free cell and one item taken from the
    selected slot, which had some. *)
Lemma addBlockAtPosition_cases x y g g' :
  addBlockAtPosition env x y g = Some g' ->
  g' = g
  \/ exists slot pos,
      nth_error (inventory g) (selectedBlockIndex g) = Some slot
      /\ 0 < count slot
      /\ existsb (fun block => sameCoordinates (position block) pos)
                 (blocks (world g)) = false
      /\ g' = setInventory
                (setWorld g (snd (createBlock pos (slotType slot) (world g))))
                (decrementCount (selectedBlockIndex g) (inventory g)).
Proof.
  unfold addBlockAtPosition.
  destruct (cameraRef (player g)) as [camera|]; [|intros H; injection H as <-; left; reflexivity].
  destruct (nth_error (inventory g) (selectedBlockIndex g)) as [slot|] eqn:Hs;
    [|discriminate].
  destruct (count slot <=? 0) eqn:Hle; [intros H; injection H as <-; left; reflexivity|].
  destruct (clickedBlockAt env camera x y (blocks (world g))) as [[clickedBlock hit]|];
    [|intros H; injection H as <-; left; reflexivity].
  destruct (face hit) as [f|]; [|intros H; injection H as <-; left; reflexivity].
  destruct (existsb _ _) eqn:Hex; [intros H; injection H as <-; left; reflexivity|].
  apply Z.leb_gt in Hle.
  destruct (count slot >? 0) eqn:Hgt;
    [|exfalso; rewrite Z.gtb_ltb in Hgt; apply Z.ltb_ge in Hgt; lia].
  intros H. injection H as <-. right.
  eexists slot, _. split; [reflexivity|]. split; [exact Hle|]. split; [exact Hex|].
  reflexivity.
Qed.

Lemma handleBlockSelection_cases state x y g g' :
  handleBlockSelection env state x y g = Some g' ->
  g' = g \/ g' = highlightBlockAtPosition env x y g
  \/ addBlockAtPosition env x y g = Some g'.
Proof.
  unfold handleBlockSelection.
  destruct (cameraRef (player g)); [|intros H; injection H as <-; left; reflexivity].
  destruct (state =? STATE_END).
  - destruct (nth_error (inventory g) (selectedBlockIndex g)) as [slot|]; [|discriminate].
    destruct (count slot >? 0).
    + intros H. right. right. exact H.
    + intros H. injection H as <-. right. left. reflexivity.
  - intros H. injection H as <-. right. left. reflexivity.
Qed.

(** What an event does to the inventory and to the number of blocks: the
    inventory stays, or one item leaves the selected slot for one block. *)
Lemma step_inventory_cases g e g' :
  step env g e = Some g' ->
  inventory g' = inventory g
  \/ exists slot,
      nth_error (inventory g) (selectedBlockIndex g) = Some slot
      /\ 0 < count slot
      /\ inventory g' = decrementCount (selectedBlockIndex g) (inventory g).
Proof.
  assert (Tap_case : forall state x y,
             handleBlockSelection env state x y g = Some g' ->
             inventory g' = inventory g
             \/ exists slot,
                 nth_error (inventory g) (selectedBlockIndex g) = Some slot
                 /\ 0 < count slot
                 /\ inventory g' = decrementCount (selectedBlockIndex g) (inventory g)).
  { intros state x y H.
    destruct (handleBlockSelection_cases state x y g g' H) as [->|[->|Ha]].
    - left; reflexivity.
    - left. destruct (highlightBlockAtPosition_frame env x y g) as (_ & _ & Hi & _).
      exact Hi.
    - destruct (addBlockAtPosition_cases x y g g' Ha) as [->|(slot & pos & Hs & Hc & _ & ->)].
      + left; reflexivity.
      + right. exists slot. split; [exact Hs|]. split; [exact Hc|]. reflexivity. }
  destruct e; cbn [step]; intros H;
    try (injection H as <-; left; reflexivity).
  - exact (Tap_case _ _ _ H).
  - exact (Tap_case _ _ _ H).
  - injection H as <-. left.
    destruct (startDestructionProgress_frame env x y g) as (_ & _ & Hi & _). exact Hi.
  - left. destruct (state =? STATE_END); injection H as <-.
    + destruct (destroyBlockAtPosition_frame env x y g) as (_ & Hi & _). exact Hi.
    + destruct (cancelDestructionProgress_frame g) as (_ & _ & Hi & _). exact Hi.
  - injection H as <-. left.
    destruct (cancelDestructionProgress_frame g) as (_ & _ & Hi & _). exact Hi.
  - injection H as <-. left.
    destruct (elapse_frame env ms g) as (_ & Hi & _). exact Hi.
  - injection H as <-. left. unfold handleCameraPan. destruct (isPanning g); reflexivity.
  - left. unfold selectBlockFromInventory in H.
    destruct (nth_error (inventory g) index); [|discriminate].
    injection H as <-. reflexivity.
Qed.

(** X18.  No event refills the inventory: after any sequence of events the
    slots are the same, in the same order and with the same types, and no
    count is higher than before; destroying a block gives nothing back. *)
Theorem inventory_only_shrinks events : forall g g',
  run env events g = Some g' ->
  shrinks (inventory g) (inventory g').
Proof.
  induction events as [|e events IH]; intros g g'; cbn [run].
  - intros H. injection H as <-. apply shrinks_refl.
  - destruct (step env g e) as [g1|] eqn:Hstep; [|discriminate].
    intros H. apply shrinks_trans with (inv2 := inventory g1); [|exact (IH g1 g' H)].
    destruct (step_inventory_cases g e g1 Hstep) as [->|(slot & _ & _ & ->)].
    + apply shrinks_refl.
    + apply decrementCount_shrinks.
Qed.

(** X19.  Every block that a tap places is paid for: the number of blocks
    plus the number of items in the inventory is the same before and after
    [handleBlockSelection], whatever it did. *)
Theorem placement_costs_one_item state x y g g' :
  handleBlockSelection env state x y g = Some g' ->
  Z.of_nat (List.length (blocks (world g'))) + totalCount (inventory g')
  = Z.of_nat (List.length (blocks (world g))) + totalCount (inventory g).
Proof.
  intros H.
  destruct (handleBlockSelection_cases state x y g g' H) as [->|[->|Ha]].
  - reflexivity.
  - destruct (highlightBlockAtPosition_frame env x y g) as (_ & Hw & Hi & _).
    rewrite Hw, Hi. reflexivity.
  - destruct (addBlockAtPosition_cases x y g g' Ha) as [->|(slot & pos & Hs & Hc & _ & ->)].
    + reflexivity.
    + cbn [setInventory setWorld world inventory selectedBlockIndex].
      rewrite createBlock_blocks, length_app. cbn [List.length].
      rewrite (decrementCount_total _ _ slot Hs). lia.
Qed.

(** X20.  Selecting a slot and tapping a face, when no block has the
    coordinates that the program computes for the new block, places one
    block of the selected slot's type at those coordinates and takes exactly
    one item from that slot; every other slot is as it was.  The coordinates
    are those of the hit block plus the world normal of the face in doubles
    ([worldNormal]): above the block for the +Y face. *)
Theorem select_then_place index x y g camera slot clickedBlock hit f :
  cameraRef (player g) = Some camera ->
  nth_error (inventory g) index = Some slot ->
  0 < count slot ->
  clickedBlockAt env camera x y (blocks (world g)) = Some (clickedBlock, hit) ->
  face hit = Some f ->
  existsb (fun block =>
             sameCoordinates (position block) (placementPosition env clickedBlock f))
          (blocks (world g)) = false ->
  exists g' newBlock,
    run env [SelectBlock index; Tap STATE_END x y] g = Some g'
    /\ blocks (world g') = blocks (world g) ++ [newBlock]
    /\ type newBlock = slotType slot
    /\ position newBlock = placementPosition env clickedBlock f
    /\ nth_error (inventory g') index = Some (mkSlot (slotType slot) (count slot - 1))
    /\ (forall i, i <> index -> nth_error (inventory g') i = nth_error (inventory g) i)
    /\ (quarterTurnTrig env -> 0 <= rotY (mesh clickedBlock) <= 3 ->
        position newBlock
        = add64 (position clickedBlock) (worldNormal (rotY (mesh clickedBlock)) f)).
Proof.
  intros Hc Hs Hpos Hclick Hf Hfree.
  cbn [run step]. unfold selectBlockFromInventory. rewrite Hs.
  unfold handleBlockSelection.
  cbn [setSelectedBlockIndex player inventory selectedBlockIndex].
  rewrite Hc, Z.eqb_refl, Hs.
  assert (Hgt : (count slot >? 0) = true) by (apply Z.gtb_lt; lia).
  rewrite Hgt.
  rewrite (addBlockAtPosition_places env x y (setSelectedBlockIndex g index)
             camera slot clickedBlock hit f Hc Hs Hpos Hclick Hf Hfree).
  eexists. eexists. split; [reflexivity|].
  cbn [setInventory setWorld setSelectedBlockIndex world inventory selectedBlockIndex].
  split; [apply createBlock_blocks|].
  cbn [type position].
  split; [reflexivity|]. split; [reflexivity|].
  split; [apply decrementCount_nth; exact Hs|]. split.
  - intros i Hi. apply decrementCount_other. intros E. apply Hi. rewrite E. reflexivity.
  - intros Ht Hr. apply placementPosition_table; assumption.
Qed.

(** An event of the HUD on a game whose selected index is within the
    inventory raises no error and leaves the index within the inventory,
    whose length does not change. *)
Lemma step_never_throws g e :
  (selectedBlockIndex g < List.length (inventory g))%nat ->
  (forall index, e = SelectBlock index -> (index < List.length (inventory g))%nat) ->
  exists g',
    step env g e = Some g'
    /\ List.length (inventory g') = List.length (inventory g)
    /\ (selectedBlockIndex g' < List.length (inventory g'))%nat.
Proof.
  intros Hsel Hhud.
  destruct (nth_error (inventory g) (selectedBlockIndex g)) as [slot|] eqn:Hs;
    [|apply nth_error_None in Hs; lia].
  assert (Total : exists g', step env g e = Some g').
  { destruct e; cbn [step]; try (eexists; reflexivity).
    - unfold handleBlockSelection, addBlockAtPosition. rewrite Hs.
      repeat match goal with
             | |- context [match ?e with _ => _ end] => destruct e
             end; eexists; reflexivity.
    - unfold handleBlockSelection, addBlockAtPosition. rewrite Hs.
      repeat match goal with
             | |- context [match ?e with _ => _ end] => destruct e
             end; eexists; reflexivity.
    - destruct (state =? STATE_END); eexists; reflexivity.
    - unfold selectBlockFromInventory.
      destruct (nth_error (inventory g) index) eqn:Hi; [eexists; reflexivity|].
      apply nth_error_None in Hi. specialize (Hhud index eq_refl). lia. }
  destruct Total as (g' & Hstep). exists g'. split; [exact Hstep|].
  assert (Hlen : List.length (inventory g') = List.length (inventory g)).
  { destruct (step_inventory_cases g e g' Hstep) as [->|(_ & _ & _ & ->)];
      [reflexivity | apply decrementCount_length]. }
  split; [exact Hlen|]. rewrite Hlen.
  destruct e; cbn [step] in Hstep;
    try (injection Hstep as <-; exact Hsel).
  - destruct (handleBlockSelection_cases _ _ _ _ _ Hstep) as [->|[->|Ha]].
    + exact Hsel.
    + destruct (highlightBlockAtPosition_frame env x y g) as (_ & _ & _ & -> & _).
      exact Hsel.
    + destruct (addBlockAtPosition_frame env x y g g' Ha) as (_ & -> & _). exact Hsel.
  - destruct (handleBlockSelection_cases _ _ _ _ _ Hstep) as [->|[->|Ha]].
    + exact Hsel.
    + destruct (highlightBlockAtPosition_frame env x y g) as (_ & _ & _ & -> & _).
      exact Hsel.
    + destruct (addBlockAtPosition_frame env x y g g' Ha) as (_ & -> & _). exact Hsel.
  - injection Hstep as <-.
    destruct (startDestructionProgress_frame env x y g) as (_ & _ & _ & -> & _).
    exact Hsel.
  - destruct (state =? STATE_END); injection Hstep as <-.
    + destruct (destroyBlockAtPosition_frame env x y g) as (_ & _ & -> & _). exact Hsel.
    + destruct (cancelDestructionProgress_frame g) as (_ & _ & _ & -> & _). exact Hsel.
  - injection Hstep as <-.
    destruct (cancelDestructionProgress_frame g) as (_ & _ & _ & -> & _). exact Hsel.
  - injection Hstep as <-.
    destruct (elapse_frame env ms g) as (_ & _ & -> & _). exact Hsel.
  - injection Hstep as <-. unfold handleCameraPan. destruct (isPanning g); exact Hsel.
  - unfold selectBlockFromInventory in Hstep.
    destruct (nth_error (inventory g) index); [|discriminate].
    injection Hstep as <-. cbn [setSelectedBlockIndex selectedBlockIndex].
    exact (Hhud index eq_refl).
Qed.

(** X21.  From the start no sequence of events of the HUD, gestures, frames
    and clock ticks raises the TypeError of an index outside the inventory:
    the run goes through, the inventory keeps its six slots and the selected
    index stays within them. *)
Theorem handlers_never_throw r events :
  Forall fromHud events ->
  exists g',
    run env events (initialGame r) = Some g'
    /\ List.length (inventory g') = 6%nat
    /\ (selectedBlockIndex g' < 6)%nat.
Proof.
  intros HF.
  assert (G : forall g,
             List.length (inventory g) = 6%nat -> (selectedBlockIndex g < 6)%nat ->
             exists g', run env events g = Some g'
                        /\ List.length (inventory g') = 6%nat
                        /\ (selectedBlockIndex g' < 6)%nat).
  { induction HF as [|e events He HF IH]; intros g Hl Hs; cbn [run].
    - exists g. split; [reflexivity|]. split; assumption.
    - destruct (step_never_throws g e) as (g1 & Hstep & Hl1 & Hs1).
      + rewrite Hl. exact Hs.
      + intros index ->. rewrite Hl. exact He.
      + rewrite Hstep. apply IH; [congruence|]. rewrite Hl1, Hl in Hs1. exact Hs1. }
  apply G; cbn [initialGame inventory selectedBlockIndex initialInventory List.length]; lia.
Qed.

End InventoryFacts.

Lemma inventory_only_shrinks_witness :
  exists g',
    run exampleEnv [Tap STATE_END 200 400] (exampleGame [exampleBlock 0 0 0 0 stone])
    = Some g'
    /\ shrinks initialInventory (inventory g').
Proof.
  eexists. split; [reflexivity|].
  apply (inventory_only_shrinks exampleEnv [Tap STATE_END 200 400]
           (exampleGame [exampleBlock 0 0 0 0 stone]) _ eq_refl).
Defined.

Lemma placement_costs_one_item_witness :
  exists g',
    handleBlockSelection exampleEnv STATE_END 200 400
                         (exampleGame [exampleBlock 0 0 0 0 stone]) = Some g'
    /\ Z.of_nat (List.length (blocks (world g'))) + totalCount (inventory g')
       = 1 + totalCount initialInventory.
Proof.
  eexists. split; [reflexivity|].
  apply (placement_costs_one_item exampleEnv STATE_END 200 400
           (exampleGame [exampleBlock 0 0 0 0 stone]) _ eq_refl).
Defined.

Lemma select_then_place_witness :
  exists g' newBlock,
    run exampleEnv [SelectBlock 4; Tap STATE_END 200 400]
        (exampleGame [exampleBlock 0 0 0 0 stone]) = Some g'
    /\ blocks (world g') = [exampleBlock 0 0 0 0 stone; newBlock]
    /\ type newBlock = wood
    /\ position newBlock = (V3 0 1 0)%float
    /\ nth_error (inventory g') 4 = Some (mkSlot wood 63).
Proof.
  destruct (select_then_place exampleEnv 4 200 400
              (exampleGame [exampleBlock 0 0 0 0 stone]) exampleCamera
              (mkSlot wood 64) (exampleBlock 0 0 0 0 stone)
              (mkIntersection (mesh (exampleBlock 0 0 0 0 stone)) (Some PY)) PY
              eq_refl eq_refl eq_refl eq_refl eq_refl eq_refl)
    as (g' & newBlock & H1 & H2 & H3 & H4 & H5 & _).
  exists g', newBlock. split; [exact H1|]. split; [exact H2|]. split; [exact H3|].
  split; [exact H4 | exact H5].
Defined.

Lemma handlers_never_throw_witness :
  exists g',
    run exampleEnv [SelectBlock 5; Tap STATE_END 10 10; LongPressStart 10 10; Elapse 900]
        (initialGame halfDraws) = Some g'
    /\ List.length (inventory g') = 6%nat
    /\ (selectedBlockIndex g' < 6)%nat.
Proof.
  apply (handlers_never_throw exampleEnv halfDraws
           [SelectBlock 5; Tap STATE_END 10 10; LongPressStart 10 10; Elapse 900]).
  repeat constructor.
Defined.
(** ** The highlighted block and the destruction session *)
(** ** The highlighted block, the session and the cells of the blocks *)

Section SessionFacts.

Variable env : Env.

Lemma highlightBlockAtPosition_highlight x y g :
  highlightInWorld g -> highlightInWorld (highlightBlockAtPosition env x y g).
Proof.
  intros H. unfold highlightBlockAtPosition.
  destruct (cameraRef (player g)) as [camera|]; [|exact H].
  destruct (clickedBlockAt env camera x y (blocks (world g))) as [[b hit]|] eqn:Hc;
    [|exact H].
  unfold highlightInWorld, highlightBlock.
  cbn [setHighlightedBlockRef highlightedBlockRef world].
  exact (clickedBlockAt_in env camera x y _ b hit Hc).
Qed.

Lemma destroyBlockAtPosition_highlight x y g :
  highlightInWorld g -> highlightInWorld (destroyBlockAtPosition env x y g).
Proof.
  unfold highlightInWorld, destroyBlockAtPosition.
  destruct (cameraRef (player g)) as [camera|]; [|intros H; exact H].
  unfold setDestruction, setWorld, setHighlightedBlockRef.
  cbn [world highlightedBlockRef blocks].
  destruct (clickedBlockAt env camera x y (blocks (world g))) as [[b hit]|];
    cbn [world highlightedBlockRef blocks]; [|intros H; exact H].
  destruct (highlightedBlockRef g) as [h|]; [|intros _; exact I].
  intros H. destruct (sameBlock h b) eqn:E; cbn [world highlightedBlockRef blocks];
    [exact I|].
  apply filter_In. split; [exact H|]. rewrite E. reflexivity.
Qed.

Lemma addBlockAtPosition_highlight x y g g' :
  highlightInWorld g -> addBlockAtPosition env x y g = Some g' -> highlightInWorld g'.
Proof.
  intros H Ha.
  destruct (addBlockAtPosition_cases env x y g g' Ha) as [->|(slot & pos & _ & _ & _ & ->)];
    [exact H|].
  unfold highlightInWorld in *.
  cbn [setInventory setWorld highlightedBlockRef world].
  destruct (highlightedBlockRef g) as [h|]; [|exact I].
  rewrite createBlock_blocks. apply in_or_app. left. exact H.
Qed.

Lemma elapse_highlight ms g :
  highlightInWorld g -> highlightInWorld (elapse env ms g).
Proof.
  intros H. unfold elapse.
  destruct (destructionProgress g) as [|e tx ty| |]; try exact H.
  destruct (_ <=? _)%nat; [|exact H].
  apply destroyBlockAtPosition_highlight. exact H.
Qed.

Lemma onContextCreate_highlight g :
  highlightInWorld g -> highlightInWorld (onContextCreate env g).
Proof.
  unfold highlightInWorld.
  change (highlightedBlockRef (onContextCreate env g)) with (highlightedBlockRef g).
  rewrite onContextCreate_world. cbn [blocks].
  destruct (highlightedBlockRef g) as [h|]; [|exact (fun H => H)].
  intros Hh. apply in_or_app. left. exact Hh.
Qed.

Lemma step_highlight g e g' :
  highlightInWorld g -> step env g e = Some g' -> highlightInWorld g'.
Proof.
  intros Hh. destruct e; cbn [step]; intros H;
    try (injection H as <-; exact Hh).
  - destruct (handleBlockSelection_cases env _ _ _ _ _ H) as [->|[->|Ha]].
    + exact Hh.
    + apply highlightBlockAtPosition_highlight. exact Hh.
    + exact (addBlockAtPosition_highlight _ _ _ _ Hh Ha).
  - destruct (handleBlockSelection_cases env _ _ _ _ _ H) as [->|[->|Ha]].
    + exact Hh.
    + apply highlightBlockAtPosition_highlight. exact Hh.
    + exact (addBlockAtPosition_highlight _ _ _ _ Hh Ha).
  - injection H as <-. unfold startDestructionProgress.
    apply (highlightBlockAtPosition_highlight x y (setDestruction g true AtRest)).
    exact Hh.
  - destruct (state =? STATE_END); injection H as <-.
    + apply destroyBlockAtPosition_highlight. exact Hh.
    + unfold cancelDestructionProgress. destruct (isDestructionInProgress g); exact Hh.
  - injection H as <-. unfold cancelDestructionProgress.
    destruct (isDestructionInProgress g); exact Hh.
  - injection H as <-. apply elapse_highlight. exact Hh.
  - injection H as <-. unfold handleCameraPan. destruct (isPanning g); exact Hh.
  - unfold selectBlockFromInventory in H.
    destruct (nth_error (inventory g) index); [|discriminate].
    injection H as <-. exact Hh.
  - injection H as <-. apply onContextCreate_highlight. exact Hh.
Qed.

(** X22.  The highlight never dangles: in a game reached from one without
    highlight by any events, the highlighted block, when there is one, is a
    block of the array; destroying the highlighted block clears the
    reference. *)
Theorem highlight_never_dangles events : forall g g',
  highlightedBlockRef g = None ->
  run env events g = Some g' ->
  highlightInWorld g'.
Proof.
  assert (G : forall g g', highlightInWorld g -> run env events g = Some g' ->
                           highlightInWorld g').
  { induction events as [|e events IH]; intros g g' Hh; cbn [run].
    - intros H. injection H as <-. exact Hh.
    - destruct (step env g e) as [g1|] eqn:Hstep; [|discriminate].
      apply IH. exact (step_highlight g e g1 Hh Hstep). }
  intros g g' Hn. apply G. unfold highlightInWorld. rewrite Hn. exact I.
Qed.

Lemma highlightBlockAtPosition_session x y g :
  isDestructionInProgress (highlightBlockAtPosition env x y g) = isDestructionInProgress g
  /\ destructionProgress (highlightBlockAtPosition env x y g) = destructionProgress g.
Proof.
  destruct (highlightBlockAtPosition_frame env x y g) as (_ & _ & _ & _ & H1 & H2).
  split; assumption.
Qed.

Lemma destroyBlockAtPosition_session x y g :
  sessionConsistent g -> sessionConsistent (destroyBlockAtPosition env x y g).
Proof.
  intros H. destruct (cameraRef (player g)) as [camera|] eqn:Hc.
  - unfold sessionConsistent.
    destruct (destroyBlockAtPosition_reset env x y g camera Hc) as [_ ->]. exact I.
  - unfold destroyBlockAtPosition. rewrite Hc. exact H.
Qed.

Lemma step_session g e g' :
  sessionConsistent g -> step env g e = Some g' -> sessionConsistent g'.
Proof.
  intros Hs.
  assert (Tap_case : forall state x y,
             handleBlockSelection env state x y g = Some g' -> sessionConsistent g').
  { intros state x y H. unfold sessionConsistent in *.
    destruct (handleBlockSelection_cases env _ _ _ _ _ H) as [->|[->|Ha]].
    - exact Hs.
    - destruct (highlightBlockAtPosition_session x y g) as [-> ->]. exact Hs.
    - destruct (addBlockAtPosition_frame env x y g g' Ha) as (_ & _ & _ & -> & ->).
      exact Hs. }
  destruct e; cbn [step]; intros H;
    try (injection H as <-; exact Hs).
  - exact (Tap_case _ _ _ H).
  - exact (Tap_case _ _ _ H).
  - injection H as <-. unfold sessionConsistent.
    destruct (startDestructionProgress_state env x y g) as [-> ->]. reflexivity.
  - destruct (state =? STATE_END); injection H as <-.
    + apply destroyBlockAtPosition_session. exact Hs.
    + unfold cancelDestructionProgress.
      destruct (isDestructionInProgress g); [exact I | exact Hs].
  - injection H as <-. unfold cancelDestructionProgress.
    destruct (isDestructionInProgress g); [exact I | exact Hs].
  - injection H as <-. unfold elapse.
    destruct (destructionProgress g) as [|el tx ty| |] eqn:Hp; try exact Hs.
    + destruct (_ <=? _)%nat.
      * apply destroyBlockAtPosition_session. exact I.
      * unfold sessionConsistent in *. rewrite Hp in Hs.
        cbn [setDestruction destructionProgress isDestructionInProgress]. exact Hs.
    + exact I.
  - injection H as <-. unfold handleCameraPan. destruct (isPanning g); exact Hs.
  - unfold selectBlockFromInventory in H.
    destruct (nth_error (inventory g) index); [|discriminate].
    injection H as <-. exact Hs.
Qed.

Lemma run_session events : forall g g',
  sessionConsistent g -> run env events g = Some g' -> sessionConsistent g'.
Proof.
  induction events as [|e events IH]; intros g g' Hs; cbn [run].
  - intros H. injection H as <-. exact Hs.
  - destruct (step env g e) as [g1|] eqn:Hstep; [|discriminate].
    apply IH. exact (step_session g e g1 Hs Hstep).
Qed.

Lemma run_snoc events e : forall g g',
  run env (events ++ [e]) g = Some g' ->
  exists g1, run env events g = Some g1 /\ step env g1 e = Some g'.
Proof.
  induction events as [|e0 events IH]; intros g g'; cbn [app run].
  - destruct (step env g e) as [g1|] eqn:Hstep; [|discriminate].
    intros H. injection H as <-. exists g. split; [reflexivity | exact Hstep].
  - destruct (step env g e0) as [g0|]; [|discriminate]. apply IH.
Qed.

(** The clock alone changes nothing but the progress value once the
    animation to 1 is not under way. *)
Lemma ticks_at_rest mss : forall g,
  isTiming g = false ->
  exists g',
    run env (map Elapse mss) g = Some g'
    /\ world g' = world g /\ inventory g' = inventory g
    /\ highlightedBlockRef g' = highlightedBlockRef g.
Proof.
  induction mss as [|ms mss IH]; intros g Ht; cbn [map run step].
  - exists g. repeat split.
  - assert (E : isTiming (elapse env ms g) = false
                /\ world (elapse env ms g) = world g
                /\ inventory (elapse env ms g) = inventory g
                /\ highlightedBlockRef (elapse env ms g) = highlightedBlockRef g).
    { unfold isTiming, elapse in *.
      destruct (destructionProgress g) eqn:Hp; try discriminate;
        cbn [setDestruction destructionProgress world inventory highlightedBlockRef];
        try rewrite Hp; repeat split. }
    destruct E as (E1 & E2 & E3 & E4).
    destruct (IH (elapse env ms g) E1) as (g' & Hrun & Hw & Hi & Hh).
    exists g'. split; [exact Hrun|]. split; [congruence|]. split; congruence.
Qed.

(** X23.  An interrupted session never destroys later: once the long press
    is finalized, however the events before it went, no amount of time on
    the animation's clock changes the blocks, the inventory or the
    highlight. *)
Theorem finalize_ends_session events mss g0 g :
  sessionConsistent g0 ->
  run env (events ++ [LongPressFinalize]) g0 = Some g ->
  exists g',
    run env (map Elapse mss) g = Some g'
    /\ world g' = world g /\ inventory g' = inventory g
    /\ highlightedBlockRef g' = highlightedBlockRef g.
Proof.
  intros Hs Hrun.
  destruct (run_snoc events LongPressFinalize g0 g Hrun) as (g1 & Hrun1 & Hstep).
  pose proof (run_session events g0 g1 Hs Hrun1) as Hs1.
  cbn [step] in Hstep. injection Hstep as <-.
  apply ticks_at_rest.
  unfold isTiming, cancelDestructionProgress, sessionConsistent in *.
  destruct (isDestructionInProgress g1) eqn:Hip.
  - reflexivity.
  - destruct (destructionProgress g1); try reflexivity. discriminate.
Qed.

End SessionFacts.

Lemma highlight_never_dangles_witness :
  exists g',
    run exampleEnv [LongPressStart 200 400; Elapse 900]
        (exampleGame [exampleBlock 0 0 0 0 stone; exampleBlock 1 1 0 0 dirt]) = Some g'
    /\ highlightInWorld g'.
Proof.
  eexists. split; [reflexivity|].
  apply (highlight_never_dangles exampleEnv [LongPressStart 200 400; Elapse 900]
           (exampleGame [exampleBlock 0 0 0 0 stone; exampleBlock 1 1 0 0 dirt]) _
           eq_refl eq_refl).
Defined.

Lemma finalize_ends_session_witness :
  exists g g',
    run exampleEnv ([LongPressStart 200 400; Elapse 300] ++ [LongPressFinalize])
        (exampleGame [exampleBlock 0 0 0 0 stone]) = Some g
    /\ run exampleEnv (map Elapse [600; 600]%nat) g = Some g'
    /\ world g' = world g.
Proof.
  eexists.
  destruct (finalize_ends_session exampleEnv [LongPressStart 200 400; Elapse 300]
              [600; 600]%nat (exampleGame [exampleBlock 0 0 0 0 stone]) _ I eq_refl)
    as (g' & H1 & H2 & _).
  exists g'. split; [reflexivity|]. split; [exact H1 | exact H2].
Defined.

